(** * ai2thor.controller: the Session Controller and the BFS explorer

    A shallow embedding of [src/ai2thor/controller.py], read with the
    meaning of Python 3 ([round] to even, [/] a true division).

    Numbers.  Python floats are modelled by exact rationals ([Q]); the only
    irrational operation of the source, [math.sqrt], occurs under a
    comparison with a constant, and [sqrt d < c] is embedded as
    [0 < c /\ d < c * c] (similarly for [<=]).  Rounding errors of binary
    floating point are therefore outside the model.

    Effects.  A method of [Controller] is a function from the controller
    state and the state of the engine behind the two queues to a new
    controller state, a new engine state and an outcome: a returned value or
    a raised exception.  The state that a raising call leaves behind is
    kept, since the source mutates [self] before it raises.  A [while] loop
    whose length is not known beforehand takes fuel and answers [None] when
    the fuel ends first.

    Left out: launching and stopping the engine, the download of its
    binary, the two visibility surveys, and the window calls of the drawing
    of the grid.  The object list of an event's metadata is an argument of
    the functions that read it. *)

From Stdlib Require Import String QArith Qabs Qround ZArith List Bool Lia Lra Psatz.
From Stdlib Require Import Permutation.
Import ListNotations.

Open Scope Q_scope.

(** ** Number helpers *)

(** Python 3 [round(x)] on a float: nearest integer, ties to even. *)
Definition round_half_even (q : Q) : Z :=
  let f := Qfloor q in
  match Qcompare (q - inject_Z f) (1 # 2) with
  | Lt => f
  | Gt => (f + 1)%Z
  | Eq => if Z.even f then f else (f + 1)%Z
  end.

(** Python [int(x)] on a float: truncation towards zero. *)
Definition py_int (q : Q) : Z := Z.quot (Qnum q) (Zpos (Qden q)).

Definition Qltb (a b : Q) : bool := negb (Qle_bool b a).

(** The text produced by ["%0.<k>f" % v]: a minus sign exactly when [v] is
    negative (also when the digits are all zero, as in ["-0.0"]), then the
    correctly rounded magnitude with [k] decimals.  The text and the pair
    (sign, magnitude scaled by [10^k]) determine each other, so the pair
    stands for the text. *)
Record Fixed : Type := mkFixed { fx_neg : bool; fx_digits : Z }.

Definition format_fixed (k : nat) (v : Q) : Fixed :=
  {| fx_neg := Qltb v 0;
     fx_digits := round_half_even (Qabs v * inject_Z (10 ^ Z.of_nat k)) |}.

Definition Fixed_eqb (a b : Fixed) : bool :=
  Bool.eqb (fx_neg a) (fx_neg b) && Z.eqb (fx_digits a) (fx_digits b).

(** ** Points *)

(** A position dict of the engine: [{'x': .., 'y': .., 'z': ..}]. *)
Record Position : Type := mkPos { pos_x : Q; pos_y : Q; pos_z : Q }.

(** A dict with only ['x'] and ['z'], as built by [target_point] and by
    [has_islands]. *)
Record XZ : Type := mkXZ { xz_x : Q; xz_z : Q }.

Definition xz_of (p : Position) : XZ := mkXZ (pos_x p) (pos_z p).

(** The radicand of [distance(point1, point2)]. *)
Definition distance_sq (p1 p2 : XZ) : Q :=
  (xz_x p1 - xz_x p2) * (xz_x p1 - xz_x p2)
  + (xz_z p1 - xz_z p2) * (xz_z p1 - xz_z p2).

(** [math.sqrt(d) < c]. *)
Definition sqrt_ltb (d c : Q) : bool := Qltb 0 c && Qltb d (c * c).

(** [math.sqrt(d) <= c]. *)
Definition sqrt_leb (d c : Q) : bool := Qle_bool 0 c && Qle_bool d (c * c).

(** [math.sqrt(d) > 0]. *)
Definition sqrt_posb (d : Q) : bool := Qltb 0 d.

(** A key text: the two formatted numbers around the separator. *)
Definition Key : Type := (Fixed * Fixed)%type.

Definition Key_eqb (a b : Key) : bool :=
  Fixed_eqb (fst a) (fst b) && Fixed_eqb (snd a) (snd b).

(** Module-level [key_for_point(x, z)]: ["%0.1f %0.1f" % (x, z)]. *)
Definition key_for_point (x z : Q) : Key :=
  (format_fixed 1 x, format_fixed 1 z).

(** ** Actions, events, exceptions *)

Inductive Value : Type :=
| VNum (q : Q)
| VNumpy (q : Q)          (* an instance of np.generic *)
| VStr (s : string)
| VBool (b : bool).

(** An action dict: the ['action'] entry and the remaining entries. *)
Record Action : Type := mkAction
  { action_name : string; action_params : list (string * Value) }.

Record Agent : Type := mkAgent
  { agent_position : Position;
    agent_rotation_y : Q;
    agent_cameraHorizon : Q }.

(** The entries of [event.metadata] that the controller reads. *)
Record Metadata : Type := mkMetadata
  { lastActionSuccess : bool;
    errorMessage : string;
    agent : Agent }.

(** [ai2thor.server.Event(metadata, image)]. *)
Record Event : Type := mkEvent
  { metadata : Metadata; image : option string }.

Inductive Exn : Type :=
| AssertionError (args : list string)
| AttributeError
| QueueFull
| IndexError
| KeyError
| NodeNotFound
| NetworkXNoPath
| NetworkXError
| ZeroDivisionError
| PyException (msg : string).

(** What an exception carries: the arguments it was built with. *)
Definition exn_args (e : Exn) : list string :=
  match e with
  | AssertionError a => a
  | PyException m => [m]
  | _ => []
  end.

Inductive Outcome (A : Type) : Type :=
| Return (a : A)
| Raise (e : Exn).
Arguments Return {A} a.
Arguments Raise {A} e.

(** ** Controller *)

(** The instance attributes of [Controller] that [step] reads or writes.
    A [Queue(maxsize=1)] holds at most one item. *)
Record Controller : Type := mkController
  { request_queue : option Event;
    response_queue : option Action;
    last_event : option Event }.

Definition Controller_init : Controller :=
  {| request_queue := None; response_queue := None; last_event := None |}.

Definition set_last_event (c : Controller) (e : Event) : Controller :=
  {| request_queue := request_queue c;
     response_queue := response_queue c;
     last_event := Some e |}.

(** [metadata['lastActionSuccess'] = b] on a copy. *)
Definition set_lastActionSuccess (m : Metadata) (b : bool) : Metadata :=
  {| lastActionSuccess := b; errorMessage := errorMessage m; agent := agent m |}.

(** [np.asscalar] on the numpy numbers of an action. *)
Definition asscalar (v : Value) : Value :=
  match v with VNumpy q => VNum q | _ => v end.

Definition action_filtered (a : Action) : Action :=
  {| action_name := action_name a;
     action_params := map (fun kv => (fst kv, asscalar (snd kv))) (action_params a) |}.

(** The overridable method of the class. *)
Class ControllerClass : Type := { _check_action : Action -> bool }.

(** [Controller._check_action] itself. *)
Definition Controller_class : ControllerClass :=
  {| _check_action := fun _ => true |}.

Section Step.

(** The far side of the queues: the server thread and the engine.  It takes
    the action from [response_queue] and puts the resulting event on
    [request_queue], where [queue_get] finds it. *)
Variable World : Type.
Variable serve : World -> Action -> World * Event.
Context {cls : ControllerClass}.

Definition StepResult : Type := (Controller * World * Outcome Event)%type.

(** [Controller.step(action, raise_for_failure)]. *)
Definition step (c : Controller) (w : World) (action : Action)
    (raise_for_failure : bool) : StepResult :=
  if negb (_check_action action) then
    match last_event c with
    | None => (c, w, Raise AttributeError)
    | Some le =>
        let new_event :=
          {| metadata := set_lastActionSuccess (metadata le) false;
             image := image le |} in
        (set_last_event c new_event, w, Return new_event)
    end
  else
    match request_queue c with
    | Some _ => (c, w, Raise (AssertionError []))
    | None =>
        let action := action_filtered action in
        match response_queue c with
        | Some _ => (c, w, Raise QueueFull)
        | None =>
            (* put_nowait; the far side answers; queue_get *)
            let '(w', ev) := serve w action in
            let c' := set_last_event c ev in
            if raise_for_failure && negb (lastActionSuccess (metadata ev))
            then (c', w', Raise (AssertionError []))
            else (c', w', Return ev)
        end
    end.

(** [Controller.reset(scene_name)]. *)
Definition reset (c : Controller) (w : World) (scene_name : string) : StepResult :=
  match response_queue c with
  | Some _ => (c, w, Raise QueueFull)
  | None =>
      let '(w', ev) :=
        serve w (mkAction "Reset" [("sceneName"%string, VStr scene_name);
                                   ("sequenceId"%string, VNum 0)]) in
      (set_last_event c ev, w', Return ev)
  end.

End Step.

Arguments step {World} serve {cls} c w action raise_for_failure.
Arguments reset {World} serve c w scene_name.

(** ** BFSSearchPoint *)

(** [move_vector] is a [defaultdict] with default [0.0]: both entries are
    present with value [0] unless given. *)
Record BFSSearchPoint : Type := mkSearchPoint
  { start_position : Position;
    move_vector : XZ;
    heading_angle : Q;
    horizon_angle : Q }.

Definition new_search_point (start : Position) (dx dz : Q) : BFSSearchPoint :=
  {| start_position := start; move_vector := mkXZ dx dz;
     heading_angle := 0; horizon_angle := 0 |}.

Definition target_point (sp : BFSSearchPoint) : XZ :=
  mkXZ (pos_x (start_position sp) + xz_x (move_vector sp))
       (pos_z (start_position sp) + xz_z (move_vector sp)).

(** ** BFSController: state *)

Record BFSController : Type := mkBFS
  { base : Controller;
    rotations : list Q;
    horizons : list Q;
    allow_enqueue : bool;
    queue : list BFSSearchPoint;       (* deque; the head is the left end *)
    seen_points : list XZ;
    grid_points : list Position;
    grid_size : Q }.

Definition BFSController_init : BFSController :=
  {| base := Controller_init;
     rotations := [0; 90; 180; 270];
     horizons := [330; 0; 30];
     allow_enqueue := true;
     queue := [];
     seen_points := [];
     grid_points := [];
     grid_size := 25 # 100 |}.

Definition with_base (b : BFSController) (c : Controller) : BFSController :=
  mkBFS c (rotations b) (horizons b) (allow_enqueue b) (queue b)
        (seen_points b) (grid_points b) (grid_size b).
Definition with_allow_enqueue (b : BFSController) (a : bool) : BFSController :=
  mkBFS (base b) (rotations b) (horizons b) a (queue b)
        (seen_points b) (grid_points b) (grid_size b).
Definition with_queue (b : BFSController) (q : list BFSSearchPoint) : BFSController :=
  mkBFS (base b) (rotations b) (horizons b) (allow_enqueue b) q
        (seen_points b) (grid_points b) (grid_size b).
Definition with_seen_points (b : BFSController) (s : list XZ) : BFSController :=
  mkBFS (base b) (rotations b) (horizons b) (allow_enqueue b) (queue b)
        s (grid_points b) (grid_size b).
Definition with_grid_points (b : BFSController) (g : list Position) : BFSController :=
  mkBFS (base b) (rotations b) (horizons b) (allow_enqueue b) (queue b)
        (seen_points b) g (grid_size b).

(** ** has_islands *)

(** [json.dumps(p)] of a position: equal texts for equal numbers.  The
    reduced fractions stand for the printed numbers. *)
Definition Json : Type := (Q * Q * Q)%type.

Definition dumps (p : Position) : Json :=
  (Qred (pos_x p), Qred (pos_y p), Qred (pos_z p)).

Definition Q_eqb (a b : Q) : bool :=
  Z.eqb (Qnum a) (Qnum b) && Pos.eqb (Qden a) (Qden b).

Definition Json_eqb (a b : Json) : bool :=
  let '(ax, ay, az) := a in
  let '(bx, by_, bz) := b in
  Q_eqb ax bx && Q_eqb ay by_ && Q_eqb az bz.

(** The local state of [has_islands]: the list [queue], held in reverse
    (its head is the last element, the one [queue.pop()] takes), and the set
    [seen_points], to which a text is added only when it is absent. *)
Definition IslandState : Type := (list XZ * list Json)%type.

Definition enqueue_island_points (mag : Q) (st : IslandState) (p : Position)
  : IslandState :=
  let '(queue, seen) := st in
  if existsb (Json_eqb (dumps p)) seen then st
  else (mkXZ (pos_x p - mag) (pos_z p)
        :: mkXZ (pos_x p + mag) (pos_z p)
        :: mkXZ (pos_x p) (pos_z p - mag)
        :: mkXZ (pos_x p) (pos_z p + mag)
        :: queue,
        dumps p :: seen).

(** The body of the [for p in self.grid_points] loop. *)
Definition island_visit (mag : Q) (point_to_find : XZ) (st : IslandState)
    (p : Position) : IslandState :=
  if sqrt_ltb (distance_sq point_to_find (xz_of p)) (5 # 100)
  then enqueue_island_points mag st p
  else st.

(** [while queue: ...]; [None] when the fuel ends before the queue does. *)
Fixpoint has_islands_loop (fuel : nat) (mag : Q) (gps : list Position)
    (st : IslandState) : option (list Json) :=
  match st with
  | ([], seen) => Some seen
  | (point_to_find :: queue, seen) =>
      match fuel with
      | O => None
      | S fuel' =>
          has_islands_loop fuel' mag gps
            (fold_left (island_visit mag point_to_find) gps (queue, seen))
      end
  end.

(** [BFSController.has_islands()].  Every grid point is enqueued once at
    most and brings four entries, so [4 * len(grid_points)] iterations are
    enough (lemma [has_islands_loop_terminates]). *)
Definition has_islands (b : BFSController) : option (Outcome bool) :=
  match grid_points b with
  | [] => Some (Raise IndexError)
  | p0 :: _ =>
      let gps := grid_points b in
      let mag := grid_size b in
      match has_islands_loop (4 * length gps) mag gps
              (enqueue_island_points mag ([], []) p0) with
      | None => None
      | Some seen => Some (Return (negb (Nat.eqb (length seen) (length gps))))
      end
  end.

(** ** prune_points *)

Definition key_in (k : Key) (s : list Key) : bool := existsb (Key_eqb k) s.

(** The value of [found] for one grid point. *)
Definition prune_found (g : Q) (final_grid_points : list Key)
    (gp : Position) : bool :=
  let found := false in
  let found :=
    fold_left (fun found x =>
                 found || key_in (key_for_point (pos_x gp + g * x) (pos_z gp))
                                 final_grid_points)
              [1; -1 # 1] found in
  let found :=
    fold_left (fun found z =>
                 found || key_in (key_for_point (pos_x gp) (g * z + pos_z gp))
                                 final_grid_points)
              [1; -1 # 1] found in
  found.

(** [BFSController.prune_points()]. *)
Definition prune_points (b : BFSController) : BFSController :=
  let final_grid_points :=
    map (fun gp => key_for_point (pos_x gp) (pos_z gp)) (grid_points b) in
  let pruned_grid_points :=
    filter (prune_found (grid_size b) final_grid_points) (grid_points b) in
  with_grid_points b pruned_grid_points.

(** ** Ordered dicts *)

Section Dict.
Variables (K V : Type) (eqb : K -> K -> bool).

Fixpoint dict_get (d : list (K * V)) (k : K) : option V :=
  match d with
  | [] => None
  | (k', v) :: d' => if eqb k' k then Some v else dict_get d' k
  end.

(** [d[k] = v]: an existing entry keeps its place. *)
Fixpoint dict_set (d : list (K * V)) (k : K) (v : V) : list (K * V) :=
  match d with
  | [] => [(k, v)]
  | (k', v') :: d' =>
      if eqb k' k then (k', v) :: d' else (k', v') :: dict_set d' k v
  end.

End Dict.
Arguments dict_get {K V} eqb d k.
Arguments dict_set {K V} eqb d k v.

Definition obind {A B : Type} (o : Outcome A) (f : A -> Outcome B) : Outcome B :=
  match o with
  | Return a => f a
  | Raise e => Raise e
  end.

Notation "x <- c ;; k" := (obind c (fun x => k))
  (at level 61, c at next level, right associativity).

Definition lookup_or_KeyError {A : Type} (o : option A) : Outcome A :=
  match o with
  | Some a => Return a
  | None => Raise KeyError
  end.

(** ** The reachability graph *)

(** [BFSController.key_for_point(point)]: ["{x:0.3f}|{z:0.3f}"]. *)
Definition BFS_key_for_point (point : Position) : Key :=
  (format_fixed 3 (pos_x point), format_fixed 3 (pos_z point)).

(** A [networkx.Graph]: the adjacency dict, nodes and neighbours in
    insertion order. *)
Definition Graph : Type := list (Key * list Key).

Definition has_node (g : Graph) (n : Key) : bool :=
  existsb (fun kv => Key_eqb (fst kv) n) g.

Definition add_node (g : Graph) (n : Key) : Graph :=
  if has_node g n then g else g ++ [(n, [])].

Definition add_neighbor (g : Graph) (u v : Key) : Graph :=
  match dict_get Key_eqb g u with
  | None => g
  | Some ns => dict_set Key_eqb g u (if key_in v ns then ns else ns ++ [v])
  end.

(** [Graph.add_edge(u, v)]. *)
Definition add_edge (g : Graph) (u v : Key) : Graph :=
  add_neighbor (add_neighbor (add_node (add_node g u) v) u v) v u.

(** [Graph.neighbors(n)]; [None] stands for its [NetworkXError]. *)
Definition neighbors (g : Graph) (n : Key) : option (list Key) :=
  dict_get Key_eqb g n.

(** [BFSController._build_graph_point(graph, point)]. *)
Definition _build_graph_point (b : BFSController) (graph : Graph)
    (point : Position) : Graph :=
  fold_left
    (fun graph p =>
       let d := distance_sq (xz_of point) (xz_of p) in
       if sqrt_leb d (grid_size b + (1 # 100)) && sqrt_posb d
       then add_edge graph (BFS_key_for_point point) (BFS_key_for_point p)
       else graph)
    (grid_points b) graph.

(** [BFSController.build_graph()]. *)
Definition build_graph (b : BFSController) : Graph :=
  fold_left (_build_graph_point b) (grid_points b) [].

(** [networkx.shortest_path(G, source, target)] on an unweighted graph,
    as a breadth-first search: the frontier holds every reached node with
    the path to it, in reverse. *)
Definition bfs_expand (rpath : list Key)
    (st : list (Key * list Key) * list Key) (n : Key)
  : list (Key * list Key) * list Key :=
  let '(frontier, visited) := st in
  if key_in n visited then st
  else (frontier ++ [(n, n :: rpath)], visited ++ [n]).

Fixpoint bfs_loop (fuel : nat) (g : Graph) (target : Key)
    (frontier : list (Key * list Key)) (visited : list Key)
  : option (Outcome (list Key)) :=
  match frontier with
  | [] => Some (Raise NetworkXNoPath)
  | (u, rpath) :: rest =>
      if Key_eqb u target then Some (Return (rev rpath))
      else
        match fuel with
        | O => None
        | S fuel' =>
            let ns := match neighbors g u with Some ns => ns | None => [] end in
            let '(frontier', visited') :=
              fold_left (bfs_expand rpath) ns (rest, visited) in
            bfs_loop fuel' g target frontier' visited'
        end
  end.

(** Every key enters the frontier once at most, and it is the source or a
    neighbour of some node: this bounds the iterations. *)
Definition bfs_fuel (g : Graph) : nat :=
  S (length (concat (map snd g))).

Definition shortest_path (g : Graph) (source target : Key)
  : option (Outcome (list Key)) :=
  if negb (has_node g source) then Some (Raise NodeNotFound)
  else if negb (has_node g target) then Some (Raise NodeNotFound)
  else bfs_loop (bfs_fuel g) g target [(source, [source])] [source].

(** ** Path planning *)

Definition act (name : string) : Action := mkAction name [].

(** The table of [move_relative_points]: heading, then [(x, z, action)]. *)
Definition action_orientation : list (Z * (Z * Z * string)) :=
  [ (0, (0, 1, "MoveAhead"%string));
    (90, (1, 0, "MoveRight"%string));
    (180, (0, -1, "MoveBack"%string));
    (270, (-1, 0, "MoveLeft"%string)) ]%Z.

(** The inner [for target_rotation, offsets in action_orientation.items()]:
    the action name at which it breaks, if any. *)
Fixpoint orientation_loop (rotation : Q) (x_o z_o : Z)
    (items : list (Z * (Z * Z * string))) : Outcome (option string) :=
  match items with
  | [] => Return None
  | (target_rotation, offsets) :: rest =>
      let delta :=
        (round_half_even (rotation + inject_Z target_rotation) mod 360)%Z in
      ao <- lookup_or_KeyError (dict_get Z.eqb action_orientation delta) ;;
      let action_name := snd offsets in
      if Z.eqb x_o (fst (fst ao)) && Z.eqb z_o (snd (fst ao))
      then Return (Some action_name)
      else orientation_loop rotation x_o z_o rest
  end.

(** [BFSController.move_relative_points(all_points, graph, position, rotation)]. *)
Definition move_relative_points (b : BFSController)
    (all_points : list (Key * Position)) (graph : Graph)
    (position : Position) (rotation : Q)
  : Outcome (list (string * Position)) :=
  match neighbors graph (BFS_key_for_point position) with
  | None => Raise NetworkXError
  | Some ns =>
      fold_left
        (fun acc n =>
           move_points <- acc ;;
           point <- lookup_or_KeyError (dict_get Key_eqb all_points n) ;;
           if Qeq_bool (grid_size b) 0 then Raise ZeroDivisionError
           else
             let x_o := round_half_even ((pos_x point - pos_x position) / grid_size b) in
             let z_o := round_half_even ((pos_z point - pos_z position) / grid_size b) in
             found <- orientation_loop rotation x_o z_o action_orientation ;;
             match found with
             | Some action_name =>
                 Return (dict_set String.eqb move_points action_name point)
             | None => Return move_points
             end)
        ns (Return [])
  end.

Definition horizon_step_map : list (Z * Z) :=
  [ (330, 3); (0, 2); (30, 1); (60, 0) ]%Z.

(** [BFSController.plan_horizons(agent_horizon, target_horizon)]. *)
Definition plan_horizons (agent_horizon target_horizon : Q)
  : Outcome (list Action) :=
  a <- lookup_or_KeyError (dict_get Z.eqb horizon_step_map (py_int agent_horizon)) ;;
  t <- lookup_or_KeyError (dict_get Z.eqb horizon_step_map (py_int target_horizon)) ;;
  let look_diff := (a - t)%Z in
  if (0 <? look_diff)%Z
  then Return (repeat (act "LookDown") (Z.to_nat look_diff))
  else Return (repeat (act "LookUp") (Z.to_nat (Z.abs look_diff))).

(** [BFSController.plan_rotations(agent_rotation, target_rotation)]. *)
Definition plan_rotations (agent_rotation target_rotation : Q) : list Action :=
  let right_diff := target_rotation - agent_rotation in
  let right_diff := if Qltb right_diff 0 then right_diff + 360 else right_diff in
  let right_steps := right_diff / 90 in
  let left_diff := agent_rotation - target_rotation in
  let left_diff := if Qltb left_diff 0 then left_diff + 360 else left_diff in
  let left_steps := left_diff / 90 in
  if Qltb right_steps left_steps
  then repeat (act "RotateRight") (Z.to_nat (py_int right_steps))
  else repeat (act "RotateLeft") (Z.to_nat (py_int left_steps)).

(** The [for p in path[1:]] loop of [shortest_plan]. *)
Fixpoint plan_moves (b : BFSController) (all_points : list (Key * Position))
    (graph : Graph) (current_rotation : Q) (current_position : Position)
    (path : list Key) : Outcome (list Action) :=
  match path with
  | [] => Return []
  | p :: path' =>
      mrp <- move_relative_points b all_points graph current_position current_rotation ;;
      let inv_pms :=
        fold_left (fun d kv => dict_set Key_eqb d (BFS_key_for_point (snd kv)) (fst kv))
                  mrp [] in
      name <- lookup_or_KeyError (dict_get Key_eqb inv_pms p) ;;
      next <- lookup_or_KeyError (dict_get Key_eqb all_points p) ;;
      rest <- plan_moves b all_points graph current_rotation next path' ;;
      Return (act name :: rest)
  end.

(** [BFSController.shortest_plan(graph, agent, target)]. *)
Definition shortest_plan (b : BFSController) (graph : Graph)
    (agent_ target : Agent) : option (Outcome (list Action)) :=
  match shortest_path graph (BFS_key_for_point (agent_position agent_))
                            (BFS_key_for_point (agent_position target)) with
  | None => None
  | Some (Raise e) => Some (Raise e)
  | Some (Return path) =>
      let all_points :=
        fold_left (fun d point => dict_set Key_eqb d (BFS_key_for_point point) point)
                  (grid_points b) [] in
      Some (
        actions <- plan_moves b all_points graph (agent_rotation_y agent_)
                     (agent_position agent_) (tl path) ;;
        hs <- plan_horizons (agent_cameraHorizon agent_) (agent_cameraHorizon target) ;;
        Return (actions ++ hs
                ++ plan_rotations (agent_rotation_y agent_) (agent_rotation_y target)))
  end.

(** ** Exploration *)

(** [BFSController.enqueue_point(point)]. *)
Definition enqueue_point (b : BFSController) (point : BFSSearchPoint)
  : BFSController :=
  let threshold := grid_size b / 5 in
  if negb (existsb (fun p => sqrt_ltb (distance_sq p (target_point point)) threshold)
                   (seen_points b))
  then with_queue (with_seen_points b (seen_points b ++ [target_point point]))
                  (queue b ++ [point])
  else b.

(** [BFSController.enqueue_points(agent_position)]. *)
Definition enqueue_points (b : BFSController) (agent_position : Position)
  : BFSController :=
  if negb (allow_enqueue b) then b
  else
    let b := enqueue_point b (new_search_point agent_position (-1 * grid_size b) 0) in
    let b := enqueue_point b (new_search_point agent_position (grid_size b) 0) in
    let b := enqueue_point b (new_search_point agent_position 0 (-1 * grid_size b)) in
    let b := enqueue_point b (new_search_point agent_position 0 (1 * grid_size b)) in
    b.

Section Explore.

Variable World : Type.
Variable serve : World -> Action -> World * Event.
Context {cls : ControllerClass}.

(** The choices of [initialize_scene] that depend on the object list of the
    last event and on [random]: the receptacles it opens. *)
Variable receptacles_to_open : Event -> list string.

Definition M (A : Type) : Type :=
  BFSController -> World -> BFSController * World * Outcome A.

(** [self.step(...)] on a [BFSController]. *)
Definition BFS_step (action : Action) (raise_for_failure : bool) : M Event :=
  fun b w =>
    let '(c, w', o) := step serve (base b) w action raise_for_failure in
    (with_base b c, w', o).

(** [self.reset(scene_name)] on a [BFSController]. *)
Definition BFS_reset (scene_name : string) : M Event :=
  fun b w =>
    let '(c, w', o) := reset serve (base b) w scene_name in
    (with_base b c, w', o).

Definition teleport_action (p : Position) : Action :=
  mkAction "Teleport"
    [("x"%string, VNum (pos_x p)); ("y"%string, VNum (pos_y p));
     ("z"%string, VNum (pos_z p))].

Definition move_action (move_vec : XZ) (magnitude : Q) : Action :=
  mkAction "Move"
    [("x"%string, VNum (xz_x move_vec)); ("z"%string, VNum (xz_z move_vec));
     ("moveMagnitude"%string, VNum magnitude)].

(** [BFSController.queue_step()]. *)
Definition queue_step : M Event :=
  fun b w =>
    match queue b with
    | [] => (b, w, Raise IndexError)
    | search_point :: rest =>
        let b := with_queue b rest in
        let '(b, w, o) :=
          BFS_step (teleport_action (start_position search_point)) false b w in
        match o with
        | Raise e => (b, w, Raise e)
        | Return event =>
            if negb (lastActionSuccess (metadata event))
            then (b, w, Raise (AssertionError []))
            else
              let '(b, w, o) :=
                BFS_step (move_action (move_vector search_point) (grid_size b))
                         false b w in
              match o with
              | Raise e => (b, w, Raise e)
              | Return event =>
                  if lastActionSuccess (metadata event) then
                    let position := agent_position (agent (metadata event)) in
                    if Qltb (13 # 10) (pos_y position)
                    then (b, w, Raise (PyException "**** got big point "))
                    else
                      let b := enqueue_points b position in
                      let b := with_grid_points b (grid_points b ++ [position]) in
                      (b, w, Return event)
                  else (b, w, Return event)
              end
        end
    end.

(** [while self.queue: self.queue_step()]; [None] when the fuel ends
    first. *)
Fixpoint queue_loop (fuel : nat) (b : BFSController) (w : World)
  : option (BFSController * World * Outcome unit) :=
  match queue b with
  | [] => Some (b, w, Return tt)
  | _ :: _ =>
      match fuel with
      | O => None
      | S fuel' =>
          let '(b', w', o) := queue_step b w in
          match o with
          | Raise e => Some (b', w', Raise e)
          | Return _ => queue_loop fuel' b' w'
          end
      end
  end.

Definition clear_search (b : BFSController) : BFSController :=
  with_grid_points (with_seen_points (with_queue b []) []) [].

(** [BFSController.search_all_closed(scene_name)]. *)
Definition search_all_closed (fuel : nat) (scene_name : string)
    (b : BFSController) (w : World)
  : option (BFSController * World * Outcome unit) :=
  let b := with_allow_enqueue b true in
  let b := clear_search b in
  let '(b, w, o) := BFS_reset scene_name b w in
  match o with
  | Raise e => Some (b, w, Raise e)
  | Return _ =>
      let '(b, w, o) :=
        BFS_step (mkAction "Initialize" [("gridSize"%string, VNum (25 # 100))])
                 false b w in
      match o with
      | Raise e => Some (b, w, Raise e)
      | Return event =>
          let b := enqueue_points b (agent_position (agent (metadata event))) in
          queue_loop fuel b w
      end
  end.

(** The first lines of [start_search]: the frontier is filled from
    [full_grid] and then closed. *)
Definition start_search_seed (b : BFSController) (full_grid : list Position)
  : BFSController :=
  let b := clear_search b in
  let b := with_allow_enqueue b true in
  let b := fold_left enqueue_points full_grid b in
  with_allow_enqueue b false.

(** [random_initialize(random_seed, unique_object_types=True, ...)]: the
    object lists of its action are left out. *)
Definition random_initialize (random_seed : Q) : M Event :=
  BFS_step (mkAction "RandomInitialize"
              [("randomizeOpen"%string, VBool false);
               ("uniquePickupableObjectTypes"%string, VBool true);
               ("randomSeed"%string, VNum random_seed)])
           false.

(** The [OpenObject] steps of [initialize_scene]. *)
Fixpoint open_receptacles (roids : list string) : M unit :=
  fun b w =>
    match roids with
    | [] => (b, w, Return tt)
    | roid :: rest =>
        let '(b, w, o) :=
          BFS_step (mkAction "OpenObject"
                      [("objectId"%string, VStr roid);
                       ("forceVisible"%string, VBool true)])
                   true b w in
        match o with
        | Raise e => (b, w, Raise e)
        | Return _ => open_receptacles rest b w
        end
    end.

Definition initialize_scene : M unit :=
  fun b w =>
    match last_event (base b) with
    | None => (b, w, Raise AttributeError)
    | Some ev => open_receptacles (receptacles_to_open ev) b w
    end.

(** [BFSController.start_search(scene_name, random_seed, full_grid,
    current_receptacle_object_pairs, randomize)].  With [allow_enqueue]
    off the queue only shrinks, so its length bounds the loop. *)
Definition start_search (scene_name : string) (random_seed : Q)
    (full_grid : list Position) (randomize : bool)
    (b : BFSController) (w : World)
  : option (BFSController * World * Outcome unit) :=
  let b := start_search_seed b full_grid in
  let '(b, w, o) := BFS_reset scene_name b w in
  match o with
  | Raise e => Some (b, w, Raise e)
  | Return _ =>
      let '(b, w, o) :=
        if randomize then random_initialize random_seed b w
        else (b, w, o) in
      match o with
      | Raise e => Some (b, w, Raise e)
      | Return _ =>
          let '(b, w, o) := initialize_scene b w in
          match o with
          | Raise e => Some (b, w, Raise e)
          | Return _ =>
              match queue_loop (length (queue b)) b w with
              | None => None
              | Some (b, w, Raise e) => Some (b, w, Raise e)
              | Some (b, w, Return _) => Some (prune_points b, w, Return tt)
              end
          end
      end
  end.

End Explore.

Arguments queue_step {World} serve {cls} b w.
Arguments queue_loop {World} serve {cls} fuel b w.
Arguments search_all_closed {World} serve {cls} fuel scene_name b w.
Arguments start_search {World} serve {cls} receptacles_to_open scene_name random_seed
  full_grid randomize b w.
Arguments BFS_step {World} serve {cls} action raise_for_failure b w.
Arguments BFS_reset {World} serve scene_name b w.
(** ** Scene objects

    The entries of an object of [metadata['objects']] that
    [random_initialize] and [initialize_scene] read.  The object list of
    [self.last_event] is passed to the functions below as an argument. *)

Record SimObject : Type := mkSimObject
  { objectId : string;
    objectType : string;
    receptacle : bool;
    openable : bool;
    position : Position;
    receptacleObjectIds : list string }.

Definition str_in (s : string) (l : list string) : bool :=
  existsb (String.eqb s) l.

(** The loop of [random_initialize] that fills [exclude_object_ids].
    [pivot_points] is [self.receptacle_nearest_pivot_points], a dict of
    dicts, of which the keys are kept; a dict or a key view counts as true
    when it is not empty. *)
Definition exclude_object_ids (pivot_points : list (string * list string))
    (objects : list SimObject) : Outcome (list string) :=
  fold_left
    (fun acc obj =>
       exclude_object_ids <- acc ;;
       has_pivots <-
         (match pivot_points with
          | [] => Return false
          | _ :: _ =>
              if receptacle obj then
                keys <- lookup_or_KeyError
                          (dict_get String.eqb pivot_points (objectId obj)) ;;
                Return (match keys with [] => false | _ :: _ => true end)
              else Return false
          end) ;;
       if has_pivots || str_in (objectType obj) ["Pot"; "Pan"]%string
       then Return (exclude_object_ids ++ [objectId obj])
       else Return exclude_object_ids)
    objects (Return []).

(** ** initialize_scene: the receptacles to open *)

(** [math.sqrt(d) > c]. *)
Definition sqrt_gtb (d c : Q) : bool := Qltb c 0 || Qltb (c * c) d.

(** The first pair of loops: [self.object_receptacle], which maps the id
    of each contained object to the receptacle that lists it (the last one,
    when several do). *)
Definition object_receptacle_of (objects : list SimObject)
  : list (string * SimObject) :=
  fold_left
    (fun d obj =>
       fold_left (fun d oid => dict_set String.eqb d oid obj)
                 (receptacleObjectIds obj) d)
    (filter receptacle objects) [].

(** The test of the second pair of loops. *)
Definition opens (object_receptacle : list (string * SimObject))
    (obj : SimObject) : bool :=
  openable obj
  || match dict_get String.eqb object_receptacle (objectId obj) with
     | Some container => openable container
     | None => false
     end.

(** The second pair of loops: [open_pickupable], which maps the id of each
    object inside something that opens to the id of its receptacle. *)
Definition open_pickupable_of (objects : list SimObject)
    (object_receptacle : list (string * SimObject)) : list (string * string) :=
  fold_left
    (fun d obj =>
       fold_left
         (fun d oid =>
            if opens object_receptacle obj
            then dict_set String.eqb d oid (objectId obj)
            else d)
         (receptacleObjectIds obj) d)
    (filter receptacle objects) [].

(** The distance test of the loop over [shuffled_keys]; it reads [x] and
    [y] of the two positions. *)
Definition far_receptacles (position_target position_candidate : Position) : bool :=
  sqrt_gtb ((pos_x position_target - pos_x position_candidate)
            * (pos_x position_target - pos_x position_candidate)
            + (pos_y position_target - pos_y position_candidate)
              * (pos_y position_target - pos_y position_candidate))
           (125 # 100).

(** [for oid in shuffled_keys: ...; break]: the id appended, if any. *)
Fixpoint second_target (object_receptacle : list (string * SimObject))
    (target : string) (shuffled_keys : list string) : Outcome (option string) :=
  match shuffled_keys with
  | [] => Return None
  | oid :: rest =>
      t <- lookup_or_KeyError (dict_get String.eqb object_receptacle target) ;;
      c <- lookup_or_KeyError (dict_get String.eqb object_receptacle oid) ;;
      if far_receptacles (position t) (position c)
      then Return (Some oid)
      else second_target object_receptacle target rest
  end.

(** [set(...)] as a list without repetition, in the order of first
    occurrence (a Python set has no order of its own). *)
Fixpoint py_set (l : list string) : list string :=
  match l with
  | [] => []
  | x :: l' => x :: filter (fun y => negb (String.eqb x y)) (py_set l')
  end.

Fixpoint lookup_all {A : Type} (d : list (string * A)) (keys : list string)
  : Outcome (list A) :=
  match keys with
  | [] => Return []
  | k :: keys' =>
      v <- lookup_or_KeyError (dict_get String.eqb d k) ;;
      vs <- lookup_all d keys' ;;
      Return (v :: vs)
  end.

(** The receptacles that [initialize_scene] opens, for the object list of
    [self.last_event].  [sample] stands for [random.sample(.., k=1)[0]]
    and [shuffle] for [random.shuffle]. *)
Definition receptacles_to_open_of (sample : list string -> string)
    (shuffle : list string -> list string) (objects : list SimObject)
  : Outcome (list string) :=
  let object_receptacle := object_receptacle_of objects in
  let open_pickupable := open_pickupable_of objects object_receptacle in
  target_objects <-
    (match map fst open_pickupable with
     | [] => Return []
     | keys =>
         let first := sample keys in
         second <- second_target object_receptacle first (shuffle keys) ;;
         Return (first :: match second with Some oid => [oid] | None => [] end)
     end) ;;
  roids <- lookup_all open_pickupable target_objects ;;
  Return (py_set roids).

(** ** visualize_points: the circles *)










(** * Reference notions used in the statements *)

(** ** Executing planned actions

    What an action name does to a heading or a camera tilt: [RotateRight]
    and [RotateLeft] turn by 90 degrees on the compass [0, 360);
    [LookDown] and [LookUp] move one entry along the tilts 330, 0, 30, 60. *)

Definition turn_right (h : Q) : Q :=
  if Qle_bool 360 (h + 90) then h + 90 - 360 else h + 90.

Definition turn_left (h : Q) : Q :=
  if Qltb (h - 90) 0 then h - 90 + 360 else h - 90.

Definition run_rotation (h : Q) (a : Action) : Q :=
  if String.eqb (action_name a) "RotateRight" then turn_right h
  else if String.eqb (action_name a) "RotateLeft" then turn_left h
  else h.

(** The number of quarter turns by [turn] that lead from [a] to [t]; four
    when none of 0..3 does. *)
Definition quarter_turns (turn : Q -> Q) (a t : Q) : nat :=
  if Qeq_bool a t then 0%nat
  else if Qeq_bool (turn a) t then 1%nat
  else if Qeq_bool (turn (turn a)) t then 2%nat
  else if Qeq_bool (turn (turn (turn a))) t then 3%nat
  else 4%nat.

(** ** Scenarios *)

(** An engine that refuses every action with the message ["blocked"]. *)
Definition origin : Position := mkPos 0 0 0.

Definition blocked_event : Event :=
  {| metadata :=
       {| lastActionSuccess := false;
          errorMessage := "blocked";
          agent := mkAgent origin 0 0 |};
     image := None |}.

Definition serve_blocked (w : unit) (_ : Action) : unit * Event :=
  (w, blocked_event).

(** A subclass whose pre-flight check rejects every action. *)
Definition Rejecting_class : ControllerClass :=
  {| _check_action := fun _ => false |}.

Definition ok_event : Event :=
  {| metadata :=
       {| lastActionSuccess := true;
          errorMessage := "";
          agent := mkAgent origin 0 0 |};
     image := None |}.

Definition started_controller : Controller :=
  {| request_queue := None; response_queue := None; last_event := Some ok_event |}.

(** ** Grids *)

(** The four places one grid step from [p], along +x, -x, +z and -z. *)
Definition cardinal_targets (g : Q) (p : Position) : list XZ :=
  [ mkXZ (pos_x p + g) (pos_z p); mkXZ (pos_x p - g) (pos_z p);
    mkXZ (pos_x p) (pos_z p + g); mkXZ (pos_x p) (pos_z p - g) ].



(** [p] lies on the axis-aligned lattice of step [g] through [(x0, z0)]. *)
Definition on_lattice (g x0 z0 : Q) (p : XZ) : Prop :=
  exists i j : Z,
    xz_x p == x0 + inject_Z i * g /\ xz_z p == z0 + inject_Z j * g.

Definition grid_of (gps : list Position) : BFSController :=
  with_grid_points BFSController_init gps.

Definition grid_pair_and_stray : list Position :=
  [origin; mkPos (1 # 4) 0 0; mkPos 1 0 1].

(** ** Connectivity *)

Section Reach.

Variable link : Position -> Position -> Prop.
Variable gps : list Position.

(** [reach p q]: a chain of links leads from [p] to [q] through grid
    points. *)
Inductive reach (p : Position) : Position -> Prop :=
| reach_refl : reach p p
| reach_step (q r : Position) : reach p q -> In r gps -> link q r -> reach p r.

Definition connected : Prop :=
  forall p q, In p gps -> In q gps -> reach p q.

End Reach.

(** The adjacency that [has_islands] tests: [q] lies less than 0.05 from
    the place one step from [p] along +x, -x, +z or -z. *)
Definition island_link (mag : Q) (p q : Position) : Prop :=
  exists t, In t (cardinal_targets mag p)
            /\ distance_sq t (xz_of q) < (5 # 100) * (5 # 100).

(** The distance between [p] and [q] is [g] within [eps]:
    [g - eps <= sqrt (distance_sq p q) <= g + eps]. *)
Definition at_distance (g eps : Q) (p q : Position) : Prop :=
  distance_sq (xz_of p) (xz_of q) <= (g + eps) * (g + eps)
  /\ (g - eps <= 0 \/ (g - eps) * (g - eps) <= distance_sq (xz_of p) (xz_of q)).

(** Two grid points a quarter apart, off the axes (a 3-4-5 triangle). *)
Definition grid_345 : list Position := [origin; mkPos (15 # 100) 0 (20 # 100)].

(** ** Engines for the scenarios *)

Definition param_num (name : string) (a : Action) : Q :=
  match dict_get String.eqb (action_params a) name with
  | Some (VNum q) => q
  | _ => 0
  end.

Definition event_at (ok : bool) (p : Position) : Event :=
  {| metadata :=
       {| lastActionSuccess := ok; errorMessage := ""; agent := mkAgent p 0 0 |};
     image := None |}.

(** An engine whose state is the agent's position: [Teleport] puts the
    agent where it is told, [Move] shifts it by the vector of the action
    when the place reached is inside the room and fails otherwise, and every
    other action succeeds and changes nothing. *)
Definition serve_room (inside : Position -> bool) (w : Position) (a : Action)
  : Position * Event :=
  if String.eqb (action_name a) "Teleport" then
    let p := mkPos (param_num "x" a) (param_num "y" a) (param_num "z" a) in
    (p, event_at true p)
  else if String.eqb (action_name a) "Move" then
    let p := mkPos (pos_x w + param_num "x" a) (pos_y w) (pos_z w + param_num "z" a) in
    if inside p then (p, event_at true p) else (w, event_at false w)
  else (w, event_at true w).

Definition serve_plane : Position -> Action -> Position * Event :=
  serve_room (fun _ => true).

(** A [BFSController] whose server has started. *)
Definition bfs_started : BFSController :=
  with_base BFSController_init started_controller.

Definition no_receptacles (_ : Event) : list string := [].

(** A seed grid made of two lattices of step 0.25, 0.12 apart. *)
Definition grid_two_lattices : list Position :=
  [origin; mkPos (25 # 100) 0 0; mkPos (12 # 100) 0 0; mkPos (37 # 100) 0 0].

(** ** Spacing of grid points *)



(** The contract of the engine that the search relies on: after a
    successful Teleport to [start], a successful Move by [mv] puts the agent
    at [start + mv] in the x-z plane. *)
Definition lands_on_target {World : Type}
    (serve : World -> Action -> World * Event) : Prop :=
  forall (w w1 w2 : World) (start : Position) (mv : XZ) (g : Q) (ev1 ev2 : Event),
    serve w (teleport_action start) = (w1, ev1) ->
    lastActionSuccess (metadata ev1) = true ->
    serve w1 (move_action mv g) = (w2, ev2) ->
    lastActionSuccess (metadata ev2) = true ->
    xz_of (agent_position (agent (metadata ev2)))
      = mkXZ (pos_x start + xz_x mv) (pos_z start + xz_z mv).

(** The room of half-width 0.5 around the origin. *)
Definition inside_room (p : Position) : bool :=
  Qle_bool (Qabs (pos_x p)) (1 # 2) && Qle_bool (Qabs (pos_z p)) (1 # 2).

(** ** Walks in the reachability graph *)

Definition nbrs (g : Graph) (u : Key) : list Key :=
  match neighbors g u with
  | Some ns => ns
  | None => []
  end.

(** [walk g u v]: [v] can be reached from [u] along edges of [g]. *)
Inductive walk (g : Graph) (u : Key) : Key -> Prop :=
| walk_here : walk g u u
| walk_on (v n : Key) : walk g u v -> In n (nbrs g v) -> walk g u n.

(** Any node can be reached from any node. *)
Definition graph_connected (g : Graph) : Prop :=
  forall u v, has_node g u = true -> has_node g v = true -> walk g u v.

(** [chain g u l]: [l] lists the nodes that follow [u] on a path of [g]. *)
Fixpoint chain (g : Graph) (u : Key) (l : list Key) : Prop :=
  match l with
  | [] => True
  | v :: l' => In v (nbrs g u) /\ chain g v l'
  end.

(** ** Executing a plan *)

(** The part of the agent's state that a plan changes. *)
Record Pose : Type := mkPose
  { pose_xz : XZ; pose_rotation : Q; pose_horizon : Q }.

Definition pose_of (a : Agent) : Pose :=
  mkPose (xz_of (agent_position a)) (agent_rotation_y a) (agent_cameraHorizon a).

(** The unit step of a compass heading: 0 is +z, 90 is +x. *)
Definition compass (h : Z) : Z * Z :=
  if (h =? 0)%Z then (0, 1)%Z
  else if (h =? 90)%Z then (1, 0)%Z
  else if (h =? 180)%Z then (0, -1)%Z
  else if (h =? 270)%Z then (-1, 0)%Z
  else (0, 0)%Z.

(** The angle between the heading and the direction of a translation. *)
Definition move_angle (name : string) : option Z :=
  if String.eqb name "MoveAhead" then Some 0%Z
  else if String.eqb name "MoveRight" then Some 90%Z
  else if String.eqb name "MoveBack" then Some 180%Z
  else if String.eqb name "MoveLeft" then Some 270%Z
  else None.

Definition is_move (a : Action) : bool :=
  match move_angle (action_name a) with Some _ => true | None => false end.

(** One entry down or up the tilts 330, 0, 30, 60. *)
Definition look_down (h : Q) : option Q :=
  if Qeq_bool h 330 then Some 0
  else if Qeq_bool h 0 then Some 30
  else if Qeq_bool h 30 then Some 60
  else None.

Definition look_up (h : Q) : option Q :=
  if Qeq_bool h 60 then Some 30
  else if Qeq_bool h 30 then Some 0
  else if Qeq_bool h 0 then Some 330
  else None.

(** One action of a plan: a translation moves the agent one grid step [g]
    in the direction that the heading gives it; a rotation turns the heading
    by 90 degrees; a look moves the tilt by one entry.  [None] when the
    action cannot be carried out. *)
Definition run_action (g : Q) (s : Pose) (a : Action) : option Pose :=
  match move_angle (action_name a) with
  | Some t =>
      let d := compass ((round_half_even (pose_rotation s) + t) mod 360) in
      Some (mkPose (mkXZ (xz_x (pose_xz s) + g * inject_Z (fst d))
                         (xz_z (pose_xz s) + g * inject_Z (snd d)))
                   (pose_rotation s) (pose_horizon s))
  | None =>
      if String.eqb (action_name a) "RotateRight" then
        Some (mkPose (pose_xz s) (turn_right (pose_rotation s)) (pose_horizon s))
      else if String.eqb (action_name a) "RotateLeft" then
        Some (mkPose (pose_xz s) (turn_left (pose_rotation s)) (pose_horizon s))
      else if String.eqb (action_name a) "LookDown" then
        option_map (mkPose (pose_xz s) (pose_rotation s)) (look_down (pose_horizon s))
      else if String.eqb (action_name a) "LookUp" then
        option_map (mkPose (pose_xz s) (pose_rotation s)) (look_up (pose_horizon s))
      else None
  end.

Fixpoint run_actions (g : Q) (s : Pose) (l : list Action) : option Pose :=
  match l with
  | [] => Some s
  | a :: l' =>
      match run_action g s a with
      | Some s' => run_actions g s' l'
      | None => None
      end
  end.

Definition xz_eq (p q : XZ) : Prop := xz_x p == xz_x q /\ xz_z p == xz_z q.

(** The headings and tilts of a pose. *)
Definition headings : list Q := [0; 90; 180; 270].
Definition tilts : list Q := [330; 0; 30; 60].

(** The test of [_build_graph_point]. *)
Definition one_step_apart (b : BFSController) (point p : Position) : bool :=
  let d := distance_sq (xz_of point) (xz_of p) in
  sqrt_leb d (grid_size b + (1 # 100)) && sqrt_posb d.

(** The dict [all_points] of [shortest_plan]. *)
Definition all_points_of (b : BFSController) : list (Key * Position) :=
  fold_left (fun d point => dict_set Key_eqb d (BFS_key_for_point point) point)
            (grid_points b) [].

(** A unit step along one axis. *)
Definition unit_vec (a c : Z) : Prop :=
  (a = 1 /\ c = 0)%Z \/ (a = -1 /\ c = 0)%Z
  \/ (a = 0 /\ c = 1)%Z \/ (a = 0 /\ c = -1)%Z.

(** An L-shaped grid of three points, and two poses on it. *)
Definition grid_L : list Position :=
  [origin; mkPos (1 # 4) 0 0; mkPos (1 # 4) 0 (1 # 4)].
Definition agent_start : Agent := mkAgent origin 90 0.
Definition agent_goal : Agent := mkAgent (mkPos (1 # 4) 0 (1 # 4)) 270 30.

(** The two ends of [grid_345]. *)
Definition agent_345_start : Agent := mkAgent origin 0 0.
Definition agent_345_goal : Agent := mkAgent (mkPos (15 # 100) 0 (20 # 100)) 0 0.
(** * Reference notions for the further properties *)

(** ** The traffic to the engine *)

(** An engine that also keeps the list of the actions it was handed. *)
Definition serve_log {World : Type} (serve : World -> Action -> World * Event)
    (wl : World * list Action) (a : Action) : (World * list Action) * Event :=
  let '(w', ev) := serve (fst wl) a in ((w', snd wl ++ [a]), ev).

Definition is_numpy (v : Value) : bool :=
  match v with VNumpy _ => true | _ => false end.

(** ** Planning *)

(** No grid point with the key [k] has a grid point more than zero and at
    most [grid_size + 0.01] away. *)
Definition lonely (b : BFSController) (k : Key) : Prop :=
  forall p q, In p (grid_points b) -> In q (grid_points b) ->
              BFS_key_for_point p = k -> one_step_apart b p q = false.

(** The camera tilts that [plan_horizons] knows. *)
Definition known_horizons : list Z := [330; 0; 30; 60]%Z.


(** The names of the four translations. *)
Definition move_names : list string :=
  ["MoveAhead"; "MoveRight"; "MoveBack"; "MoveLeft"]%string.

(** ** The frontier *)

(** Some seen point lies less than a fifth of a step from [t]. *)
Definition covered (b : BFSController) (t : XZ) : bool :=
  existsb (fun p => sqrt_ltb (distance_sq p t) (grid_size b / 5)) (seen_points b).

(** The controller with [sp] queued and its target seen. *)
Definition appended (b : BFSController) (sp : BFSSearchPoint) : BFSController :=
  with_queue (with_seen_points b (seen_points b ++ [target_point sp]))
             (queue b ++ [sp]).

(** The four candidates around a position, in the order of
    [enqueue_points]: -x, +x, -z, +z. *)
Definition four_points (pos : Position) (g : Q) : list BFSSearchPoint :=
  [ new_search_point pos (-1 * g) 0; new_search_point pos g 0;
    new_search_point pos 0 (-1 * g); new_search_point pos 0 (1 * g) ].

(** The number of squares of side [g] along one side of the square of
    half-width [R] widened by a step, and the number of queue steps that the
    search of such a room can take. *)
Definition side (R g : Q) : nat := S (Z.to_nat (Qfloor ((2 * R + 2 * g) / g))).

Definition room_budget (R g : Q) : nat := (side R g * side R g + 4)%nat.

(** ** Scenes *)

(** [random] behaves: the sample is a member, and the shuffled list holds
    nothing new. *)
Definition fair_random (sample : list string -> string)
    (shuffle : list string -> list string) : Prop :=
  (forall l, l <> [] -> In (sample l) l) /\ (forall l, incl (shuffle l) l).

(** The choice of [initialize_scene] for the objects of the last event. *)
Definition chosen_receptacles (objects_of : Event -> list SimObject)
    (sample : list string -> string) (shuffle : list string -> list string)
    (ev : Event) : list string :=
  match receptacles_to_open_of sample shuffle (objects_of ev) with
  | Return roids => roids
  | Raise _ => []
  end.

(** A scene for the examples: a fridge that opens and holds an apple and
    an egg, a cabinet that opens, two units away, and holds a mug, a table
    that holds a plate, and a pan. *)
Definition kitchen : list SimObject :=
  [ mkSimObject "Fridge|1" "Fridge" true true (mkPos 0 0 0) ["Apple|1"; "Egg|1"];
    mkSimObject "Cabinet|1" "Cabinet" true true (mkPos 2 0 0) ["Mug|1"];
    mkSimObject "TableTop|1" "TableTop" true false (mkPos 1 0 0) ["Plate|1"];
    mkSimObject "Pan|1" "Pan" true false (mkPos 1 1 0) [] ]%string.

(** A [random] that takes the first key and leaves the order alone. *)
Definition first_of (l : list string) : string := hd EmptyString l.
Definition as_it_is (l : list string) : list string := l.

(** ** The places of a room *)

(** The four places one step of [g] from a place, in the order of
    [enqueue_points]: -x, +x, -z, +z. *)
Definition steps_from (g : Q) (t : XZ) : list XZ :=
  [ mkXZ (xz_x t + -1 * g) (xz_z t + 0); mkXZ (xz_x t + g) (xz_z t + 0);
    mkXZ (xz_x t + 0) (xz_z t + -1 * g); mkXZ (xz_x t + 0) (xz_z t + 1 * g) ].

(** The places that steps of [g] reach from [start] without leaving the
    room: every place stepped on is inside. *)
Inductive walkable (inside : XZ -> bool) (g : Q) (start : XZ) : XZ -> Prop :=
| walkable_first (t : XZ) :
    In t (steps_from g start) -> inside t = true -> walkable inside g start t
| walkable_next (s t : XZ) :
    walkable inside g start s -> In t (steps_from g s) -> inside t = true ->
    walkable inside g start t.

(** The engine of a room: after a successful Teleport to [start], a Move
    by [mv] succeeds exactly when [start + mv] is inside. *)
Definition room_decides {World : Type}
    (serve : World -> Action -> World * Event) (inside : XZ -> bool) : Prop :=
  forall (w w1 w2 : World) (start : Position) (mv : XZ) (m : Q) (ev1 ev2 : Event),
    serve w (teleport_action start) = (w1, ev1) ->
    lastActionSuccess (metadata ev1) = true ->
    serve w1 (move_action mv m) = (w2, ev2) ->
    lastActionSuccess (metadata ev2)
      = inside (mkXZ (pos_x start + xz_x mv) (pos_z start + xz_z mv)).

(** The room of half-width 0.5 around the origin, as a set of places. *)
Definition inside_room_xz (t : XZ) : bool :=
  inside_room (mkPos (xz_x t) 0 (xz_z t)).

(** Neither queue of the controller holds an item. *)
Definition queues_empty (b : BFSController) : Prop :=
  request_queue (base b) = None /\ response_queue (base b) = None.

(** * Facts about the number helpers *)

Lemma Fixed_eqb_eq (a b : Fixed) : Fixed_eqb a b = true <-> a = b.
Proof.
  destruct a as [n d], b as [n' d']; unfold Fixed_eqb; simpl.
  rewrite andb_true_iff, Bool.eqb_true_iff, Z.eqb_eq.
  split; [intros [-> ->]; reflexivity | intros H; inversion H; auto].
Qed.

Lemma Key_eqb_eq (a b : Key) : Key_eqb a b = true <-> a = b.
Proof.
  destruct a as [a1 a2], b as [b1 b2]; unfold Key_eqb; simpl.
  rewrite andb_true_iff, !Fixed_eqb_eq.
  split; [intros [-> ->]; reflexivity | intros H; inversion H; auto].
Qed.

Lemma Key_eqb_refl (a : Key) : Key_eqb a a = true.
Proof. apply Key_eqb_eq; reflexivity. Qed.

Lemma Key_eqb_neq (a b : Key) : Key_eqb a b = false <-> a <> b.
Proof.
  rewrite <- Key_eqb_eq. destruct (Key_eqb a b); split; intros; congruence.
Qed.

Lemma Qltb_lt (a b : Q) : Qltb a b = true <-> a < b.
Proof.
  unfold Qltb. rewrite negb_true_iff.
  destruct (Qle_bool b a) eqn:E.
  - apply Qle_bool_iff in E. split; [discriminate | intros H; exfalso; lra].
  - split; [intros _ | reflexivity].
    destruct (Qlt_le_dec a b) as [H | H]; [exact H |].
    apply Qle_bool_iff in H. congruence.
Qed.

Lemma Qltb_ge (a b : Q) : Qltb a b = false <-> b <= a.
Proof.
  unfold Qltb. rewrite negb_false_iff. apply Qle_bool_iff.
Qed.

#[export] Instance Qltb_proper : Proper (Qeq ==> Qeq ==> eq) Qltb.
Proof. intros a a' Ha b b' Hb. unfold Qltb. now rewrite Ha, Hb. Qed.

#[export] Instance round_half_even_proper : Proper (Qeq ==> eq) round_half_even.
Proof.
  intros q q' H. unfold round_half_even.
  rewrite (Qfloor_comp _ _ H).
  assert (Hc : Qcompare (q - inject_Z (Qfloor q')) (1 # 2)
               = Qcompare (q' - inject_Z (Qfloor q')) (1 # 2)).
  { apply Qcompare_comp; [rewrite H; reflexivity | reflexivity]. }
  rewrite Hc. reflexivity.
Qed.

Lemma round_half_even_bound (q : Q) :
  q - (1 # 2) <= inject_Z (round_half_even q)
  /\ inject_Z (round_half_even q) <= q + (1 # 2).
Proof.
  unfold round_half_even.
  pose proof (Qfloor_le q) as Hlo.
  pose proof (Qlt_floor q) as Hhi.
  rewrite inject_Z_plus in Hhi. change (inject_Z 1) with 1 in Hhi.
  set (f := Qfloor q) in *.
  destruct (Qcompare (q - inject_Z f) (1 # 2)) eqn:E.
  - rewrite <- Qeq_alt in E.
    destruct (Z.even f);
      [| rewrite inject_Z_plus; change (inject_Z 1) with 1]; split; lra.
  - rewrite <- Qlt_alt in E. split; lra.
  - rewrite <- Qgt_alt in E. rewrite inject_Z_plus. change (inject_Z 1) with 1.
    split; lra.
Qed.

Lemma round_half_even_Z (n : Z) : round_half_even (inject_Z n) = n.
Proof.
  unfold round_half_even. rewrite Qfloor_Z.
  assert (E : Qcompare (inject_Z n - inject_Z n) (1 # 2) = Lt).
  { rewrite <- Qlt_alt. lra. }
  rewrite E. reflexivity.
Qed.

Lemma inject_Z_lt_1 (n m : Z) :
  inject_Z n - inject_Z m < 1 -> inject_Z m - inject_Z n < 1 -> n = m.
Proof.
  intros H1 H2.
  assert (Hn : inject_Z n < inject_Z (m + 1))
    by (rewrite inject_Z_plus; change (inject_Z 1) with 1; lra).
  assert (Hm : inject_Z m < inject_Z (n + 1))
    by (rewrite inject_Z_plus; change (inject_Z 1) with 1; lra).
  rewrite <- Zlt_Qlt in Hn, Hm. lia.
Qed.

#[export] Instance format_fixed_proper (k : nat) : Proper (Qeq ==> eq) (format_fixed k).
Proof.
  intros v v' H. unfold format_fixed. f_equal.
  - now rewrite H.
  - apply round_half_even_proper. now rewrite H.
Qed.

(** Two numbers with the same text to [k] decimals differ by one unit of
    the last decimal at most. *)
Lemma format_fixed_close (k : nat) (v v' : Q) :
  format_fixed k v = format_fixed k v' ->
  Qabs (v - v') * inject_Z (10 ^ Z.of_nat k) <= 1.
Proof.
  unfold format_fixed. intros H. injection H as Hneg Hdig.
  set (s := inject_Z (10 ^ Z.of_nat k)) in *.
  pose proof (round_half_even_bound (Qabs v * s)) as [A1 A2].
  pose proof (round_half_even_bound (Qabs v' * s)) as [B1 B2].
  rewrite Hdig in A1, A2.
  set (r := inject_Z (round_half_even (Qabs v' * s))) in *.
  clearbody r. clear Hdig.
  destruct (Qltb v 0) eqn:Ev; symmetry in Hneg.
  - apply Qltb_lt in Ev, Hneg.
    rewrite (Qabs_neg v) in A1, A2 by lra.
    rewrite (Qabs_neg v') in B1, B2 by lra.
    apply Qabs_case; intros; lra.
  - apply Qltb_ge in Ev, Hneg.
    rewrite (Qabs_pos v) in A1, A2 by lra.
    rewrite (Qabs_pos v') in B1, B2 by lra.
    apply Qabs_case; intros; lra.
Qed.


Lemma format_fixed_3_close (v v' : Q) :
  format_fixed 3 v = format_fixed 3 v' -> Qabs (v - v') <= 1 # 1000.
Proof.
  intros H. apply format_fixed_close in H.
  change (inject_Z (10 ^ Z.of_nat 3)) with 1000 in H. lra.
Qed.

(** A multiple of a step [g] that is smaller than [g] in size is zero. *)
Lemma small_multiple_zero (g d : Q) (k : Z) :
  0 < g -> d == inject_Z k * g -> Qabs d < g -> k = 0%Z.
Proof.
  intros Hg Hd Habs.
  assert (Hlt : - g < d /\ d < g).
  { revert Habs. apply Qabs_case; intros; lra. }
  destruct Hlt as [H1 H2]. rewrite Hd in H1, H2.
  assert (K1 : inject_Z k < 1).
  { apply (Qmult_lt_r _ _ g Hg). lra. }
  assert (K2 : -(1) < inject_Z k).
  { apply (Qmult_lt_r _ _ g Hg). lra. }
  apply (inject_Z_lt_1 k 0); change (inject_Z 0) with 0; lra.
Qed.

Lemma inject_Z_minus (a b : Z) : inject_Z (a - b) == inject_Z a - inject_Z b.
Proof.
  unfold Z.sub. rewrite inject_Z_plus, inject_Z_opp. ring.
Qed.

Lemma Qsquare_nonneg (a : Q) : 0 <= a * a.
Proof.
  destruct (Qlt_le_dec a 0).
  - setoid_replace (a * a) with ((- a) * (- a)) by ring.
    apply Qmult_le_0_compat; lra.
  - apply Qmult_le_0_compat; lra.
Qed.

Lemma sqrt_ltb_spec (d c : Q) : sqrt_ltb d c = true <-> 0 < c /\ d < c * c.
Proof. unfold sqrt_ltb. now rewrite andb_true_iff, !Qltb_lt. Qed.

Lemma sqrt_leb_spec (d c : Q) : sqrt_leb d c = true <-> 0 <= c /\ d <= c * c.
Proof. unfold sqrt_leb. now rewrite andb_true_iff, !Qle_bool_iff. Qed.

Lemma distance_sq_nonneg (p q : XZ) : 0 <= distance_sq p q.
Proof.
  unfold distance_sq.
  pose proof (Qsquare_nonneg (xz_x p - xz_x q)).
  pose proof (Qsquare_nonneg (xz_z p - xz_z q)). lra.
Qed.

Lemma distance_sq_sym (p q : XZ) : distance_sq p q == distance_sq q p.
Proof. unfold distance_sq. ring. Qed.

Lemma Qsquare_le (a b : Q) : 0 <= a -> a <= b -> a * a <= b * b.
Proof.
  intros Ha Hab. apply Qmult_le_compat_nonneg; split; assumption.
Qed.

(** * Properties of [Controller.step] *)

Section StepFacts.

Variable World : Type.
Variable serve : World -> Action -> World * Event.
Context {cls : ControllerClass}.

Lemma step_accepted (c : Controller) (w w' : World) (action : Action)
    (ev : Event) (raise_for_failure : bool) :
  _check_action action = true ->
  request_queue c = None ->
  response_queue c = None ->
  serve w (action_filtered action) = (w', ev) ->
  step serve c w action raise_for_failure =
    (set_last_event c ev, w',
     if raise_for_failure && negb (lastActionSuccess (metadata ev))
     then Raise (AssertionError []) else Return ev).
Proof.
  intros Hchk Hreq Hresp Hserve. unfold step.
  rewrite Hchk, Hreq, Hresp, Hserve. simpl.
  destruct (raise_for_failure && negb (lastActionSuccess (metadata ev))); reflexivity.
Qed.

(** C1 (amended): when the engine's Event is a failure, [step] with
    [raise_for_failure] set fails with a bare assertion failure, which
    carries no message at all; without it the failed Event is returned to the
    caller and nothing is raised.  In both cases the failed Event, with the
    engine's error message in its metadata, becomes [last_event]. *)
Theorem step_failed_event (c : Controller) (w w' : World) (action : Action)
    (ev : Event) (raise_for_failure : bool) :
  _check_action action = true ->
  request_queue c = None ->
  response_queue c = None ->
  serve w (action_filtered action) = (w', ev) ->
  lastActionSuccess (metadata ev) = false ->
  step serve c w action raise_for_failure =
    (set_last_event c ev, w',
     if raise_for_failure then Raise (AssertionError []) else Return ev)
  /\ exn_args (AssertionError []) = [].
Proof.
  intros Hchk Hreq Hresp Hserve Hfail. split; [|reflexivity].
  rewrite (step_accepted c w w' action ev raise_for_failure Hchk Hreq Hresp Hserve).
  rewrite Hfail. destruct raise_for_failure; reflexivity.
Qed.

(** C2: an action that the pre-flight check rejects never reaches the far
    side: the engine state and both queues are as before, and the Event
    returned (and stored as [last_event]) has the previous Event's metadata
    with the success flag cleared, and the previous image. *)
Theorem step_rejected_action (c : Controller) (w : World) (action : Action)
    (prev : Event) (raise_for_failure : bool) :
  _check_action action = false ->
  last_event c = Some prev ->
  exists c' new_event,
    step serve c w action raise_for_failure = (c', w, Return new_event)
    /\ request_queue c' = request_queue c
    /\ response_queue c' = response_queue c
    /\ last_event c' = Some new_event
    /\ metadata new_event = set_lastActionSuccess (metadata prev) false
    /\ lastActionSuccess (metadata new_event) = false
    /\ errorMessage (metadata new_event) = errorMessage (metadata prev)
    /\ agent (metadata new_event) = agent (metadata prev)
    /\ image new_event = image prev.
Proof.
  intros Hchk Hlast. unfold step. rewrite Hchk, Hlast. simpl.
  eexists. eexists. split; [reflexivity|]. simpl. repeat split; reflexivity.
Qed.

(** C9: with [raise_for_failure] set and a failed Event from the engine, the
    call raises, and the state it leaves behind already has the failed Event
    as [last_event]. *)
Theorem step_raise_replaces_last_event (c : Controller) (w w' : World)
    (action : Action) (ev : Event) :
  _check_action action = true ->
  request_queue c = None ->
  response_queue c = None ->
  serve w (action_filtered action) = (w', ev) ->
  lastActionSuccess (metadata ev) = false ->
  exists c' e,
    step serve c w action true = (c', w', Raise e)
    /\ last_event c' = Some ev.
Proof.
  intros Hchk Hreq Hresp Hserve Hfail.
  exists (set_last_event c ev), (AssertionError []).
  rewrite (step_accepted c w w' action ev true Hchk Hreq Hresp Hserve).
  rewrite Hfail. split; reflexivity.
Qed.

End StepFacts.

(** C1 (as stated): against the engine that answers ["blocked"], the failure
    raised by [step] does not carry that message. *)
Lemma step_failure_drops_message :
  ~ exists c' w' e,
      step (cls := Controller_class) serve_blocked started_controller tt
           (act "MoveAhead") true = (c', w', Raise e)
      /\ In (errorMessage (metadata blocked_event)) (exn_args e).
Proof.
  intros (c' & w' & e & Hstep & Hin).
  vm_compute in Hstep. inversion Hstep; subst e. simpl in Hin. exact Hin.
Qed.

Lemma step_failed_event_witness :
  step (cls := Controller_class) serve_blocked started_controller tt
       (act "MoveAhead") true =
    (set_last_event started_controller blocked_event, tt, Raise (AssertionError []))
  /\ exn_args (AssertionError []) = [].
Proof.
  apply (step_failed_event unit serve_blocked (cls := Controller_class)
           started_controller tt tt (act "MoveAhead") blocked_event true);
    reflexivity.
Defined.

Lemma step_rejected_action_witness :
  exists c' new_event,
    step (cls := Rejecting_class) serve_blocked started_controller tt
         (act "MoveAhead") false = (c', tt, Return new_event)
    /\ request_queue c' = request_queue started_controller
    /\ response_queue c' = response_queue started_controller
    /\ last_event c' = Some new_event
    /\ metadata new_event = set_lastActionSuccess (metadata ok_event) false
    /\ lastActionSuccess (metadata new_event) = false
    /\ errorMessage (metadata new_event) = errorMessage (metadata ok_event)
    /\ agent (metadata new_event) = agent (metadata ok_event)
    /\ image new_event = image ok_event.
Proof.
  apply (step_rejected_action unit serve_blocked (cls := Rejecting_class)
           started_controller tt (act "MoveAhead") ok_event false);
    reflexivity.
Defined.

Lemma step_raise_replaces_last_event_witness :
  exists c' e,
    step (cls := Controller_class) serve_blocked started_controller tt
         (act "MoveAhead") true = (c', tt, Raise e)
    /\ last_event c' = Some blocked_event.
Proof.
  apply (step_raise_replaces_last_event unit serve_blocked (cls := Controller_class)
           started_controller tt tt (act "MoveAhead") blocked_event);
    reflexivity.
Defined.

(** * Properties of [plan_rotations] *)

Lemma In_rotations (h : Q) :
  In h (rotations BFSController_init) -> h = 0 \/ h = 90 \/ h = 180 \/ h = 270.
Proof.
  simpl. intros [H | [H | [H | [H | []]]]]; subst; auto.
Qed.

(** C8: for headings among 0, 90, 180 and 270, [plan_rotations] emits
    quarter turns of one kind only: clockwise ones when strictly fewer of
    them are needed, counter-clockwise ones otherwise (so also on the tie at
    180 degrees, where it emits two [RotateLeft]); it never emits more than
    two, and running the plan turns the agent's heading into the target's. *)
Theorem plan_rotations_shortest (agent_rotation target_rotation : Q) :
  In agent_rotation (rotations BFSController_init) ->
  In target_rotation (rotations BFSController_init) ->
  let plan := plan_rotations agent_rotation target_rotation in
  let right_steps := quarter_turns turn_right agent_rotation target_rotation in
  let left_steps := quarter_turns turn_left agent_rotation target_rotation in
  (if (right_steps <? left_steps)%nat
   then plan = repeat (act "RotateRight") right_steps
   else plan = repeat (act "RotateLeft") left_steps)
  /\ length plan = Nat.min right_steps left_steps
  /\ (length plan <= 2)%nat
  /\ (right_steps = left_steps -> right_steps = 2%nat ->
      plan = [act "RotateLeft"; act "RotateLeft"])
  /\ fold_left run_rotation plan agent_rotation = target_rotation.
Proof.
  intros Ha Ht.
  apply In_rotations in Ha. apply In_rotations in Ht.
  destruct Ha as [-> | [-> | [-> | ->]]];
    destruct Ht as [-> | [-> | [-> | ->]]];
    vm_compute; repeat split; try reflexivity; try lia; intros; try discriminate;
    try reflexivity.
Qed.

Lemma plan_rotations_shortest_witness :
  let plan := plan_rotations 0 180 in
  let right_steps := quarter_turns turn_right 0 180 in
  let left_steps := quarter_turns turn_left 0 180 in
  (if (right_steps <? left_steps)%nat
   then plan = repeat (act "RotateRight") right_steps
   else plan = repeat (act "RotateLeft") left_steps)
  /\ length plan = Nat.min right_steps left_steps
  /\ (length plan <= 2)%nat
  /\ (right_steps = left_steps -> right_steps = 2%nat ->
      plan = [act "RotateLeft"; act "RotateLeft"])
  /\ fold_left run_rotation plan 0 = 180.
Proof.
  apply (plan_rotations_shortest 0 180); simpl; auto.
Defined.

(** * Properties of [prune_points] *)





Lemma cardinal_targets_on_lattice (g x0 z0 : Q) (p : Position) (t : XZ) :
  on_lattice g x0 z0 (xz_of p) -> In t (cardinal_targets g p) ->
  on_lattice g x0 z0 t.
Proof.
  intros (i & j & Hx & Hz) Hin. simpl in Hx, Hz, Hin.
  destruct Hin as [<- | [<- | [<- | [<- | []]]]]; simpl.
  - exists (i + 1)%Z, j. simpl. rewrite inject_Z_plus. change (inject_Z 1) with 1. split; lra.
  - exists (i - 1)%Z, j. simpl. rewrite inject_Z_minus. change (inject_Z 1) with 1. split; lra.
  - exists i, (j + 1)%Z. simpl. rewrite inject_Z_plus. change (inject_Z 1) with 1. split; lra.
  - exists i, (j - 1)%Z. simpl. rewrite inject_Z_minus. change (inject_Z 1) with 1. split; lra.
Qed.







(** The stray point goes, the pair stays. *)
Example prune_points_pair_and_stray :
  grid_points (prune_points (grid_of grid_pair_and_stray)) =
    [origin; mkPos (1 # 4) 0 0].
Proof. reflexivity. Qed.

(** * Properties of [has_islands] *)

Lemma Q_eqb_eq (a b : Q) : Q_eqb a b = true <-> a = b.
Proof.
  destruct a as [n d], b as [n' d']. unfold Q_eqb; simpl.
  rewrite andb_true_iff, Z.eqb_eq, Pos.eqb_eq.
  split; [intros [-> ->]; reflexivity | intros H; inversion H; auto].
Qed.

Lemma Json_eqb_eq (a b : Json) : Json_eqb a b = true <-> a = b.
Proof.
  destruct a as [[ax ay] az], b as [[bx by_] bz]. unfold Json_eqb.
  rewrite !andb_true_iff, !Q_eqb_eq.
  split; [intros [[-> ->] ->]; reflexivity | intros H; inversion H; auto].
Qed.

Lemma Json_mem (j : Json) (seen : list Json) :
  existsb (Json_eqb j) seen = true <-> In j seen.
Proof.
  rewrite existsb_exists. split.
  - intros (k & Hk & E). apply Json_eqb_eq in E. now subst.
  - intros H. exists j. split; [exact H | now apply Json_eqb_eq].
Qed.

Lemma Json_mem_false (j : Json) (seen : list Json) :
  existsb (Json_eqb j) seen = false <-> ~ In j seen.
Proof.
  rewrite <- Json_mem. destruct (existsb (Json_eqb j) seen); split; congruence.
Qed.

Lemma NoDup_map_injective {A B : Type} (f : A -> B) (l : list A) (x y : A) :
  NoDup (map f l) -> In x l -> In y l -> f x = f y -> x = y.
Proof.
  induction l as [| a l IH]; simpl; intros Hnd Hx Hy E; [destruct Hx |].
  inversion Hnd as [| ? ? Hnotin Hnd']; subst.
  destruct Hx as [-> | Hx], Hy as [-> | Hy]; auto.
  - exfalso. apply Hnotin. rewrite E. now apply in_map.
  - exfalso. apply Hnotin. rewrite <- E. now apply in_map.
Qed.

Section Islands.

Variable mag : Q.
Variable gps : list Position.

(** The four entries that [enqueue_island_points] puts on the queue. *)
Definition island_targets (p : Position) : list XZ :=
  [ mkXZ (pos_x p - mag) (pos_z p); mkXZ (pos_x p + mag) (pos_z p);
    mkXZ (pos_x p) (pos_z p - mag); mkXZ (pos_x p) (pos_z p + mag) ].

Lemma island_targets_cardinal (p : Position) (t : XZ) :
  In t (island_targets p) <-> In t (cardinal_targets mag p).
Proof. unfold island_targets, cardinal_targets. simpl. tauto. Qed.

Lemma enqueue_island_points_seen (q : list XZ) (seen : list Json) (p : Position) :
  In (dumps p) seen -> enqueue_island_points mag (q, seen) p = (q, seen).
Proof.
  intros H. unfold enqueue_island_points.
  apply Json_mem in H. now rewrite H.
Qed.

Lemma enqueue_island_points_new (q : list XZ) (seen : list Json) (p : Position) :
  ~ In (dumps p) seen ->
  enqueue_island_points mag (q, seen) p = (island_targets p ++ q, dumps p :: seen).
Proof.
  intros H. unfold enqueue_island_points.
  apply Json_mem_false in H. now rewrite H.
Qed.

(** *** Termination *)

Definition unseen (seen : list Json) (p : Position) : bool :=
  negb (existsb (Json_eqb (dumps p)) seen).

(** Queue entries still to take, plus four for each grid point still to
    see. *)
Definition island_measure (st : IslandState) : nat :=
  (length (fst st) + 4 * length (filter (unseen (snd st)) gps))%nat.

Lemma unseen_cons (j : Json) (seen : list Json) (p : Position) :
  unseen (j :: seen) p = negb (Json_eqb (dumps p) j) && unseen seen p.
Proof. unfold unseen. simpl. now rewrite negb_orb. Qed.

Lemma unseen_cons_le (j : Json) (seen : list Json) (l : list Position) :
  (length (filter (unseen (j :: seen)) l) <= length (filter (unseen seen) l))%nat.
Proof.
  induction l as [| p l IH]; simpl; [lia |].
  rewrite unseen_cons.
  destruct (Json_eqb (dumps p) j); destruct (unseen seen p); simpl; lia.
Qed.

Lemma unseen_cons_lt (p : Position) (seen : list Json) (l : list Position) :
  In p l -> ~ In (dumps p) seen ->
  (S (length (filter (unseen (dumps p :: seen)) l))
   <= length (filter (unseen seen) l))%nat.
Proof.
  intros Hin Hnew. induction l as [| p' l IH]; [destruct Hin |].
  simpl. rewrite unseen_cons. destruct Hin as [-> | Hin].
  - assert (E : Json_eqb (dumps p) (dumps p) = true) by now apply Json_eqb_eq.
    rewrite E. simpl.
    assert (U : unseen seen p = true).
    { unfold unseen. apply Json_mem_false in Hnew. now rewrite Hnew. }
    rewrite U. simpl.
    pose proof (unseen_cons_le (dumps p) seen l). lia.
  - specialize (IH Hin).
    destruct (Json_eqb (dumps p') (dumps p)); destruct (unseen seen p'); simpl; lia.
Qed.

Lemma enqueue_island_points_measure (st : IslandState) (p : Position) :
  In p gps ->
  (island_measure (enqueue_island_points mag st p) <= island_measure st)%nat.
Proof.
  intros Hin. destruct st as [q seen].
  destruct (existsb (Json_eqb (dumps p)) seen) eqn:E.
  - apply Json_mem in E. rewrite enqueue_island_points_seen by exact E. lia.
  - apply Json_mem_false in E. rewrite enqueue_island_points_new by exact E.
    unfold island_measure. simpl.
    pose proof (unseen_cons_lt p seen gps Hin E). lia.
Qed.

Lemma island_visit_measure (t : XZ) (st : IslandState) (p : Position) :
  In p gps ->
  (island_measure (island_visit mag t st p) <= island_measure st)%nat.
Proof.
  intros Hin. unfold island_visit.
  destruct (sqrt_ltb (distance_sq t (xz_of p)) (5 # 100)); [| lia].
  now apply enqueue_island_points_measure.
Qed.

Lemma fold_island_visit_measure (t : XZ) (l : list Position) (st : IslandState) :
  incl l gps ->
  (island_measure (fold_left (island_visit mag t) l st) <= island_measure st)%nat.
Proof.
  revert st. induction l as [| p l IH]; intros st Hl; simpl; [lia |].
  etransitivity.
  - apply IH. intros x Hx. apply Hl. now right.
  - apply island_visit_measure. apply Hl. now left.
Qed.

Lemma has_islands_loop_terminates (fuel : nat) (st : IslandState) :
  (island_measure st <= fuel)%nat ->
  exists seen, has_islands_loop fuel mag gps st = Some seen.
Proof.
  revert st. induction fuel as [| fuel IH]; intros [q seen] Hm.
  - destruct q as [| t q]; [simpl; eauto |].
    unfold island_measure in Hm. simpl in Hm. lia.
  - destruct q as [| t q]; [simpl; eauto |].
    simpl. apply IH.
    pose proof (fold_island_visit_measure t gps (q, seen) (incl_refl gps)) as Hf.
    unfold island_measure in *. simpl in *. lia.
Qed.

(** *** The flood fill computes the points reachable from the first one *)

Variable p0 : Position.
Hypothesis p0_in : In p0 gps.
Hypothesis gps_distinct : NoDup (map dumps gps).

Definition near (t : XZ) (q : Position) : Prop :=
  sqrt_ltb (distance_sq t (xz_of q)) (5 # 100) = true.

Lemma near_link (p q : Position) (t : XZ) :
  In t (island_targets p) -> near t q -> island_link mag p q.
Proof.
  intros Ht Hn. exists t. split; [now apply island_targets_cardinal |].
  apply sqrt_ltb_spec in Hn. tauto.
Qed.

Lemma link_near (p q : Position) :
  island_link mag p q -> exists t, In t (island_targets p) /\ near t q.
Proof.
  intros (t & Ht & Hd). exists t. split; [now apply island_targets_cardinal |].
  apply sqrt_ltb_spec. split; [reflexivity | exact Hd].
Qed.

Lemma dumps_inj (p q : Position) :
  In p gps -> In q gps -> dumps p = dumps q -> p = q.
Proof.
  intros Hp Hq E. exact (NoDup_map_injective dumps gps p q gps_distinct Hp Hq E).
Qed.

Definition reached : Position -> Prop := reach (island_link mag) gps p0.

Lemma reached_in (q : Position) : reached q -> In q gps.
Proof. unfold reached. intros H. induction H; auto. Qed.

Record island_inv (st : IslandState) : Prop :=
  { inv_start : In (dumps p0) (snd st);
    inv_nodup : NoDup (snd st);
    inv_seen : forall j, In j (snd st) ->
                 exists p, In p gps /\ dumps p = j /\ reached p;
    inv_queue : forall t, In t (fst st) ->
                  exists p, reached p /\ In t (island_targets p);
    inv_closed : forall p t, In p gps -> In (dumps p) (snd st) ->
                   In t (island_targets p) ->
                   In t (fst st)
                   \/ (forall q, In q gps -> near t q -> In (dumps q) (snd st)) }.

Lemma island_inv_init :
  island_inv (enqueue_island_points mag ([], []) p0).
Proof.
  rewrite enqueue_island_points_new by (intros []).
  rewrite app_nil_r. constructor; simpl.
  - now left.
  - constructor; [intros [] | constructor].
  - intros j [<- | []]. exists p0. repeat split; auto. apply reach_refl.
  - intros t Ht. exists p0. split; [apply reach_refl | exact Ht].
  - intros p t Hp [E | []] Ht. left.
    assert (p0 = p) by (apply dumps_inj; auto). now subst.
Qed.

(** One grid point of the inner loop, while [t0] is being looked for. *)
Lemma island_visit_inv (t0 : XZ) (q : list XZ) (seen : list Json) (r : Position) :
  In r gps ->
  island_inv (t0 :: q, seen) ->
  let st' := island_visit mag t0 (q, seen) r in
  island_inv (t0 :: fst st', snd st')
  /\ incl seen (snd st')
  /\ (near t0 r -> In (dumps r) (snd st')).
Proof.
  intros Hr Hinv. unfold island_visit. fold (near t0 r).
  destruct (sqrt_ltb (distance_sq t0 (xz_of r)) (5 # 100)) eqn:Hn.
  2:{ simpl. repeat split; auto using incl_refl; try apply Hinv.
      unfold near. congruence. }
  destruct (existsb (Json_eqb (dumps r)) seen) eqn:E.
  - apply Json_mem in E. rewrite enqueue_island_points_seen by exact E.
    simpl. repeat split; auto using incl_refl; apply Hinv.
  - apply Json_mem_false in E. rewrite enqueue_island_points_new by exact E.
    cbn [fst snd]. destruct Hinv as [Hs Hnd Hseen Hq Hc]. cbn [fst snd] in *.
    assert (Hreach : reached r).
    { destruct (Hq t0 (or_introl eq_refl)) as (p & Hp & Ht).
      apply reach_step with p; auto. now apply near_link with t0. }
    split; [constructor; cbn [fst snd] | split].
    + now right.
    + now constructor.
    + intros j [<- | Hj]; [exists r; auto | auto].
    + intros t [<- | Ht]; [apply Hq; now left |].
      apply in_app_or in Ht as [Ht | Ht]; [exists r; auto |].
      apply Hq. now right.
    + intros p t Hp [Ej | Hj] Ht.
      * left. assert (r = p) by (apply dumps_inj; auto). subst p.
        right. apply in_or_app. now left.
      * destruct (Hc p t Hp Hj Ht) as [[<- | Hin] | Hdone].
        -- left. now left.
        -- left. right. apply in_or_app. now right.
        -- right. intros q' Hq' Hnear. right. auto.
    + intros j Hj. now right.
    + intros _. now left.
Qed.

Lemma fold_island_visit_inv (t0 : XZ) (l : list Position) (q : list XZ)
    (seen : list Json) :
  incl l gps ->
  island_inv (t0 :: q, seen) ->
  let st' := fold_left (island_visit mag t0) l (q, seen) in
  island_inv (t0 :: fst st', snd st')
  /\ incl seen (snd st')
  /\ (forall r, In r l -> near t0 r -> In (dumps r) (snd st')).
Proof.
  revert q seen. induction l as [| r l IH]; intros q seen Hl Hinv; simpl.
  - split; [exact Hinv | split; [apply incl_refl | intros r []]].
  - destruct (island_visit_inv t0 q seen r (Hl r (or_introl eq_refl)) Hinv)
      as (Hinv1 & Hmono1 & Hr1).
    destruct (island_visit mag t0 (q, seen) r) as [q1 seen1] eqn:E1. simpl in *.
    destruct (IH q1 seen1 (fun x Hx => Hl x (or_intror Hx)) Hinv1)
      as (Hinv2 & Hmono2 & Hr2).
    split; [exact Hinv2 | split].
    + intros j Hj. auto.
    + intros r' [<- | Hr'] Hnear; auto.
Qed.

Lemma has_islands_loop_inv (fuel : nat) (st : IslandState) (seen' : list Json) :
  island_inv st ->
  has_islands_loop fuel mag gps st = Some seen' ->
  island_inv ([], seen').
Proof.
  revert st. induction fuel as [| fuel IH]; intros [q seen] Hinv Hloop.
  - destruct q; simpl in Hloop; [| discriminate].
    injection Hloop as <-. exact Hinv.
  - destruct q as [| t0 q]; simpl in Hloop.
    + injection Hloop as <-. exact Hinv.
    + destruct (fold_island_visit_inv t0 gps q seen (incl_refl gps) Hinv)
        as (Hinv1 & _ & Hdone).
      destruct (fold_left (island_visit mag t0) gps (q, seen)) as [q1 seen1].
      simpl in *. apply (IH (q1, seen1)); [| exact Hloop].
      destruct Hinv1 as [Hs Hnd Hseen Hq Hc]. simpl in *.
      constructor; simpl; auto.
      intros p t Hp Hj Ht.
      destruct (Hc p t Hp Hj Ht) as [[<- | Hin] | Hd]; auto.
Qed.

Lemma reached_seen (seen' : list Json) (q : Position) :
  island_inv ([], seen') -> reached q -> In (dumps q) seen'.
Proof.
  intros [Hs Hnd Hseen Hq Hc] H. simpl in *. unfold reached in H.
  induction H as [| q r Hpq IH Hr Hlink].
  - exact Hs.
  - apply link_near in Hlink as (t & Ht & Hn).
    destruct (Hc q t (reached_in q Hpq) IH Ht) as [[] | Hd]. auto.
Qed.

Lemma all_reached_length (seen' : list Json) :
  island_inv ([], seen') ->
  ((forall q, In q gps -> reached q) <-> length seen' = length gps).
Proof.
  intros Hinv.
  assert (Hsub : incl seen' (map dumps gps)).
  { intros j Hj. destruct (inv_seen _ Hinv j Hj) as (p & Hp & <- & _).
    now apply in_map. }
  pose proof (inv_nodup _ Hinv) as Hnd. simpl in Hnd.
  split.
  - intros Hall.
    assert (Hsup : incl (map dumps gps) seen').
    { intros j Hj. apply in_map_iff in Hj as (q & <- & Hq).
      apply reached_seen; auto. }
    pose proof (NoDup_incl_length Hnd Hsub) as L1.
    pose proof (NoDup_incl_length gps_distinct Hsup) as L2.
    rewrite length_map in L1, L2. lia.
  - intros Hlen q Hq.
    assert (Hsup : incl (map dumps gps) seen').
    { apply NoDup_length_incl; auto. rewrite length_map. lia. }
    destruct (inv_seen _ Hinv (dumps q) (Hsup _ (in_map dumps gps q Hq)))
      as (p & Hp & E & Hreach).
    assert (p = q) by (apply dumps_inj; auto). now subst.
Qed.

End Islands.

Lemma reach_trans (link : Position -> Position -> Prop) (gps : list Position)
    (a b c : Position) :
  reach link gps a b -> reach link gps b c -> reach link gps a c.
Proof.
  intros Hab Hbc. induction Hbc as [| q r Hbq IH Hr Hl]; [exact Hab |].
  now apply reach_step with q.
Qed.

Lemma reach_in (link : Position -> Position -> Prop) (gps : list Position)
    (a b : Position) :
  In a gps -> reach link gps a b -> In b gps.
Proof. intros Ha H. induction H; auto. Qed.

Lemma reach_sym (link : Position -> Position -> Prop) (gps : list Position)
    (a b : Position) :
  (forall p q, link p q -> link q p) ->
  In a gps -> reach link gps a b -> reach link gps b a.
Proof.
  intros Hsym Ha H. induction H as [| q r Haq IH Hr Hl]; [apply reach_refl |].
  apply reach_trans with q; [| exact IH].
  apply reach_step with r; [apply reach_refl | | now apply Hsym].
  now apply reach_in with link a.
Qed.

Lemma island_link_sym (mag : Q) (p q : Position) :
  island_link mag p q -> island_link mag q p.
Proof.
  intros (t & Ht & Hd). unfold island_link, cardinal_targets in *.
  simpl in Ht. destruct Ht as [<- | [<- | [<- | [<- | []]]]];
    unfold distance_sq in Hd; simpl in Hd.
  - exists (mkXZ (pos_x q - mag) (pos_z q)). split; [simpl; auto |].
    unfold distance_sq; simpl.
    setoid_replace (pos_x q - mag - pos_x p) with (- (pos_x p + mag - pos_x q)) by ring.
    setoid_replace (pos_z q - pos_z p) with (- (pos_z p - pos_z q)) by ring.
    lra.
  - exists (mkXZ (pos_x q + mag) (pos_z q)). split; [simpl; auto |].
    unfold distance_sq; simpl.
    setoid_replace (pos_x q + mag - pos_x p) with (- (pos_x p - mag - pos_x q)) by ring.
    setoid_replace (pos_z q - pos_z p) with (- (pos_z p - pos_z q)) by ring.
    lra.
  - exists (mkXZ (pos_x q) (pos_z q - mag)). split; [simpl; auto 6 |].
    unfold distance_sq; simpl.
    setoid_replace (pos_z q - mag - pos_z p) with (- (pos_z p + mag - pos_z q)) by ring.
    setoid_replace (pos_x q - pos_x p) with (- (pos_x p - pos_x q)) by ring.
    lra.
  - exists (mkXZ (pos_x q) (pos_z q + mag)). split; [simpl; auto 6 |].
    unfold distance_sq; simpl.
    setoid_replace (pos_z q + mag - pos_z p) with (- (pos_z p - mag - pos_z q)) by ring.
    setoid_replace (pos_x q - pos_x p) with (- (pos_x p - pos_x q)) by ring.
    lra.
Qed.

Lemma connected_from_first (mag : Q) (gps : list Position) (p0 : Position) :
  In p0 gps ->
  (connected (island_link mag) gps
   <-> forall q, In q gps -> reached mag gps p0 q).
Proof.
  intros H0. unfold reached. split.
  - intros Hc q Hq. now apply Hc.
  - intros Hall p q Hp Hq.
    apply reach_trans with p0; [| now apply Hall].
    apply reach_sym; auto using island_link_sym.
Qed.

Lemma island_measure_init (mag : Q) (gps : list Position) (p0 : Position) :
  In p0 gps ->
  (island_measure gps (enqueue_island_points mag ([], []) p0) <= 4 * length gps)%nat.
Proof.
  intros H0. rewrite enqueue_island_points_new by (intros []).
  unfold island_measure. cbn [fst snd]. rewrite app_nil_r.
  pose proof (unseen_cons_lt p0 [] gps H0 (fun H => H)) as H1.
  pose proof (filter_length_le (unseen []) gps) as H2.
  simpl. lia.
Qed.

(** The flood fill of [has_islands] decides whether every grid point can
    be reached from the first one through [island_link]. *)
Lemma has_islands_flood_fill (b : BFSController) :
  grid_points b <> [] ->
  NoDup (map dumps (grid_points b)) ->
  exists v,
    has_islands b = Some (Return v)
    /\ (v = true <-> ~ connected (island_link (grid_size b)) (grid_points b))
    /\ (v = false <-> connected (island_link (grid_size b)) (grid_points b)).
Proof.
  intros Hne Hnd. unfold has_islands.
  destruct (grid_points b) as [| p0 rest] eqn:E; [congruence |].
  set (gps := p0 :: rest) in *. set (mag := grid_size b).
  assert (H0 : In p0 gps) by now left.
  destruct (has_islands_loop_terminates mag gps (4 * length gps)
              (enqueue_island_points mag ([], []) p0)
              (island_measure_init mag gps p0 H0)) as (seen & Hloop).
  rewrite Hloop.
  pose proof (has_islands_loop_inv mag gps p0 Hnd _ _ _
                (island_inv_init mag gps p0 H0 Hnd) Hloop) as Hinv.
  pose proof (all_reached_length mag gps p0 H0 Hnd seen Hinv) as Hlen.
  pose proof (connected_from_first mag gps p0 H0) as Hconn.
  exists (negb (length seen =? length gps)%nat). split; [reflexivity |].
  rewrite negb_true_iff, negb_false_iff, Nat.eqb_neq, Nat.eqb_eq.
  rewrite Hconn, Hlen. split; reflexivity.
Qed.

(** C10: on an empty grid [has_islands] does not return a boolean: reading
    [self.grid_points[0]] raises. *)
Theorem has_islands_empty_grid (b : BFSController) :
  grid_points b = [] -> has_islands b = Some (Raise IndexError).
Proof.
  intros E. unfold has_islands. now rewrite E.
Qed.

Lemma has_islands_empty_grid_witness :
  has_islands BFSController_init = Some (Raise IndexError).
Proof.
  apply (has_islands_empty_grid BFSController_init). reflexivity.
Defined.

(** It is the only grid on which it raises. *)
Lemma has_islands_returns (b : BFSController) :
  grid_points b <> [] -> exists v, has_islands b = Some (Return v).
Proof.
  intros Hne. unfold has_islands.
  destruct (grid_points b) as [| p0 rest] eqn:E; [congruence |].
  destruct (has_islands_loop_terminates (grid_size b) (p0 :: rest)
              (4 * length (p0 :: rest))
              (enqueue_island_points (grid_size b) ([], []) p0)
              (island_measure_init (grid_size b) (p0 :: rest) p0
                 (or_introl eq_refl))) as (seen & Hloop).
  rewrite Hloop. eauto.
Qed.

(** * Properties of the exploration *)

Section ExploreFacts.

Variable World : Type.
Variable serve : World -> Action -> World * Event.
Context {cls : ControllerClass}.

(** A [step] that returns a successful Event has talked to the engine. *)
Lemma step_success (c c' : Controller) (w w' : World) (a : Action)
    (r : bool) (ev : Event) :
  step serve c w a r = (c', w', Return ev) ->
  lastActionSuccess (metadata ev) = true ->
  serve w (action_filtered a) = (w', ev).
Proof.
  unfold step. intros H Hok.
  destruct (negb (_check_action a)).
  - destruct (last_event c); inversion H; subst. simpl in Hok. discriminate.
  - destruct (request_queue c); [inversion H |].
    destruct (response_queue c); [inversion H |].
    destruct (serve w (action_filtered a)) as [w1 ev1].
    destruct (r && negb (lastActionSuccess (metadata ev1))); inversion H; subst.
    reflexivity.
Qed.

(** The fields of a [BFSController] besides [base]. *)
Definition search_fields (b : BFSController) :=
  (rotations b, horizons b, allow_enqueue b, queue b, seen_points b,
   grid_points b, grid_size b).

Lemma BFS_step_fields (b b' : BFSController) (w w' : World) (a : Action)
    (r : bool) (o : Outcome Event) :
  BFS_step serve a r b w = (b', w', o) -> search_fields b' = search_fields b.
Proof.
  unfold BFS_step. destruct (step serve (base b) w a r) as [[c w1] o1].
  intros H. inversion H; subst. reflexivity.
Qed.

Lemma BFS_reset_fields (b b' : BFSController) (w w' : World) (s : string)
    (o : Outcome Event) :
  BFS_reset serve s b w = (b', w', o) -> search_fields b' = search_fields b.
Proof.
  unfold BFS_reset. destruct (reset serve (base b) w s) as [[c w1] o1].
  intros H. inversion H; subst. reflexivity.
Qed.

Lemma BFS_step_success (b b' : BFSController) (w w' : World) (a : Action)
    (r : bool) (ev : Event) :
  BFS_step serve a r b w = (b', w', Return ev) ->
  lastActionSuccess (metadata ev) = true ->
  serve w (action_filtered a) = (w', ev).
Proof.
  unfold BFS_step. destruct (step serve (base b) w a r) as [[c w1] o1] eqn:E.
  intros H Hok. inversion H; subst. now apply step_success with (base b) c r.
Qed.

(** What one [queue_step] does to the search fields: the head of the queue
    goes; and either nothing else changes, or both engine calls succeeded,
    the place reached is appended to [grid_points] and [enqueue_points] has
    run on it. *)
Inductive queue_step_effect (b : BFSController) (w : World)
    (sp : BFSSearchPoint) (rest : list BFSSearchPoint)
    (b' : BFSController) (o : Outcome Event) : Prop :=
| effect_none :
    search_fields b' = search_fields (with_queue b rest) ->
    (forall ev, o = Return ev -> lastActionSuccess (metadata ev) = false) ->
    queue_step_effect b w sp rest b' o
| effect_accept (c : Controller) (w1 w2 : World) (ev1 ev : Event) :
    serve w (teleport_action (start_position sp)) = (w1, ev1) ->
    lastActionSuccess (metadata ev1) = true ->
    serve w1 (move_action (move_vector sp) (grid_size b)) = (w2, ev) ->
    lastActionSuccess (metadata ev) = true ->
    o = Return ev ->
    b' = (let position := agent_position (agent (metadata ev)) in
          let b1 := enqueue_points (with_base (with_queue b rest) c) position in
          with_grid_points b1 (grid_points b1 ++ [position])) ->
    queue_step_effect b w sp rest b' o.

Lemma search_fields_inv (b b' : BFSController) :
  search_fields b' = search_fields b ->
  allow_enqueue b' = allow_enqueue b
  /\ queue b' = queue b
  /\ seen_points b' = seen_points b
  /\ grid_points b' = grid_points b
  /\ grid_size b' = grid_size b.
Proof.
  unfold search_fields. intros H. injection H as H1 H2 H3 H4 H5 H6 H7. auto.
Qed.

Lemma search_fields_with_base (b : BFSController) (c : Controller) :
  search_fields (with_base b c) = search_fields b.
Proof. reflexivity. Qed.

Lemma search_fields_eq (b b' : BFSController) :
  search_fields b' = search_fields b -> b' = with_base b (base b').
Proof.
  destruct b, b'. unfold search_fields, with_base. simpl.
  intros H. inversion H; subst. reflexivity.
Qed.

Lemma queue_step_effects (b b' : BFSController) (w w' : World)
    (sp : BFSSearchPoint) (rest : list BFSSearchPoint) (o : Outcome Event) :
  queue b = sp :: rest ->
  queue_step serve b w = (b', w', o) ->
  queue_step_effect b w sp rest b' o.
Proof.
  intros Hq. unfold queue_step. rewrite Hq.
  destruct (BFS_step serve (teleport_action (start_position sp)) false
              (with_queue b rest) w) as [[b1 w1] o1] eqn:E1.
  pose proof (BFS_step_fields _ _ _ _ _ _ _ E1) as F1.
  destruct o1 as [ev1 | e1].
  2:{ intros H. inversion H; subst. apply effect_none; [exact F1 | discriminate]. }
  destruct (lastActionSuccess (metadata ev1)) eqn:Ok1; simpl.
  2:{ intros H. inversion H; subst. apply effect_none; [exact F1 | discriminate]. }
  destruct (BFS_step serve (move_action (move_vector sp) (grid_size b1)) false b1 w1)
    as [[b2 w2] o2] eqn:E2.
  pose proof (BFS_step_fields _ _ _ _ _ _ _ E2) as F2.
  assert (F12 : search_fields b2 = search_fields (with_queue b rest)) by congruence.
  assert (G1 : grid_size b1 = grid_size b).
  { apply search_fields_inv in F1. simpl in F1. tauto. }
  destruct o2 as [ev2 | e2].
  2:{ intros H. inversion H; subst. apply effect_none; [exact F12 | discriminate]. }
  destruct (lastActionSuccess (metadata ev2)) eqn:Ok2.
  2:{ intros H. inversion H; subst. apply effect_none; [exact F12 |].
      intros ev Hev. inversion Hev; subst. exact Ok2. }
  destruct (Qltb (13 # 10) (pos_y (agent_position (agent (metadata ev2))))).
  { intros H. inversion H; subst. apply effect_none; [exact F12 | discriminate]. }
  intros H. inversion H; subst.
  apply (effect_accept b w sp rest _ _ (base b2) w1 w' ev1 ev2); auto.
  - apply (BFS_step_success _ _ _ _ _ _ _ E1 Ok1).
  - rewrite <- G1. apply (BFS_step_success _ _ _ _ _ _ _ E2 Ok2).
  - simpl. rewrite (search_fields_eq _ _ F12). reflexivity.
Qed.

Variable receptacles_to_open : Event -> list string.

Lemma open_receptacles_fields (roids : list string) (b b' : BFSController)
    (w w' : World) (o : Outcome unit) :
  open_receptacles World serve roids b w = (b', w', o) ->
  search_fields b' = search_fields b.
Proof.
  revert b w. induction roids as [| roid roids IH]; intros b w; simpl.
  - intros H. inversion H; subst. reflexivity.
  - match goal with |- context [BFS_step serve ?a true b w] =>
      destruct (BFS_step serve a true b w) as [[b1 w1] o1] eqn:E1 end.
    pose proof (BFS_step_fields _ _ _ _ _ _ _ E1) as F1.
    destruct o1 as [ev | e].
    + intros H. apply IH in H. congruence.
    + intros H. inversion H; subst. exact F1.
Qed.

Lemma initialize_scene_fields (b b' : BFSController) (w w' : World)
    (o : Outcome unit) :
  initialize_scene World serve receptacles_to_open b w = (b', w', o) ->
  search_fields b' = search_fields b.
Proof.
  unfold initialize_scene. destruct (last_event (base b)).
  - apply open_receptacles_fields.
  - intros H. inversion H; subst. reflexivity.
Qed.

Lemma enqueue_points_closed (b : BFSController) (p : Position) :
  allow_enqueue b = false -> enqueue_points b p = b.
Proof. intros H. unfold enqueue_points. now rewrite H. Qed.

(** One [queue_step] with [allow_enqueue] off. *)
Lemma queue_step_closed (b b' : BFSController) (w w' : World)
    (sp : BFSSearchPoint) (rest : list BFSSearchPoint) (o : Outcome Event) :
  allow_enqueue b = false ->
  queue b = sp :: rest ->
  queue_step serve b w = (b', w', o) ->
  allow_enqueue b' = false
  /\ queue b' = rest
  /\ seen_points b' = seen_points b
  /\ grid_size b' = grid_size b
  /\ (forall ev, o = Return ev -> lastActionSuccess (metadata ev) = true ->
      grid_points b' = grid_points b ++ [agent_position (agent (metadata ev))])
  /\ ((forall ev, o = Return ev -> lastActionSuccess (metadata ev) = false) ->
      grid_points b' = grid_points b).
Proof.
  intros Hoff Hq Hstep.
  destruct (queue_step_effects b b' w w' sp rest o Hq Hstep)
    as [F Hfail | c w1 w2 ev1 ev Ht Ok1 Hm Ok2 -> ->].
  - apply search_fields_inv in F. simpl in F.
    destruct F as (F1 & F2 & F3 & F4 & F5).
    repeat split; try congruence.
    intros ev Hev Hok. rewrite (Hfail ev Hev) in Hok. discriminate.
  - cbv zeta. rewrite enqueue_points_closed by exact Hoff. simpl.
    repeat split; auto.
    + intros ev' Hev Hok. inversion Hev; subst. reflexivity.
    + intros Hfail. rewrite (Hfail ev eq_refl) in Ok2. discriminate.
Qed.




End ExploreFacts.



(** * Spacing of the accepted grid points *)

Section OrdPairs.

Variable A : Type.
Variable R : A -> A -> Prop.
Hypothesis R_sym : forall a b, R a b -> R b a.



Lemma FOP_snoc (l : list A) (x : A) :
  ForallOrdPairs R l -> Forall (fun a => R a x) l -> ForallOrdPairs R (l ++ [x]).
Proof.
  induction l as [| a l IH]; simpl; intros H Hx.
  - constructor; constructor.
  - inversion H as [| ? ? Ha Hl]; subst.
    inversion Hx as [| ? ? Hax Hlx]; subst.
    constructor.
    + apply Forall_app. split; [exact Ha | constructor; [exact Hax | constructor]].
    + now apply IH.
Qed.

Lemma FOP_filter (f : A -> bool) (l : list A) :
  ForallOrdPairs R l -> ForallOrdPairs R (filter f l).
Proof.
  induction l as [| a l IH]; simpl; intros H; [constructor |].
  inversion H as [| ? ? Ha Hl]; subst.
  destruct (f a); [constructor |]; auto.
  apply Forall_forall. intros x Hx. apply filter_In in Hx as [Hx _].
  rewrite Forall_forall in Ha. now apply Ha.
Qed.

End OrdPairs.



(** What the filter of [enqueue_point] establishes between a seen target
    and a new one. *)
Definition far (g : Q) (p q : XZ) : Prop :=
  sqrt_ltb (distance_sq p q) (g / 5) = false.


Section SearchInvariant.

Variable g : Q.

(** A set of places closed under the four steps of [enqueue_points]. *)
Variable D : XZ -> Prop.
Hypothesis D_step :
  forall p : Position,
    D (xz_of p) ->
    D (mkXZ (pos_x p + -1 * g) (pos_z p + 0))
    /\ D (mkXZ (pos_x p + g) (pos_z p + 0))
    /\ D (mkXZ (pos_x p + 0) (pos_z p + -1 * g))
    /\ D (mkXZ (pos_x p + 0) (pos_z p + 1 * g)).



Lemma enqueue_point_grid_size (b : BFSController) (sp : BFSSearchPoint) :
  grid_size (enqueue_point b sp) = grid_size b.
Proof.
  unfold enqueue_point. destruct (negb _); reflexivity.
Qed.



Section Steps.

Variable World : Type.
Variable serve : World -> Action -> World * Event.
Context {cls : ControllerClass}.
Hypothesis serve_lands : lands_on_target serve.





End Steps.

End SearchInvariant.

Lemma enqueue_points_grid_points (b : BFSController) (pos : Position) :
  grid_points (enqueue_points b pos) = grid_points b.
Proof.
  unfold enqueue_points. destruct (negb _); [reflexivity |].
  unfold enqueue_point.
  repeat match goal with |- context [negb (existsb ?f ?l)] =>
           destruct (negb (existsb f l)) end; reflexivity.
Qed.


Lemma inject_Z_square_sum (a b : Z) :
  (a <> 0 \/ b <> 0)%Z -> 1 <= inject_Z a * inject_Z a + inject_Z b * inject_Z b.
Proof.
  intros H. rewrite <- !inject_Z_mult, <- inject_Z_plus.
  change 1 with (inject_Z 1). rewrite <- Zle_Qle. nia.
Qed.


Lemma on_lattice_steps (g x0 z0 : Q) (p : Position) :
  on_lattice g x0 z0 (xz_of p) ->
  on_lattice g x0 z0 (mkXZ (pos_x p + -1 * g) (pos_z p + 0))
  /\ on_lattice g x0 z0 (mkXZ (pos_x p + g) (pos_z p + 0))
  /\ on_lattice g x0 z0 (mkXZ (pos_x p + 0) (pos_z p + -1 * g))
  /\ on_lattice g x0 z0 (mkXZ (pos_x p + 0) (pos_z p + 1 * g)).
Proof.
  intros (i & j & Hx & Hz). simpl in Hx, Hz. repeat split.
  - exists (i - 1)%Z, j. simpl. rewrite inject_Z_minus, Hx, Hz.
    change (inject_Z 1) with 1. split; ring.
  - exists (i + 1)%Z, j. simpl. rewrite inject_Z_plus, Hx, Hz.
    change (inject_Z 1) with 1. split; ring.
  - exists i, (j - 1)%Z. simpl. rewrite inject_Z_minus, Hx, Hz.
    change (inject_Z 1) with 1. split; ring.
  - exists i, (j + 1)%Z. simpl. rewrite inject_Z_plus, Hx, Hz.
    change (inject_Z 1) with 1. split; ring.
Qed.







Section Spacing.

Variable World : Type.
Variable serve : World -> Action -> World * Event.
Context {cls : ControllerClass}.
Variable receptacles_to_open : Event -> list string.
Hypothesis serve_lands : lands_on_target serve.






End Spacing.

Lemma serve_room_lands (inside : Position -> bool) :
  lands_on_target (serve_room inside).
Proof.
  intros w w1 w2 start mv g ev1 ev2 Ht Ok1 Hm Ok2.
  unfold serve_room in Ht. simpl in Ht. injection Ht as <- <-.
  unfold serve_room in Hm. simpl in Hm.
  unfold param_num in Hm. simpl in Hm.
  destruct (inside _).
  - injection Hm as <- <-. reflexivity.
  - injection Hm as <- <-. simpl in Ok2. discriminate.
Qed.



(** * Ordered dicts: lookups after updates *)

Section DictFacts.

Variables (K V : Type) (eqb : K -> K -> bool).
Hypothesis eqb_eq : forall a b, eqb a b = true <-> a = b.

Lemma eqb_refl_true (a : K) : eqb a a = true.
Proof. now apply eqb_eq. Qed.

Lemma dict_get_set (d : list (K * V)) (k q : K) (v : V) :
  dict_get eqb (dict_set eqb d k v) q
  = if eqb k q then Some v else dict_get eqb d q.
Proof.
  induction d as [| [k' v'] d IH]; simpl.
  - reflexivity.
  - destruct (eqb k' k) eqn:E; simpl.
    + apply eqb_eq in E. subst k'. destruct (eqb k q); reflexivity.
    + destruct (eqb k' q) eqn:E'.
      * apply eqb_eq in E'. subst k'.
        destruct (eqb k q) eqn:E2; [| reflexivity].
        apply eqb_eq in E2. subst k. rewrite eqb_refl_true in E. discriminate.
      * exact IH.
Qed.

Lemma dict_get_In (d : list (K * V)) (k : K) (v : V) :
  dict_get eqb d k = Some v -> In (k, v) d.
Proof.
  induction d as [| [k' v'] d IH]; simpl; [discriminate |].
  destruct (eqb k' k) eqn:E.
  - intros H. injection H as <-. apply eqb_eq in E. subst. now left.
  - intros H. right. now apply IH.
Qed.

Lemma dict_set_In (d : list (K * V)) (k k' : K) (v v' : V) :
  In (k', v') (dict_set eqb d k v) -> (k', v') = (k, v) \/ In (k', v') d.
Proof.
  induction d as [| [k1 v1] d IH]; simpl.
  - intros [H | []]. left. now symmetry.
  - destruct (eqb k1 k) eqn:E; simpl.
    + apply eqb_eq in E. subst k1. intros [H | H]; [left; now symmetry | auto].
    + intros [H | H]; [auto |]. destruct (IH H); auto.
Qed.

(** The dict built by setting the entries of [l] in turn. *)
Definition dict_of (l : list (K * V)) (d0 : list (K * V)) : list (K * V) :=
  fold_left (fun d kv => dict_set eqb d (fst kv) (snd kv)) l d0.

Lemma dict_of_In (l d0 : list (K * V)) (k : K) (v : V) :
  In (k, v) (dict_of l d0) -> In (k, v) l \/ In (k, v) d0.
Proof.
  revert d0. induction l as [| [k1 v1] l IH]; simpl; intros d0 H; [auto |].
  destruct (IH _ H) as [H1 | H1]; [auto |].
  apply dict_set_In in H1 as [H1 | H1]; auto.
Qed.

Lemma dict_of_get_keep (l d0 : list (K * V)) (k : K) (v : V) :
  dict_get eqb d0 k = Some v ->
  (forall v', In (k, v') l -> v' = v) ->
  dict_get eqb (dict_of l d0) k = Some v.
Proof.
  revert d0. induction l as [| [k1 v1] l IH]; simpl; intros d0 H0 Hu; [exact H0 |].
  apply IH; [| intros v' Hv'; apply Hu; now right].
  rewrite dict_get_set. destruct (eqb k1 k) eqn:E; [| exact H0].
  apply eqb_eq in E. subst k1. f_equal. apply Hu. now left.
Qed.

(** When every entry of [l] for [k] carries [v], and there is one, the dict
    maps [k] to [v]. *)
Lemma dict_of_get (l d0 : list (K * V)) (k : K) (v : V) :
  In (k, v) l ->
  (forall v', In (k, v') l -> v' = v) ->
  dict_get eqb (dict_of l d0) k = Some v.
Proof.
  revert d0. induction l as [| [k1 v1] l IH]; simpl; intros d0 Hin Hu; [destruct Hin |].
  destruct Hin as [Hin | Hin].
  - injection Hin as -> ->.
    apply dict_of_get_keep; [| intros v' Hv'; apply Hu; now right].
    rewrite dict_get_set, eqb_refl_true. reflexivity.
  - apply IH; [exact Hin | intros v' Hv'; apply Hu; now right].
Qed.

Lemma dict_of_get_some (l : list (K * V)) (k : K) (v : V) :
  dict_get eqb (dict_of l []) k = Some v -> In (k, v) l.
Proof.
  intros H. apply dict_get_In in H. apply dict_of_In in H as [H | []]. exact H.
Qed.

Lemma dict_of_get_exists (l d0 : list (K * V)) (k : K) (v : V) :
  In (k, v) l -> exists v', dict_get eqb (dict_of l d0) k = Some v'.
Proof.
  revert d0. induction l as [| [k1 v1] l IH]; simpl; intros d0 Hin; [destruct Hin |].
  destruct Hin as [Hin | Hin]; [| now apply IH].
  injection Hin as -> ->.
  assert (H : exists v', dict_get eqb (dict_set eqb d0 k v) k = Some v').
  { rewrite dict_get_set, eqb_refl_true. eauto. }
  clear IH. generalize dependent (dict_set eqb d0 k v). clear d0.
  induction l as [| [k2 v2] l IH]; simpl; intros d (v' & Hv'); [eauto |].
  apply IH. rewrite dict_get_set. destruct (eqb k2 k); eauto.
Qed.

End DictFacts.

(** * The breadth-first search finds a path when there is one *)

Section BfsFacts.

Variable g : Graph.
Variable source target : Key.

Lemma key_in_In (k : Key) (l : list Key) : key_in k l = true <-> In k l.
Proof.
  unfold key_in. rewrite existsb_exists. split.
  - intros (k' & Hk & E). apply Key_eqb_eq in E. now subst.
  - intros H. exists k. split; [exact H | apply Key_eqb_refl].
Qed.

Lemma key_in_not_In (k : Key) (l : list Key) : key_in k l = false <-> ~ In k l.
Proof.
  rewrite <- key_in_In. destruct (key_in k l); split; congruence.
Qed.

(** [rwalk u rp]: [rp] is a path from [source] to [u], in reverse. *)
Inductive rwalk : Key -> list Key -> Prop :=
| rwalk_start : rwalk source [source]
| rwalk_step (u n : Key) (rp : list Key) :
    rwalk u rp -> In n (nbrs g u) -> rwalk n (n :: rp).

Lemma last_cons (v u : Key) (l : list Key) : last (v :: l) u = last l v.
Proof.
  revert v u. induction l as [| a l IH]; intros v u; [reflexivity |].
  change (last (v :: a :: l) u) with (last (a :: l) u).
  rewrite (IH a u). symmetry. apply IH.
Qed.

Lemma chain_snoc (u : Key) (l : list Key) (n : Key) :
  chain g u l -> In n (nbrs g (last l u)) -> chain g u (l ++ [n]).
Proof.
  revert u. induction l as [| v l IH]; intros u Hc Hn.
  - simpl in *. auto.
  - rewrite last_cons in Hn. destruct Hc as [Hv Hc].
    split; [exact Hv |]. now apply IH.
Qed.

Lemma last_snoc (l : list Key) (n d : Key) : last (l ++ [n]) d = n.
Proof.
  induction l as [| a l IH]; simpl; [reflexivity |].
  destruct (l ++ [n]) eqn:E; [destruct l; discriminate | exact IH].
Qed.

Lemma rwalk_forward (u : Key) (rp : list Key) :
  rwalk u rp ->
  exists l, rev rp = source :: l /\ chain g source l /\ last l source = u.
Proof.
  induction 1 as [| u n rp Hw (l & Hrev & Hc & Hl) Hn].
  - exists []. simpl. auto.
  - exists (l ++ [n]). simpl. rewrite Hrev. split; [reflexivity |].
    split; [apply chain_snoc; [exact Hc | now rewrite Hl] | apply last_snoc].
Qed.

(** *** Termination *)

Definition universe : list Key := source :: concat (map snd g).

Definition unvisited (visited : list Key) : nat :=
  length (filter (fun k => negb (key_in k visited)) universe).

Lemma nbrs_universe (u n : Key) : In n (nbrs g u) -> In n universe.
Proof.
  unfold nbrs, neighbors. intros H. right.
  destruct (dict_get Key_eqb g u) as [ns |] eqn:E; [| destruct H].
  apply (dict_get_In _ _ _ Key_eqb_eq) in E.
  apply in_concat. exists ns. split; [| exact H].
  apply in_map_iff. exists (u, ns). auto.
Qed.

Lemma unvisited_app_le (visited : list Key) (n : Key) :
  (unvisited (visited ++ [n]) <= unvisited visited)%nat.
Proof.
  unfold unvisited. induction universe as [| k l IH]; simpl; [lia |].
  assert (E : key_in k (visited ++ [n]) = key_in k visited || Key_eqb k n).
  { unfold key_in. rewrite existsb_app. simpl. now rewrite orb_false_r. }
  rewrite E. destruct (key_in k visited); simpl; [lia |].
  destruct (Key_eqb k n); simpl; lia.
Qed.

Lemma unvisited_app_lt (visited : list Key) (n : Key) :
  In n universe -> ~ In n visited ->
  (S (unvisited (visited ++ [n])) <= unvisited visited)%nat.
Proof.
  unfold unvisited. intros Hu Hn.
  induction universe as [| k l IH]; [destruct Hu |]. simpl.
  assert (E : key_in k (visited ++ [n]) = key_in k visited || Key_eqb k n).
  { unfold key_in. rewrite existsb_app. simpl. now rewrite orb_false_r. }
  rewrite E.
  assert (Hle : (length (filter (fun k => negb (key_in k (visited ++ [n]))) l)
                 <= length (filter (fun k => negb (key_in k visited)) l))%nat).
  { clear. induction l as [| k l IH]; simpl; [lia |].
    assert (E : key_in k (visited ++ [n]) = key_in k visited || Key_eqb k n).
    { unfold key_in. rewrite existsb_app. simpl. now rewrite orb_false_r. }
    rewrite E. destruct (key_in k visited); simpl; [lia |].
    destruct (Key_eqb k n); simpl; lia. }
  destruct Hu as [-> | Hu].
  - apply key_in_not_In in Hn. rewrite Hn, Key_eqb_refl. simpl. lia.
  - specialize (IH Hu).
    destruct (key_in k visited); simpl; [lia |].
    destruct (Key_eqb k n); simpl; lia.
Qed.

Definition bfs_measure (st : list (Key * list Key) * list Key) : nat :=
  (length (fst st) + unvisited (snd st))%nat.

Lemma bfs_expand_measure (rpath : list Key)
    (st : list (Key * list Key) * list Key) (n : Key) :
  In n universe ->
  (bfs_measure (bfs_expand rpath st n) <= bfs_measure st)%nat.
Proof.
  intros Hu. destruct st as [fr vis]. unfold bfs_expand.
  destruct (key_in n vis) eqn:E; [lia |].
  apply key_in_not_In in E.
  unfold bfs_measure. simpl. rewrite length_app. simpl.
  pose proof (unvisited_app_lt vis n Hu E). lia.
Qed.

Lemma fold_bfs_expand_measure (rpath : list Key) (ns : list Key)
    (st : list (Key * list Key) * list Key) :
  (forall n, In n ns -> In n universe) ->
  (bfs_measure (fold_left (bfs_expand rpath) ns st) <= bfs_measure st)%nat.
Proof.
  revert st. induction ns as [| n ns IH]; intros st Hu; simpl; [lia |].
  etransitivity; [apply IH; intros; apply Hu; now right |].
  apply bfs_expand_measure. apply Hu. now left.
Qed.

Lemma bfs_loop_terminates (fuel : nat) (frontier : list (Key * list Key))
    (visited : list Key) :
  (bfs_measure (frontier, visited) <= fuel)%nat ->
  exists r, bfs_loop fuel g target frontier visited = Some r.
Proof.
  revert frontier visited.
  induction fuel as [| fuel IH]; intros frontier visited Hm.
  - destruct frontier as [| [u rp] rest]; simpl; [eauto |].
    unfold bfs_measure in Hm. simpl in Hm. lia.
  - destruct frontier as [| [u rp] rest]; simpl; [eauto |].
    destruct (Key_eqb u target); [eauto |].
    fold (nbrs g u).
    pose proof (fold_bfs_expand_measure rp (nbrs g u) (rest, visited)
                  (nbrs_universe u)) as Hf.
    destruct (fold_left (bfs_expand rp) (nbrs g u) (rest, visited)) as [fr' vis'].
    apply IH. unfold bfs_measure in *. simpl in *. lia.
Qed.

End BfsFacts.

Section BfsCorrect.

Variable g : Graph.
Variable source target : Key.

(** While the neighbours of [pending] are being added: every frontier entry
    carries a path from the source; every visited node is the pending one,
    or waits in the frontier, or is not the target and has all its
    neighbours visited. *)
Definition bfs_inv (pending : option Key)
    (st : list (Key * list Key) * list Key) : Prop :=
  In source (snd st)
  /\ (forall u rp, In (u, rp) (fst st) -> rwalk g source u rp /\ In u (snd st))
  /\ (forall v, In v (snd st) ->
        Some v = pending
        \/ (exists rp, In (v, rp) (fst st))
        \/ (v <> target /\ forall n, In n (nbrs g v) -> In n (snd st))).

Lemma bfs_expand_inv (u : Key) (rp : list Key)
    (st : list (Key * list Key) * list Key) (n : Key) :
  rwalk g source u rp -> In n (nbrs g u) ->
  bfs_inv (Some u) st ->
  bfs_inv (Some u) (bfs_expand rp st n)
  /\ incl (snd st) (snd (bfs_expand rp st n))
  /\ In n (snd (bfs_expand rp st n)).
Proof.
  intros Hw Hn (Hs & Hf & Hv). destruct st as [fr vis]. unfold bfs_expand.
  destruct (key_in n vis) eqn:E.
  - apply key_in_In in E. split; [| split]; auto using incl_refl.
    split; [| split]; assumption.
  - simpl in *. split; [| split].
    + split; [| split]; simpl.
      * apply in_or_app. now left.
      * intros u' rp' H. apply in_app_or in H as [H | [H | []]].
        -- destruct (Hf u' rp' H). split; [assumption | apply in_or_app; now left].
        -- injection H as <- <-. split; [now apply rwalk_step with u |].
           apply in_or_app. right. now left.
      * intros v H. apply in_app_or in H as [H | [<- | []]].
        -- destruct (Hv v H) as [Hp | [(rp' & Hin) | (Hne & Hall)]].
           ++ now left.
           ++ right. left. exists rp'. apply in_or_app. now left.
           ++ right. right. split; [exact Hne |].
              intros m Hm. apply in_or_app. left. now apply Hall.
        -- right. left. exists (n :: rp). apply in_or_app. right. now left.
    + intros x Hx. apply in_or_app. now left.
    + apply in_or_app. right. now left.
Qed.

Lemma fold_bfs_expand_inv (u : Key) (rp : list Key) (ns : list Key)
    (st : list (Key * list Key) * list Key) :
  rwalk g source u rp -> (forall n, In n ns -> In n (nbrs g u)) ->
  bfs_inv (Some u) st ->
  bfs_inv (Some u) (fold_left (bfs_expand rp) ns st)
  /\ incl (snd st) (snd (fold_left (bfs_expand rp) ns st))
  /\ (forall n, In n ns -> In n (snd (fold_left (bfs_expand rp) ns st))).
Proof.
  intros Hw. revert st. induction ns as [| n ns IH]; intros st Hns Hinv; simpl.
  - split; [exact Hinv | split; [apply incl_refl | intros n []]].
  - destruct (bfs_expand_inv u rp st n Hw (Hns n (or_introl eq_refl)) Hinv)
      as (Hinv1 & Hmono1 & Hin1).
    destruct (IH (bfs_expand rp st n) (fun m Hm => Hns m (or_intror Hm)) Hinv1)
      as (Hinv2 & Hmono2 & Hin2).
    split; [exact Hinv2 | split].
    + intros x Hx. auto.
    + intros m [<- | Hm]; auto.
Qed.

Lemma bfs_loop_correct (fuel : nat) (frontier : list (Key * list Key))
    (visited : list Key) (r : Outcome (list Key)) :
  bfs_inv None (frontier, visited) ->
  bfs_loop fuel g target frontier visited = Some r ->
  match r with
  | Return path => exists rp, path = rev rp /\ rwalk g source target rp
  | Raise _ => ~ walk g source target
  end.
Proof.
  revert frontier visited.
  assert (Hempty : forall visited, bfs_inv None ([], visited) ->
                     ~ walk g source target).
  { intros visited (Hs & _ & Hv) Hw. simpl in *.
    assert (Hall : forall v, walk g source v -> In v visited).
    { intros v H. induction H as [| v n Hsv IH Hn]; [exact Hs |].
      destruct (Hv v IH) as [Hp | [(rp & []) | (_ & Hall)]]; [discriminate |].
      now apply Hall. }
    destruct (Hv target (Hall target Hw)) as [Hp | [(rp & []) | (Hne & _)]];
      [discriminate | congruence]. }
  induction fuel as [| fuel IH]; intros frontier visited Hinv Hloop.
  - destruct frontier as [| [u rp] rest]; simpl in Hloop.
    + injection Hloop as <-. now apply Hempty with visited.
    + destruct (Key_eqb u target) eqn:E; [| discriminate].
      injection Hloop as <-. apply Key_eqb_eq in E. subst u.
      exists rp. split; [reflexivity |].
      destruct Hinv as (_ & Hf & _). apply (Hf target rp). now left.
  - destruct frontier as [| [u rp] rest]; simpl in Hloop.
    + injection Hloop as <-. now apply Hempty with visited.
    + destruct (Key_eqb u target) eqn:E.
      * injection Hloop as <-. apply Key_eqb_eq in E. subst u.
        exists rp. split; [reflexivity |].
        destruct Hinv as (_ & Hf & _). apply (Hf target rp). now left.
      * apply Key_eqb_neq in E. fold (nbrs g u) in Hloop.
        destruct Hinv as (Hs & Hf & Hv). simpl in *.
        assert (Hw : rwalk g source u rp) by (apply (Hf u rp); now left).
        assert (Hinv1 : bfs_inv (Some u) (rest, visited)).
        { split; [exact Hs | split]; simpl.
          - intros u' rp' H. apply Hf. now right.
          - intros v H. destruct (Hv v H) as [Hp | [(rp' & [Hin | Hin]) | Hd]].
            + discriminate.
            + injection Hin as <- <-. now left.
            + right. left. eauto.
            + right. right. exact Hd. }
        destruct (fold_bfs_expand_inv u rp (nbrs g u) (rest, visited) Hw
                    (fun n H => H) Hinv1) as (Hinv2 & Hmono & Hin).
        destruct (fold_left (bfs_expand rp) (nbrs g u) (rest, visited))
          as [fr' vis'].
        apply (IH fr' vis'); [| exact Hloop].
        destruct Hinv2 as (Hs2 & Hf2 & Hv2). simpl in *.
        split; [exact Hs2 | split; [exact Hf2 |]]. simpl.
        intros v H. destruct (Hv2 v H) as [Hp | [Hfr | Hd]].
        -- injection Hp as ->. right. right. split; [exact E | exact Hin].
        -- right. now left.
        -- right. now right.
Qed.

Lemma bfs_fuel_enough :
  (bfs_measure g source ([(source, [source])], [source]) <= bfs_fuel g)%nat.
Proof.
  unfold bfs_measure, bfs_fuel, unvisited, universe. simpl.
  rewrite Key_eqb_refl. simpl.
  pose proof (filter_length_le (fun k => negb (Key_eqb k source || false))
                (concat (map snd g))). lia.
Qed.

(** [shortest_path] returns a path of the graph from the source to the
    target whenever the target can be reached. *)
Lemma shortest_path_finds :
  has_node g source = true -> has_node g target = true ->
  walk g source target ->
  exists l,
    shortest_path g source target = Some (Return (source :: l))
    /\ chain g source l /\ last l source = target.
Proof.
  intros Hs Ht Hw. unfold shortest_path. rewrite Hs, Ht. cbn [negb].
  destruct (bfs_loop_terminates g source target (bfs_fuel g)
              [(source, [source])] [source] bfs_fuel_enough) as (r & Hr).
  assert (Hinv : bfs_inv None ([(source, [source])], [source])).
  { split; [now left | split]; simpl.
    - intros u rp [H | []]. injection H as <- <-.
      split; [constructor | now left].
    - intros v [<- | []]. right. left. exists [source]. now left. }
  pose proof (bfs_loop_correct _ _ _ r Hinv Hr) as Hc.
  destruct r as [path | e]; [| contradiction].
  destruct Hc as (rp & -> & Hrw).
  destruct (rwalk_forward g source target rp Hrw) as (l & Hrev & Hch & Hl).
  exists l. rewrite Hr, Hrev. auto.
Qed.

End BfsCorrect.

(** * The reachability graph of a lattice *)

Lemma fold_left_map {A B C : Type} (f : A -> B -> A) (h : C -> B)
    (l : list C) (a : A) :
  fold_left f (map h l) a = fold_left (fun a x => f a (h x)) l a.
Proof.
  revert a. induction l as [| x l IH]; intros a; simpl; [reflexivity | apply IH].
Qed.

(** *** Edges come from pairs of grid points one step apart *)

Section GraphEdges.

Variable E : Key -> Key -> Prop.

Definition edges_ok (g : Graph) : Prop :=
  forall u ns, dict_get Key_eqb g u = Some ns -> forall n, In n ns -> E u n.

Lemma dict_get_app_singleton (g : Graph) (n q : Key) (ns : list Key) :
  dict_get Key_eqb (g ++ [(n, [])]) q = Some ns ->
  dict_get Key_eqb g q = Some ns \/ ns = [].
Proof.
  induction g as [| [k v] g IH]; simpl.
  - destruct (Key_eqb n q); [| discriminate]. intros H. injection H as <-. now right.
  - destruct (Key_eqb k q); [now left | exact IH].
Qed.

Lemma add_node_ok (g : Graph) (n : Key) : edges_ok g -> edges_ok (add_node g n).
Proof.
  intros H. unfold add_node. destruct (has_node g n); [exact H |].
  intros u ns Hget m Hm.
  apply dict_get_app_singleton in Hget as [Hget | ->]; [| destruct Hm].
  now apply (H u ns).
Qed.

Lemma add_neighbor_ok (g : Graph) (u v : Key) :
  E u v -> edges_ok g -> edges_ok (add_neighbor g u v).
Proof.
  intros Huv H. unfold add_neighbor.
  destruct (dict_get Key_eqb g u) as [ns0 |] eqn:E0; [| exact H].
  intros q ns Hget m Hm.
  rewrite (dict_get_set _ _ _ Key_eqb_eq) in Hget.
  destruct (Key_eqb u q) eqn:Eq.
  - apply Key_eqb_eq in Eq. subst q. injection Hget as <-.
    destruct (key_in v ns0); [now apply (H u ns0) |].
    apply in_app_or in Hm as [Hm | [<- | []]]; [now apply (H u ns0) | exact Huv].
  - now apply (H q ns).
Qed.

Lemma add_edge_ok (g : Graph) (u v : Key) :
  E u v -> E v u -> edges_ok g -> edges_ok (add_edge g u v).
Proof.
  intros Huv Hvu H. unfold add_edge.
  apply add_neighbor_ok; [exact Hvu |].
  apply add_neighbor_ok; [exact Huv |].
  now repeat apply add_node_ok.
Qed.

End GraphEdges.

Lemma one_step_apart_sym (b : BFSController) (p q : Position) :
  one_step_apart b p q = one_step_apart b q p.
Proof.
  unfold one_step_apart, sqrt_leb, sqrt_posb.
  pose proof (distance_sq_sym (xz_of p) (xz_of q)) as H.
  rewrite (Qleb_comp _ _ H _ _ (Qeq_refl _)).
  rewrite (Qltb_proper _ _ (Qeq_refl 0) _ _ H). reflexivity.
Qed.

(** [u] and [n] are the keys of two grid points one step apart. *)
Definition grid_edge (b : BFSController) (u n : Key) : Prop :=
  exists p q, In p (grid_points b) /\ In q (grid_points b)
              /\ BFS_key_for_point p = u /\ BFS_key_for_point q = n
              /\ one_step_apart b p q = true.

Lemma grid_edge_sym (b : BFSController) (u n : Key) :
  grid_edge b u n -> grid_edge b n u.
Proof.
  intros (p & q & Hp & Hq & Ku & Kn & H). exists q, p.
  repeat split; auto. now rewrite one_step_apart_sym.
Qed.

Lemma build_graph_point_ok (b : BFSController) (point : Position)
    (l : list Position) (graph : Graph) :
  In point (grid_points b) -> incl l (grid_points b) ->
  edges_ok (grid_edge b) graph ->
  edges_ok (grid_edge b)
    (fold_left
       (fun graph p =>
          let d := distance_sq (xz_of point) (xz_of p) in
          if sqrt_leb d (grid_size b + (1 # 100)) && sqrt_posb d
          then add_edge graph (BFS_key_for_point point) (BFS_key_for_point p)
          else graph) l graph).
Proof.
  intros Hpoint. revert graph.
  induction l as [| p l IH]; intros graph Hl H; simpl; [exact H |].
  apply IH; [intros x Hx; apply Hl; now right |].
  destruct (sqrt_leb _ _ && sqrt_posb _) eqn:Ec; [| exact H].
  assert (He : grid_edge b (BFS_key_for_point point) (BFS_key_for_point p)).
  { exists point, p. repeat split; auto. apply Hl. now left. }
  apply add_edge_ok; auto using grid_edge_sym.
Qed.

Lemma build_graph_ok (b : BFSController) :
  edges_ok (grid_edge b) (build_graph b).
Proof.
  unfold build_graph.
  assert (H : forall l graph, incl l (grid_points b) ->
                edges_ok (grid_edge b) graph ->
                edges_ok (grid_edge b) (fold_left (_build_graph_point b) l graph)).
  { induction l as [| point l IH]; intros graph Hl H; simpl; [exact H |].
    apply IH; [intros x Hx; apply Hl; now right |].
    unfold _build_graph_point.
    apply build_graph_point_ok; auto using incl_refl. apply Hl. now left. }
  apply H; [apply incl_refl |]. intros u ns Hget. discriminate.
Qed.

Lemma nbrs_grid_edge (b : BFSController) (u n : Key) :
  In n (nbrs (build_graph b) u) -> grid_edge b u n.
Proof.
  unfold nbrs, neighbors. intros H.
  destruct (dict_get Key_eqb (build_graph b) u) as [ns |] eqn:E; [| destruct H].
  exact (build_graph_ok b u ns E n H).
Qed.

(** *** The dict of all points *)

Lemma all_points_of_dict (b : BFSController) :
  all_points_of b
  = dict_of Key Position Key_eqb
      (map (fun p => (BFS_key_for_point p, p)) (grid_points b)) [].
Proof.
  unfold all_points_of, dict_of. now rewrite fold_left_map.
Qed.

Lemma all_points_get (b : BFSController) (k : Key) (q : Position) :
  dict_get Key_eqb (all_points_of b) k = Some q ->
  In q (grid_points b) /\ BFS_key_for_point q = k.
Proof.
  rewrite all_points_of_dict. intros H.
  apply (dict_of_get_some _ _ _ Key_eqb_eq) in H.
  apply in_map_iff in H as (p & Hp & Hin). injection Hp as <- <-. auto.
Qed.

Lemma all_points_exists (b : BFSController) (p : Position) :
  In p (grid_points b) ->
  exists q, dict_get Key_eqb (all_points_of b) (BFS_key_for_point p) = Some q.
Proof.
  intros H. rewrite all_points_of_dict.
  apply (dict_of_get_exists _ _ _ Key_eqb_eq) with p.
  apply in_map_iff. exists p. auto.
Qed.

(** * Geometry of a lattice of step 0.25 *)

Lemma xz_eq_key (p q : Position) :
  xz_eq (xz_of p) (xz_of q) -> BFS_key_for_point p = BFS_key_for_point q.
Proof.
  intros [Hx Hz]. simpl in Hx, Hz. unfold BFS_key_for_point.
  f_equal; now apply format_fixed_proper.
Qed.

Lemma lattice_format_3 (g v v' : Q) (k : Z) :
  1 # 1000 < g -> v - v' == inject_Z k * g ->
  format_fixed 3 v = format_fixed 3 v' -> v == v'.
Proof.
  intros Hg Hk H. apply format_fixed_3_close in H.
  assert (k = 0%Z).
  { apply (small_multiple_zero g (v - v') k); [lra | exact Hk | lra]. }
  subst k. change (inject_Z 0) with 0 in Hk. lra.
Qed.

Lemma lattice_key_xz_eq (g x0 z0 : Q) (p q : Position) :
  1 # 1000 < g ->
  on_lattice g x0 z0 (xz_of p) -> on_lattice g x0 z0 (xz_of q) ->
  BFS_key_for_point p = BFS_key_for_point q -> xz_eq (xz_of p) (xz_of q).
Proof.
  intros Hg (i & j & Hx & Hz) (i' & j' & Hx' & Hz') H.
  simpl in *. unfold BFS_key_for_point in H.
  split; simpl.
  - apply (lattice_format_3 g _ _ (i - i') Hg);
      [rewrite Hx, Hx', inject_Z_minus; ring | exact (f_equal fst H)].
  - apply (lattice_format_3 g _ _ (j - j') Hg);
      [rewrite Hz, Hz', inject_Z_minus; ring | exact (f_equal snd H)].
Qed.

Lemma unit_vec_squares (a c : Z) : (a * a + c * c = 1)%Z -> unit_vec a c.
Proof.
  intros H. unfold unit_vec.
  assert (Ha : (-1 <= a <= 1)%Z) by nia.
  assert (Hc : (-1 <= c <= 1)%Z) by nia.
  assert (Ea : (a = -1 \/ a = 0 \/ a = 1)%Z) by lia.
  assert (Ec : (c = -1 \/ c = 0 \/ c = 1)%Z) by lia.
  destruct Ea as [-> | [-> | ->]]; destruct Ec as [-> | [-> | ->]]; lia.
Qed.

(** Two points of the lattice that pass the edge test differ by a unit
    step. *)
Lemma one_step_apart_unit (b : BFSController) (x0 z0 : Q) (p q : Position) :
  grid_size b = 25 # 100 ->
  on_lattice (grid_size b) x0 z0 (xz_of p) ->
  on_lattice (grid_size b) x0 z0 (xz_of q) ->
  one_step_apart b p q = true ->
  exists a c : Z,
    unit_vec a c
    /\ pos_x q - pos_x p == inject_Z a * grid_size b
    /\ pos_z q - pos_z p == inject_Z c * grid_size b.
Proof.
  intros Hg (i & j & Hx & Hz) (i' & j' & Hx' & Hz') H.
  unfold one_step_apart in H. rewrite Hg in *. simpl in Hx, Hz, Hx', Hz'.
  apply andb_true_iff in H as [Hle Hpos].
  apply sqrt_leb_spec in Hle as [_ Hle]. unfold sqrt_posb in Hpos.
  apply Qltb_lt in Hpos.
  set (a := (i' - i)%Z). set (c := (j' - j)%Z).
  assert (Hd : distance_sq (xz_of p) (xz_of q)
               == inject_Z (a * a + c * c) * (625 # 10000)).
  { unfold distance_sq, a, c. simpl.
    rewrite Hx, Hz, Hx', Hz', inject_Z_plus, !inject_Z_mult, !inject_Z_minus. ring. }
  rewrite Hd in Hle, Hpos.
  assert (H1 : inject_Z (a * a + c * c) < inject_Z 2).
  { change (inject_Z 2) with 2. lra. }
  assert (H2 : inject_Z 0 < inject_Z (a * a + c * c)).
  { change (inject_Z 0) with 0. lra. }
  rewrite <- Zlt_Qlt in H1, H2.
  exists a, c. split; [apply unit_vec_squares; lia |].
  unfold a, c. rewrite Hx, Hz, Hx', Hz', !inject_Z_minus. split; ring.
Qed.

Lemma offset_round (g d : Q) (a : Z) :
  ~ g == 0 -> d == inject_Z a * g -> round_half_even (d / g) = a.
Proof.
  intros Hg Hd.
  assert (E : d / g == inject_Z a) by (rewrite Hd; field; exact Hg).
  rewrite (round_half_even_proper _ _ E). apply round_half_even_Z.
Qed.

(** For a heading of the compass and a unit step, the table of
    [move_relative_points] holds exactly one action, and that action moves
    along the step. *)
Lemma orientation_loop_unit (r : Q) (a c : Z) :
  In r headings -> unit_vec a c ->
  exists name t,
    orientation_loop r a c action_orientation = Return (Some name)
    /\ move_angle name = Some t
    /\ compass ((round_half_even r + t) mod 360) = (a, c).
Proof.
  intros Hr Hu. unfold headings in Hr. simpl in Hr.
  destruct Hr as [<- | [<- | [<- | [<- | []]]]];
    destruct Hu as [[-> ->] | [[-> ->] | [[-> ->] | [-> ->]]]];
    vm_compute; eexists; eexists; repeat split; reflexivity.
Qed.

(** * [shortest_plan] on a lattice *)

Section MovePlan.

Variable b : BFSController.
Variables x0 z0 : Q.
Hypothesis grid_size_quarter : grid_size b = 25 # 100.
Hypothesis grid_on_lattice :
  forall p, In p (grid_points b) -> on_lattice (grid_size b) x0 z0 (xz_of p).

Variable cur : Position.
Variable r : Q.
Hypothesis cur_in : In cur (grid_points b).
Hypothesis r_heading : In r headings.

(** The point and the action that [move_relative_points] finds for a
    neighbour key. *)
Definition point_for (n : Key) : Position :=
  match dict_get Key_eqb (all_points_of b) n with
  | Some p => p
  | None => cur
  end.

Definition offset_x (n : Key) : Z :=
  round_half_even ((pos_x (point_for n) - pos_x cur) / grid_size b).

Definition offset_z (n : Key) : Z :=
  round_half_even ((pos_z (point_for n) - pos_z cur) / grid_size b).

Definition name_for (n : Key) : string :=
  match orientation_loop r (offset_x n) (offset_z n) action_orientation with
  | Return (Some s) => s
  | _ => EmptyString
  end.

Lemma grid_size_pos : 1 # 1000 < grid_size b.
Proof. rewrite grid_size_quarter. reflexivity. Qed.

Lemma grid_size_nonzero : ~ grid_size b == 0.
Proof. rewrite grid_size_quarter. discriminate. Qed.

Lemma neighbor_step (n : Key) :
  In n (nbrs (build_graph b) (BFS_key_for_point cur)) ->
  dict_get Key_eqb (all_points_of b) n = Some (point_for n)
  /\ orientation_loop r (offset_x n) (offset_z n) action_orientation
     = Return (Some (name_for n))
  /\ In (point_for n) (grid_points b)
  /\ BFS_key_for_point (point_for n) = n
  /\ exists t a c,
       move_angle (name_for n) = Some t
       /\ compass ((round_half_even r + t) mod 360) = (a, c)
       /\ pos_x (point_for n) - pos_x cur == inject_Z a * grid_size b
       /\ pos_z (point_for n) - pos_z cur == inject_Z c * grid_size b.
Proof.
  intros Hn. apply nbrs_grid_edge in Hn as (p' & q' & Hp' & Hq' & Kp & Kq & Hstep).
  destruct (all_points_exists b q' Hq') as (q & Hget). rewrite Kq in Hget.
  destruct (all_points_get b n q Hget) as (Hq & Kn).
  assert (Ept : point_for n = q) by (unfold point_for; now rewrite Hget).
  pose proof grid_size_pos as Hpos.
  assert (Hcp : xz_eq (xz_of cur) (xz_of p')).
  { apply (lattice_key_xz_eq (grid_size b) x0 z0); auto. }
  assert (Hqq : xz_eq (xz_of q) (xz_of q')).
  { apply (lattice_key_xz_eq (grid_size b) x0 z0); auto. congruence. }
  destruct (one_step_apart_unit b x0 z0 p' q' grid_size_quarter
              (grid_on_lattice p' Hp') (grid_on_lattice q' Hq') Hstep)
    as (a & c & Hu & Hx & Hz).
  destruct Hcp as [Hcx Hcz]. destruct Hqq as [Hqx Hqz]. simpl in *.
  assert (Hx' : pos_x q - pos_x cur == inject_Z a * grid_size b)
    by (rewrite Hqx, Hcx; exact Hx).
  assert (Hz' : pos_z q - pos_z cur == inject_Z c * grid_size b)
    by (rewrite Hqz, Hcz; exact Hz).
  assert (Ox : offset_x n = a).
  { unfold offset_x. rewrite Ept. apply offset_round; [apply grid_size_nonzero | exact Hx']. }
  assert (Oz : offset_z n = c).
  { unfold offset_z. rewrite Ept. apply offset_round; [apply grid_size_nonzero | exact Hz']. }
  destruct (orientation_loop_unit r a c r_heading Hu) as (name & t & Hloop & Hangle & Hcomp).
  assert (Enm : name_for n = name).
  { unfold name_for. now rewrite Ox, Oz, Hloop. }
  rewrite Ept, Ox, Oz, Enm. repeat split; auto.
  exists t, a, c. auto.
Qed.

Lemma name_for_inj (n n' : Key) :
  In n (nbrs (build_graph b) (BFS_key_for_point cur)) ->
  In n' (nbrs (build_graph b) (BFS_key_for_point cur)) ->
  name_for n = name_for n' -> n = n'.
Proof.
  intros Hn Hn' E.
  destruct (neighbor_step n Hn) as (_ & _ & _ & K & t & a & c & Ha & Hc & Hx & Hz).
  destruct (neighbor_step n' Hn') as (_ & _ & _ & K' & t' & a' & c' & Ha' & Hc' & Hx' & Hz').
  rewrite E in Ha. rewrite Ha in Ha'. injection Ha' as <-.
  rewrite Hc in Hc'. injection Hc' as <- <-.
  rewrite <- K, <- K'. apply xz_eq_key. split; simpl; lra.
Qed.

(** The dict [move_points]. *)
Definition move_points_of (ns : list Key) : list (string * Position) :=
  dict_of string Position String.eqb (map (fun n => (name_for n, point_for n)) ns) [].

Lemma move_relative_points_eval (ns : list Key) :
  neighbors (build_graph b) (BFS_key_for_point cur) = Some ns ->
  move_relative_points b (all_points_of b) (build_graph b) cur r
  = Return (move_points_of ns).
Proof.
  intros Hns. unfold move_relative_points. rewrite Hns.
  assert (Hall : forall n, In n ns ->
                   In n (nbrs (build_graph b) (BFS_key_for_point cur))).
  { intros n H. unfold nbrs. now rewrite Hns. }
  unfold move_points_of, dict_of. rewrite fold_left_map. cbn [fst snd].
  generalize (@nil (string * Position)) as mp.
  assert (Eg : Qeq_bool (grid_size b) 0 = false).
  { rewrite grid_size_quarter. reflexivity. }
  rewrite Eg.
  clear Hns. induction ns as [| n ns IH]; intros mp; cbn [fold_left];
    [reflexivity |].
  destruct (neighbor_step n (Hall n (or_introl eq_refl))) as (Hget & Hloop & _).
  rewrite Hget. cbn [obind lookup_or_KeyError].
  fold (point_for n). fold (offset_x n) (offset_z n).
  rewrite Hloop. cbn [obind].
  apply IH. intros m Hm. apply Hall. now right.
Qed.

(** The dict [inv_pms] gives, for a neighbour key, the action that leads
    to it. *)
Lemma inv_pms_get (ns : list Key) (n : Key) :
  neighbors (build_graph b) (BFS_key_for_point cur) = Some ns ->
  In n ns ->
  dict_get Key_eqb
    (fold_left (fun d kv => dict_set Key_eqb d (BFS_key_for_point (snd kv)) (fst kv))
               (move_points_of ns) [])
    n = Some (name_for n).
Proof.
  intros Hns Hn.
  assert (Hall : forall m, In m ns ->
                   In m (nbrs (build_graph b) (BFS_key_for_point cur))).
  { intros m H. unfold nbrs. now rewrite Hns. }
  assert (Hmp : forall nm pt, In (nm, pt) (move_points_of ns) ->
                  exists m, In m ns /\ nm = name_for m /\ pt = point_for m).
  { intros nm pt H. unfold move_points_of in H.
    apply (dict_of_In _ _ _ String.eqb_eq) in H as [H | []].
    apply in_map_iff in H as (m & Hm & Hin). injection Hm as <- <-. eauto. }
  assert (Hhas : In (name_for n, point_for n) (move_points_of ns)).
  { apply (dict_get_In _ _ _ String.eqb_eq). unfold move_points_of.
    apply (dict_of_get _ _ _ String.eqb_eq).
    - apply in_map_iff. exists n. auto.
    - intros v' H. apply in_map_iff in H as (m & Hm & Hin).
      injection Hm as E <-. f_equal. symmetry. apply name_for_inj; auto. }
  rewrite <- (fold_left_map
                (fun d (kv : Key * string) => dict_set Key_eqb d (fst kv) (snd kv))
                (fun kv : string * Position => (BFS_key_for_point (snd kv), fst kv))).
  apply (dict_of_get _ _ _ Key_eqb_eq).
  - apply in_map_iff. exists (name_for n, point_for n). split; [| exact Hhas].
    simpl. f_equal. apply (neighbor_step n (Hall n Hn)).
  - intros v' H. apply in_map_iff in H as ([nm pt] & Hm & Hin).
    simpl in Hm. injection Hm as Hk <-.
    destruct (Hmp nm pt Hin) as (m & Hm & -> & ->).
    f_equal. rewrite <- Hk.
    destruct (neighbor_step m (Hall m Hm)) as (_ & _ & _ & K & _). now rewrite K.
Qed.

End MovePlan.

Lemma run_actions_app (g : Q) (s : Pose) (l1 l2 : list Action) :
  run_actions g s (l1 ++ l2)
  = match run_actions g s l1 with
    | Some s' => run_actions g s' l2
    | None => None
    end.
Proof.
  revert s. induction l1 as [| a l1 IH]; intros s; simpl; [reflexivity |].
  destruct (run_action g s a); [apply IH | reflexivity].
Qed.

(** Where a list of translations leads from [s] at heading [r]. *)
Fixpoint moves_dest (g r : Q) (s : XZ) (acts : list Action) : XZ :=
  match acts with
  | [] => s
  | a :: l =>
      match move_angle (action_name a) with
      | Some t =>
          let d := compass ((round_half_even r + t) mod 360) in
          moves_dest g r (mkXZ (xz_x s + g * inject_Z (fst d))
                               (xz_z s + g * inject_Z (snd d))) l
      | None => s
      end
  end.

Lemma run_moves (g r : Q) (acts : list Action) :
  Forall (fun a => is_move a = true) acts ->
  forall s h,
    run_actions g (mkPose s r h) acts = Some (mkPose (moves_dest g r s acts) r h).
Proof.
  induction 1 as [| a acts Ha Hm IH]; intros s h; simpl; [reflexivity |].
  unfold run_action. unfold is_move in Ha.
  destruct (move_angle (action_name a)) as [t |]; [| discriminate].
  simpl. apply IH.
Qed.

(** Translations commute with moving the starting place. *)
Lemma moves_dest_proper (g r : Q) (acts : list Action) (s s' : XZ) :
  xz_eq s s' -> xz_eq (moves_dest g r s acts) (moves_dest g r s' acts).
Proof.
  revert s s'. induction acts as [| a acts IH]; intros s s' Heq; simpl; [exact Heq |].
  destruct (move_angle (action_name a)) as [t |]; [| exact Heq].
  apply IH. destruct Heq as [Hx Hz].
  split; simpl; [rewrite Hx | rewrite Hz]; reflexivity.
Qed.

Lemma plan_horizons_run (hA hB : Q) :
  In hA tilts -> In hB tilts ->
  exists hs,
    plan_horizons hA hB = Return hs
    /\ Forall (fun a => is_move a = false) hs
    /\ forall g s r, run_actions g (mkPose s r hA) hs = Some (mkPose s r hB).
Proof.
  unfold tilts. simpl. intros HA HB.
  destruct HA as [<- | [<- | [<- | [<- | []]]]];
    destruct HB as [<- | [<- | [<- | [<- | []]]]];
    eexists; (split; [vm_compute; reflexivity |]);
    (split; [repeat constructor | intros; reflexivity]).
Qed.

Lemma plan_rotations_run (rA rB : Q) :
  In rA headings -> In rB headings ->
  Forall (fun a => is_move a = false) (plan_rotations rA rB)
  /\ forall g s h,
       run_actions g (mkPose s rA h) (plan_rotations rA rB) = Some (mkPose s rB h).
Proof.
  unfold headings. simpl. intros HA HB.
  destruct HA as [<- | [<- | [<- | [<- | []]]]];
    destruct HB as [<- | [<- | [<- | [<- | []]]]];
    (split; [vm_compute; repeat constructor | intros; reflexivity]).
Qed.

Section PlanCorrect.

Variable b : BFSController.
Variables x0 z0 : Q.
Hypothesis grid_size_quarter : grid_size b = 25 # 100.
Hypothesis grid_on_lattice :
  forall p, In p (grid_points b) -> on_lattice (grid_size b) x0 z0 (xz_of p).
Variable r : Q.
Hypothesis r_heading : In r headings.

Lemma plan_moves_ok (l : list Key) (cur : Position) :
  In cur (grid_points b) ->
  chain (build_graph b) (BFS_key_for_point cur) l ->
  exists acts fin,
    plan_moves b (all_points_of b) (build_graph b) r cur l = Return acts
    /\ Forall (fun a => is_move a = true) acts
    /\ In fin (grid_points b)
    /\ BFS_key_for_point fin = last l (BFS_key_for_point cur)
    /\ xz_eq (moves_dest (grid_size b) r (xz_of cur) acts) (xz_of fin).
Proof.
  revert cur. induction l as [| n l IH]; intros cur Hcur Hchain.
  - exists [], cur. simpl. repeat split; auto; reflexivity.
  - destruct Hchain as [Hn Hchain].
    destruct (neighbor_step b x0 z0 grid_size_quarter grid_on_lattice cur r Hcur
                r_heading n Hn)
      as (Hget & _ & Hq & Kq & t1 & a & c & Hangle & Hcomp & Hx & Hz).
    set (q := point_for b cur n) in *.
    destruct (neighbors (build_graph b) (BFS_key_for_point cur)) as [ns |] eqn:Hns;
      [| unfold nbrs in Hn; rewrite Hns in Hn; destruct Hn].
    assert (Hin : In n ns) by (unfold nbrs in Hn; now rewrite Hns in Hn).
    rewrite <- Kq in Hchain.
    destruct (IH q Hq Hchain) as (acts & fin & Hplan & Hmoves & Hfin & Kfin & Heq).
    exists (act (name_for b cur r n) :: acts), fin.
    split; [| split; [| split; [| split]]].
    + cbn [plan_moves].
      rewrite (move_relative_points_eval b x0 z0 grid_size_quarter grid_on_lattice
                 cur r Hcur r_heading ns Hns).
      cbn [obind].
      rewrite (inv_pms_get b x0 z0 grid_size_quarter grid_on_lattice cur r Hcur
                 r_heading ns n Hns Hin).
      cbn [obind lookup_or_KeyError]. rewrite Hget. cbn [obind lookup_or_KeyError].
      fold q. rewrite Hplan. reflexivity.
    + constructor; [| exact Hmoves]. unfold is_move, act. simpl. now rewrite Hangle.
    + exact Hfin.
    + rewrite Kfin, Kq. symmetry. apply last_cons.
    + cbn [moves_dest act action_name]. rewrite Hangle. cbv zeta.
      rewrite Hcomp. cbn [fst snd xz_of xz_x xz_z].
      destruct Heq as [E1 E2].
      assert (Hs1 : xz_eq (mkXZ (pos_x cur + grid_size b * inject_Z a)
                                (pos_z cur + grid_size b * inject_Z c))
                          (xz_of q)).
      { split; simpl; lra. }
      destruct (moves_dest_proper (grid_size b) r acts _ _ Hs1) as [E3 E4].
      split; [rewrite E3; exact E1 | rewrite E4; exact E2].
Qed.

End PlanCorrect.

(** C3 (amended): when the grid step is 0.25 and the grid points lie on one
    axis-aligned lattice of that step, then for every connected reachability
    graph built from them and all grid points A and B that are nodes of it,
    with headings among 0, 90, 180, 270 and tilts among 330, 0, 30, 60,
    [shortest_plan] returns a list of actions; executed from A's pose it
    ends at B's place, with B's heading and tilt; and the list consists of
    translations followed by the tilt and rotation actions. *)
Theorem shortest_plan_reaches (b : BFSController) (x0 z0 : Q) (A B : Agent) :
  grid_size b = 25 # 100 ->
  (forall p, In p (grid_points b) -> on_lattice (grid_size b) x0 z0 (xz_of p)) ->
  graph_connected (build_graph b) ->
  In (agent_position A) (grid_points b) ->
  In (agent_position B) (grid_points b) ->
  has_node (build_graph b) (BFS_key_for_point (agent_position A)) = true ->
  has_node (build_graph b) (BFS_key_for_point (agent_position B)) = true ->
  In (agent_rotation_y A) headings -> In (agent_rotation_y B) headings ->
  In (agent_cameraHorizon A) tilts -> In (agent_cameraHorizon B) tilts ->
  exists moves turns final,
    shortest_plan b (build_graph b) A B = Some (Return (moves ++ turns))
    /\ Forall (fun a => is_move a = true) moves
    /\ Forall (fun a => is_move a = false) turns
    /\ run_actions (grid_size b) (pose_of A) (moves ++ turns) = Some final
    /\ xz_eq (pose_xz final) (xz_of (agent_position B))
    /\ pose_rotation final = agent_rotation_y B
    /\ pose_horizon final = agent_cameraHorizon B.
Proof.
  intros Hg Hlat Hconn HA HB NA NB RA RB TA TB.
  destruct (shortest_path_finds (build_graph b) _ _ NA NB (Hconn _ _ NA NB))
    as (l & Hpath & Hchain & Hlast).
  destruct (plan_moves_ok b x0 z0 Hg Hlat (agent_rotation_y A) RA l
              (agent_position A) HA Hchain)
    as (moves & fin & Hplan & Hmoves & Hfin & Kfin & Heq).
  destruct (plan_horizons_run _ _ TA TB) as (hs & Hhs & Hhs_turn & Hhs_run).
  destruct (plan_rotations_run _ _ RA RB) as (Hrot_turn & Hrot_run).
  set (rots := plan_rotations (agent_rotation_y A) (agent_rotation_y B)) in *.
  exists moves, (hs ++ rots).
  exists (mkPose (moves_dest (grid_size b) (agent_rotation_y A)
                    (xz_of (agent_position A)) moves)
                 (agent_rotation_y B) (agent_cameraHorizon B)).
  split; [| split; [| split; [| split; [| split; [| split]]]]].
  - unfold shortest_plan. rewrite Hpath. cbn [tl].
    fold (all_points_of b). rewrite Hplan. cbn [obind]. rewrite Hhs.
    reflexivity.
  - exact Hmoves.
  - apply Forall_app. split; assumption.
  - unfold pose_of. rewrite run_actions_app, (run_moves _ _ _ Hmoves).
    rewrite run_actions_app, Hhs_run. apply Hrot_run.
  - cbn [pose_xz]. rewrite Hlast in Kfin.
    assert (Hfb : xz_eq (xz_of fin) (xz_of (agent_position B))).
    { apply (lattice_key_xz_eq (grid_size b) x0 z0); auto.
      rewrite Hg. reflexivity. }
    destruct Heq as [E1 E2], Hfb as [E3 E4]. split; lra.
  - reflexivity.
  - reflexivity.
Qed.

Ltac walk_by_steps :=
  first
    [ apply walk_here
    | solve [eapply walk_on; [apply walk_here | vm_compute; auto]]
    | solve [eapply walk_on;
             [eapply walk_on; [apply walk_here | vm_compute; auto]
             | vm_compute; auto]] ].

Lemma has_node_In (g : Graph) (u : Key) :
  has_node g u = true -> In u (map fst g).
Proof.
  unfold has_node. rewrite existsb_exists. intros ([k v] & Hin & E).
  apply Key_eqb_eq in E. simpl in E. subst. now apply (in_map fst g (u, v)).
Qed.

(** C3 (as stated): the two points of [grid_345] are 0.25 apart, so the
    graph built from them is connected and holds both; but the step from
    one to the other is along no axis, the table has no action for it, and
    [shortest_plan] raises instead of returning actions. *)
Lemma shortest_plan_off_axis :
  graph_connected (build_graph (grid_of grid_345))
  /\ In (agent_position agent_345_start) grid_345
  /\ In (agent_position agent_345_goal) grid_345
  /\ has_node (build_graph (grid_of grid_345))
       (BFS_key_for_point (agent_position agent_345_start)) = true
  /\ has_node (build_graph (grid_of grid_345))
       (BFS_key_for_point (agent_position agent_345_goal)) = true
  /\ shortest_plan (grid_of grid_345) (build_graph (grid_of grid_345))
       agent_345_start agent_345_goal = Some (Raise KeyError).
Proof.
  split; [| repeat split; try (vm_compute; reflexivity); simpl; auto].
  intros u v Hu Hv. apply has_node_In in Hu, Hv.
  vm_compute in Hu, Hv.
  destruct Hu as [<- | [<- | []]]; destruct Hv as [<- | [<- | []]];
    walk_by_steps.
Qed.

Lemma shortest_plan_reaches_witness :
  exists moves turns final,
    shortest_plan (grid_of grid_L) (build_graph (grid_of grid_L))
                  agent_start agent_goal = Some (Return (moves ++ turns))
    /\ Forall (fun a => is_move a = true) moves
    /\ Forall (fun a => is_move a = false) turns
    /\ run_actions (grid_size (grid_of grid_L)) (pose_of agent_start) (moves ++ turns)
       = Some final
    /\ xz_eq (pose_xz final) (xz_of (agent_position agent_goal))
    /\ pose_rotation final = agent_rotation_y agent_goal
    /\ pose_horizon final = agent_cameraHorizon agent_goal.
Proof.
  apply (shortest_plan_reaches (grid_of grid_L) 0 0 agent_start agent_goal).
  - reflexivity.
  - intros p [<- | [<- | [<- | []]]].
    + exists 0%Z, 0%Z. split; reflexivity.
    + exists 1%Z, 0%Z. split; reflexivity.
    + exists 1%Z, 1%Z. split; reflexivity.
  - intros u v Hu Hv. apply has_node_In in Hu, Hv.
    vm_compute in Hu, Hv.
    destruct Hu as [<- | [<- | [<- | []]]]; destruct Hv as [<- | [<- | [<- | []]]];
      walk_by_steps.
  - simpl; auto.
  - simpl; auto.
  - reflexivity.
  - reflexivity.
  - simpl; auto.
  - simpl; auto.
  - simpl; auto.
  - simpl; auto.
Defined.

(** The plan of the witness. *)
Example shortest_plan_L :
  shortest_plan (grid_of grid_L) (build_graph (grid_of grid_L))
                agent_start agent_goal
  = Some (Return [act "MoveAhead"; act "MoveLeft"; act "LookDown";
                  act "RotateLeft"; act "RotateLeft"]).
Proof. reflexivity. Qed.

(** The scenario of the room of half-width 0.5, explored from its centre:
    25 grid points, no islands, and a plan of eight translations, four of
    each kind, from one corner to the opposite one. *)
Example room_scenario :
  match search_all_closed (cls := Controller_class) (serve_room inside_room)
          200 "FloorPlan1" bfs_started origin with
  | Some (b', _, Return _) =>
      length (grid_points b') = 25%nat
      /\ has_islands b' = Some (Return false)
      /\ match shortest_plan b' (build_graph b')
                 (mkAgent (mkPos (-1 # 2) 0 (-1 # 2)) 0 0)
                 (mkAgent (mkPos (1 # 2) 0 (1 # 2)) 0 0) with
         | Some (Return actions) =>
             length actions = 8%nat
             /\ length (filter (fun a => String.eqb (action_name a) "MoveRight") actions)
                = 4%nat
             /\ length (filter (fun a => String.eqb (action_name a) "MoveAhead") actions)
                = 4%nat
         | _ => False
         end
  | _ => False
  end.
Proof. vm_compute. repeat split; reflexivity. Qed.

(** * [has_islands] and the graph of points one step apart *)

Lemma reach_link_equiv (L L' : Position -> Position -> Prop)
    (gps : list Position) (p q : Position) :
  (forall a c, In a gps -> In c gps -> L a c -> L' a c) ->
  In p gps -> reach L gps p q -> reach L' gps p q.
Proof.
  intros Himp Hp H. induction H as [| q r Hpq IH Hr Hl]; [apply reach_refl |].
  apply reach_step with q; auto. apply Himp; auto.
  now apply reach_in with L p.
Qed.

Lemma connected_link_equiv (L L' : Position -> Position -> Prop)
    (gps : list Position) :
  (forall a c, In a gps -> In c gps -> (L a c <-> L' a c)) ->
  (connected L gps <-> connected L' gps).
Proof.
  intros Heq. split; intros Hc p q Hp Hq.
  - apply (reach_link_equiv L L'); auto. intros a c Ha Hc'. now apply Heq.
  - apply (reach_link_equiv L' L); auto. intros a c Ha Hc'. now apply Heq.
Qed.

Lemma lattice_difference (g x0 z0 : Q) (p q : XZ) :
  on_lattice g x0 z0 p -> on_lattice g x0 z0 q ->
  exists a c : Z,
    xz_x q - xz_x p == inject_Z a * g /\ xz_z q - xz_z p == inject_Z c * g
    /\ distance_sq p q
       == (inject_Z a * inject_Z a + inject_Z c * inject_Z c) * (g * g).
Proof.
  intros (i & j & Hx & Hz) (i' & j' & Hx' & Hz').
  exists (i' - i)%Z, (j' - j)%Z. unfold distance_sq.
  rewrite Hx, Hz, Hx', Hz', !inject_Z_minus. repeat split; ring.
Qed.

(** On a lattice of step above a tenth, the adjacency of [has_islands] is
    being exactly one step apart. *)
Lemma island_link_lattice (g x0 z0 : Q) (p q : Position) :
  1 # 10 < g ->
  on_lattice g x0 z0 (xz_of p) -> on_lattice g x0 z0 (xz_of q) ->
  (island_link g p q <-> at_distance g 0 p q).
Proof.
  intros Hg Hp Hq.
  assert (Hgg : (1 # 100) < g * g).
  { assert (H : (1 # 10) * g < g * g) by (apply Qmult_lt_r; lra). lra. }
  split.
  - intros (t & Ht & Hd).
    pose proof (cardinal_targets_on_lattice g x0 z0 p t Hp Ht) as Hlt.
    destruct (lattice_difference g x0 z0 t (xz_of q) Hlt Hq)
      as (a & c & Hx & Hz & Hdist).
    assert (Hzero : a = 0%Z /\ c = 0%Z).
    { destruct (Z.eq_dec a 0) as [Ea | Ea]; [destruct (Z.eq_dec c 0) as [Ec | Ec] |];
        [auto | exfalso | exfalso].
      - pose proof (inject_Z_square_sum a c (or_intror Ec)) as H1.
        rewrite Hdist in Hd.
        assert (H2 : 1 * (g * g) <= (inject_Z a * inject_Z a + inject_Z c * inject_Z c) * (g * g))
          by (apply Qmult_le_compat_r; lra).
        lra.
      - pose proof (inject_Z_square_sum a c (or_introl Ea)) as H1.
        rewrite Hdist in Hd.
        assert (H2 : 1 * (g * g) <= (inject_Z a * inject_Z a + inject_Z c * inject_Z c) * (g * g))
          by (apply Qmult_le_compat_r; lra).
        lra. }
    destruct Hzero as [-> ->]. change (inject_Z 0) with 0 in Hx, Hz.
    assert (Ed : distance_sq (xz_of p) (xz_of q) == g * g).
    { unfold cardinal_targets in Ht. simpl in Ht.
      destruct Ht as [<- | [<- | [<- | [<- | []]]]]; simpl in Hx, Hz;
        unfold distance_sq; simpl;
        [ setoid_replace (pos_x p - pos_x q) with (- g) by lra
        | setoid_replace (pos_x p - pos_x q) with g by lra
        | setoid_replace (pos_x p - pos_x q) with 0 by lra
        | setoid_replace (pos_x p - pos_x q) with 0 by lra ];
        [ setoid_replace (pos_z p - pos_z q) with 0 by lra
        | setoid_replace (pos_z p - pos_z q) with 0 by lra
        | setoid_replace (pos_z p - pos_z q) with (- g) by lra
        | setoid_replace (pos_z p - pos_z q) with g by lra ]; ring. }
    unfold at_distance. rewrite Ed. split; [| right].
    + setoid_replace ((g + 0) * (g + 0)) with (g * g) by ring. lra.
    + setoid_replace ((g - 0) * (g - 0)) with (g * g) by ring. lra.
  - intros [Hup Hlow].
    assert (Ed : distance_sq (xz_of p) (xz_of q) == g * g).
    { setoid_replace ((g + 0) * (g + 0)) with (g * g) in Hup by ring.
      destruct Hlow as [Hlow | Hlow]; [lra |].
      setoid_replace ((g - 0) * (g - 0)) with (g * g) in Hlow by ring. lra. }
    destruct (lattice_difference g x0 z0 (xz_of p) (xz_of q) Hp Hq)
      as (a & c & Hx & Hz & Hdist).
    simpl in Hx, Hz.
    assert (Hone : inject_Z (a * a + c * c) == inject_Z 1).
    { rewrite inject_Z_plus, !inject_Z_mult. change (inject_Z 1) with 1.
      assert (E : (inject_Z a * inject_Z a + inject_Z c * inject_Z c - 1) * (g * g) == 0).
      { setoid_replace
          ((inject_Z a * inject_Z a + inject_Z c * inject_Z c - 1) * (g * g))
          with ((inject_Z a * inject_Z a + inject_Z c * inject_Z c) * (g * g) - g * g)
          by ring.
        rewrite <- Hdist, Ed. ring. }
      apply Qmult_integral in E as [E | E]; lra. }
    rewrite inject_Z_injective in Hone.
    apply unit_vec_squares in Hone.
    unfold island_link, cardinal_targets.
    destruct Hone as [[-> ->] | [[-> ->] | [[-> ->] | [-> ->]]]];
      change (inject_Z 1) with 1 in *; change (inject_Z 0) with 0 in *;
      change (inject_Z (-1)) with (- (1)) in *.
    + exists (mkXZ (pos_x p + g) (pos_z p)). split; [simpl; auto |].
      unfold distance_sq. simpl.
      setoid_replace (pos_x p + g - pos_x q) with 0 by lra.
      setoid_replace (pos_z p - pos_z q) with 0 by lra. reflexivity.
    + exists (mkXZ (pos_x p - g) (pos_z p)). split; [simpl; auto |].
      unfold distance_sq. simpl.
      setoid_replace (pos_x p - g - pos_x q) with 0 by lra.
      setoid_replace (pos_z p - pos_z q) with 0 by lra. reflexivity.
    + exists (mkXZ (pos_x p) (pos_z p + g)). split; [simpl; auto 6 |].
      unfold distance_sq. simpl.
      setoid_replace (pos_x p - pos_x q) with 0 by lra.
      setoid_replace (pos_z p + g - pos_z q) with 0 by lra. reflexivity.
    + exists (mkXZ (pos_x p) (pos_z p - g)). split; [simpl; auto 6 |].
      unfold distance_sq. simpl.
      setoid_replace (pos_x p - pos_x q) with 0 by lra.
      setoid_replace (pos_z p - g - pos_z q) with 0 by lra. reflexivity.
Qed.

(** C4 (amended): for a non-empty list of pairwise distinct grid points,
    [has_islands] returns, and it returns true exactly when the grid is
    disconnected, false exactly when it is connected, in the graph that has
    an edge from [p] to [q] when [q] lies less than 0.05 from the place one
    grid step from [p] along +x, -x, +z or -z.  When the points lie on one
    axis-aligned lattice whose step is the grid step, above a tenth, this
    is the graph whose edges join the points exactly one grid step apart. *)
Theorem has_islands_connected (b : BFSController) :
  grid_points b <> [] ->
  NoDup (map dumps (grid_points b)) ->
  exists v,
    has_islands b = Some (Return v)
    /\ (v = true <-> ~ connected (island_link (grid_size b)) (grid_points b))
    /\ (v = false <-> connected (island_link (grid_size b)) (grid_points b))
    /\ (forall x0 z0,
          1 # 10 < grid_size b ->
          (forall p, In p (grid_points b) ->
                     on_lattice (grid_size b) x0 z0 (xz_of p)) ->
          (v = true
           <-> ~ connected (at_distance (grid_size b) 0) (grid_points b))
          /\ (v = false
              <-> connected (at_distance (grid_size b) 0) (grid_points b))).
Proof.
  intros Hne Hnd.
  destruct (has_islands_flood_fill b Hne Hnd) as (v & Hrun & Ht & Hf).
  exists v. split; [exact Hrun | split; [exact Ht | split; [exact Hf |]]].
  intros x0 z0 Hg Hlat.
  assert (Heq : connected (island_link (grid_size b)) (grid_points b)
                <-> connected (at_distance (grid_size b) 0) (grid_points b)).
  { apply connected_link_equiv. intros a c Ha Hc.
    apply (island_link_lattice (grid_size b) x0 z0); auto. }
  rewrite <- Heq. split; assumption.
Qed.

(** C4 (as stated): whatever the tolerance, [has_islands] does not decide
    the connectivity of the graph whose edges join the points at distance
    [grid_size].  The two points of [grid_345] are exactly 0.25 apart, so
    that graph is connected, and [has_islands] returns true. *)
Lemma has_islands_not_by_distance :
  ~ exists eps : Q,
      0 <= eps /\
      forall (gps : list Position) (v : bool),
        gps <> [] ->
        has_islands (grid_of gps) = Some (Return v) ->
        (v = true <-> ~ connected (at_distance (grid_size (grid_of gps)) eps) gps).
Proof.
  intros (eps & Heps & H).
  assert (Hrun : has_islands (grid_of grid_345) = Some (Return true))
    by (vm_compute; reflexivity).
  destruct (H grid_345 true ltac:(discriminate) Hrun) as [Hdisc _].
  apply Hdisc; [reflexivity |].
  assert (Hedge : forall p q, In p grid_345 -> In q grid_345 -> p <> q ->
                    at_distance (grid_size (grid_of grid_345)) eps p q).
  { assert (Hup : (25 # 100) * (25 # 100) <= ((25 # 100) + eps) * ((25 # 100) + eps))
      by (apply Qsquare_le; lra).
    assert (Hlow : (25 # 100) - eps <= 0
                   \/ ((25 # 100) - eps) * ((25 # 100) - eps) <= (25 # 100) * (25 # 100)).
    { destruct (Qlt_le_dec 0 ((25 # 100) - eps)) as [Hpos | Hneg]; [right | left; lra].
      apply Qsquare_le; lra. }
    intros p q Hp Hq Hpq. simpl in Hp, Hq.
    destruct Hp as [<- | [<- | []]]; destruct Hq as [<- | [<- | []]];
      try congruence;
      unfold at_distance, distance_sq; simpl; (split; [lra | destruct Hlow; [left | right]; lra]). }
  intros p q Hp Hq.
  assert (Hdec : p = q \/ p <> q).
  { simpl in Hp, Hq.
    destruct Hp as [<- | [<- | []]]; destruct Hq as [<- | [<- | []]];
      (now left) || (right; discriminate). }
  destruct Hdec as [-> | Hpq]; [apply reach_refl |].
  apply reach_step with p; [apply reach_refl | exact Hq | now apply Hedge].
Qed.

Lemma has_islands_connected_witness :
  exists v,
    has_islands (grid_of grid_pair_and_stray) = Some (Return v)
    /\ (v = true
        <-> ~ connected (island_link (grid_size (grid_of grid_pair_and_stray)))
                        (grid_points (grid_of grid_pair_and_stray)))
    /\ (v = false
        <-> connected (island_link (grid_size (grid_of grid_pair_and_stray)))
                      (grid_points (grid_of grid_pair_and_stray)))
    /\ (forall x0 z0,
          1 # 10 < grid_size (grid_of grid_pair_and_stray) ->
          (forall p, In p (grid_points (grid_of grid_pair_and_stray)) ->
                     on_lattice (grid_size (grid_of grid_pair_and_stray)) x0 z0 (xz_of p)) ->
          (v = true
           <-> ~ connected (at_distance (grid_size (grid_of grid_pair_and_stray)) 0)
                           (grid_points (grid_of grid_pair_and_stray)))
          /\ (v = false
              <-> connected (at_distance (grid_size (grid_of grid_pair_and_stray)) 0)
                            (grid_points (grid_of grid_pair_and_stray)))).
Proof.
  apply (has_islands_connected (grid_of grid_pair_and_stray)).
  - discriminate.
  - vm_compute. repeat constructor; simpl; intuition discriminate.
Defined.
(** * Further properties of [Controller.step] and [Controller.reset] *)


Lemma asscalar_fixed (v : Value) : is_numpy v = false -> asscalar v = v.
Proof. destruct v; simpl; congruence. Qed.


Section StepMore.

Variable World : Type.
Variable serve : World -> Action -> World * Event.
Context {cls : ControllerClass}.


(** Every way [step] can fail.  It raises in four situations and no other:
    a rejected action before any event was received fails on
    [self.last_event.metadata]; an accepted action with an event still
    waiting on the request queue fails the assertion; with the request queue
    empty and the response queue taken the put fails; in these three the
    engine is not asked and controller and engine stay as they were.
    Otherwise the engine is asked, and [step] raises only when told to raise
    for failure and the answer reports failure, having recorded the answer
    as the last event. *)
Theorem step_raises_exactly (c c' : Controller) (w w' : World)
    (action : Action) (raise_for_failure : bool) (e : Exn) :
  step serve c w action raise_for_failure = (c', w', Raise e)
  <-> (c' = c /\ w' = w
       /\ ((e = AttributeError /\ _check_action action = false
            /\ last_event c = None)
           \/ (e = AssertionError [] /\ _check_action action = true
               /\ request_queue c <> None)
           \/ (e = QueueFull /\ _check_action action = true
               /\ request_queue c = None /\ response_queue c <> None)))
      \/ (e = AssertionError [] /\ raise_for_failure = true
          /\ _check_action action = true
          /\ request_queue c = None /\ response_queue c = None
          /\ exists ev, serve w (action_filtered action) = (w', ev)
                        /\ lastActionSuccess (metadata ev) = false
                        /\ c' = set_last_event c ev).
Proof.
  unfold step. split.
  - destruct (_check_action action) eqn:Hchk; cbn [negb].
    + destruct (request_queue c) as [waiting |] eqn:Hreq.
      * intros H. injection H as <- <- <-. left.
        repeat split. right. left. repeat split. discriminate.
      * destruct (response_queue c) as [taken |] eqn:Hres.
        -- intros H. injection H as <- <- <-. left.
           repeat split. right. right. repeat split. discriminate.
        -- destruct (serve w (action_filtered action)) as [w1 ev] eqn:Hs.
           destruct raise_for_failure; cbn [andb]; [| discriminate].
           destruct (lastActionSuccess (metadata ev)) eqn:Ok; cbn [negb];
             [discriminate |].
           intros H. injection H as <- <- <-. right.
           repeat split. exists ev. repeat split. exact Ok.
    + destruct (last_event c) as [le |] eqn:Hlast; [discriminate |].
      intros H. injection H as <- <- <-. left.
      repeat split. left. repeat split.
  - intros [(-> & -> & [(-> & Hchk & Hlast) | [(-> & Hchk & Hreq)
                                              | (-> & Hchk & Hreq & Hres)]])
            | (-> & -> & Hchk & Hreq & Hres & ev & Hs & Ok & ->)];
      rewrite Hchk; cbn [negb].
    + now rewrite Hlast.
    + destruct (request_queue c); [reflexivity | congruence].
    + rewrite Hreq. destruct (response_queue c); [reflexivity | congruence].
    + rewrite Hreq, Hres, Hs, Ok. reflexivity.
Qed.

(** Rejection is stable: once a rejected [step] has returned, any further
    rejected [step] returns an equal event and leaves controller and engine
    in the same state. *)
Theorem step_rejected_twice (c c1 : Controller) (w w1 : World)
    (a1 a2 : Action) (r1 r2 : bool) (e1 : Event) :
  _check_action a1 = false ->
  _check_action a2 = false ->
  step serve c w a1 r1 = (c1, w1, Return e1) ->
  step serve c1 w1 a2 r2 = (c1, w1, Return e1)
  /\ w1 = w
  /\ lastActionSuccess (metadata e1) = false.
Proof.
  intros H1 H2 Hs. unfold step in *. rewrite H1 in Hs. rewrite H2. simpl in *.
  destruct (last_event c) as [le |]; [| discriminate].
  inversion Hs; subst. simpl. repeat split.
Qed.

(** [reset] never consults [_check_action]: on a controller with an empty
    request queue it is the [step] of the base class on the Reset action,
    whatever the class of the controller. *)
Theorem reset_is_unchecked_step (c : Controller) (w : World)
    (scene_name : string) :
  request_queue c = None ->
  reset serve c w scene_name
  = step (cls := Controller_class) serve c w
         (mkAction "Reset" [("sceneName"%string, VStr scene_name);
                            ("sequenceId"%string, VNum 0)])
         false.
Proof.
  intros Hreq. unfold reset, step. simpl. rewrite Hreq.
  destruct (response_queue c); [reflexivity |].
  unfold action_filtered. simpl.
  destruct (serve w _) as [w' ev]. reflexivity.
Qed.

End StepMore.

Lemma step_rejected_twice_witness :
  step (cls := Rejecting_class) serve_blocked
       (set_last_event started_controller
          (mkEvent (set_lastActionSuccess (metadata ok_event) false) None))
       tt (act "MoveBack") true
  = (set_last_event started_controller
       (mkEvent (set_lastActionSuccess (metadata ok_event) false) None),
     tt,
     Return (mkEvent (set_lastActionSuccess (metadata ok_event) false) None))
  /\ tt = tt
  /\ lastActionSuccess
       (metadata (mkEvent (set_lastActionSuccess (metadata ok_event) false) None))
     = false.
Proof.
  apply (step_rejected_twice unit serve_blocked (cls := Rejecting_class)
           started_controller _ tt tt (act "MoveAhead") (act "MoveBack")
           false true); reflexivity.
Defined.

Lemma reset_is_unchecked_step_witness :
  reset serve_blocked started_controller tt "FloorPlan1"
  = step (cls := Controller_class) serve_blocked started_controller tt
         (mkAction "Reset" [("sceneName"%string, VStr "FloorPlan1");
                            ("sequenceId"%string, VNum 0)])
         false.
Proof.
  apply (reset_is_unchecked_step unit serve_blocked started_controller tt
           "FloorPlan1"); reflexivity.
Defined.
(** * Further properties of the two point keys *)




(** The key of [BFSController] reads only [x] and [z]: points with equal
    [x] and [z] have the same key whatever their height, and two points with
    the same key are at most 0.001 apart in each of the two coordinates. *)
Theorem BFS_key_for_point_resolution (p q : Position) :
  (pos_x p == pos_x q /\ pos_z p == pos_z q ->
   BFS_key_for_point p = BFS_key_for_point q)
  /\ (BFS_key_for_point p = BFS_key_for_point q ->
      Qabs (pos_x p - pos_x q) <= 1 # 1000
      /\ Qabs (pos_z p - pos_z q) <= 1 # 1000).
Proof.
  split.
  - intros [Hx Hz]. unfold BFS_key_for_point. now rewrite Hx, Hz.
  - intros H. unfold BFS_key_for_point in H.
    split; apply format_fixed_3_close.
    + exact (f_equal fst H).
    + exact (f_equal snd H).
Qed.
(** * [has_islands] on grids with repeated points *)

(** The set [seen_points] of [has_islands] holds texts of grid points, each
    once. *)
Definition seen_ok (gps : list Position) (st : IslandState) : Prop :=
  NoDup (snd st) /\ incl (snd st) (map dumps gps).

Lemma enqueue_island_points_seen_ok (mag : Q) (gps : list Position)
    (st : IslandState) (p : Position) :
  In p gps -> seen_ok gps st -> seen_ok gps (enqueue_island_points mag st p).
Proof.
  intros Hp [Hnd Hin]. destruct st as [q seen]. unfold enqueue_island_points.
  destruct (existsb (Json_eqb (dumps p)) seen) eqn:E; [split; assumption |].
  apply Json_mem_false in E. split; cbn [snd] in *.
  - constructor; assumption.
  - intros j [<- | Hj]; [now apply in_map | now apply Hin].
Qed.

Lemma fold_island_visit_seen_ok (mag : Q) (gps : list Position) (t : XZ)
    (l : list Position) (st : IslandState) :
  incl l gps -> seen_ok gps st ->
  seen_ok gps (fold_left (island_visit mag t) l st).
Proof.
  revert st. induction l as [| p l IH]; intros st Hl Hst; [exact Hst |].
  simpl. apply IH.
  - intros x Hx. apply Hl. now right.
  - unfold island_visit.
    destruct (sqrt_ltb (distance_sq t (xz_of p)) (5 # 100)); [| exact Hst].
    apply enqueue_island_points_seen_ok; [apply Hl; now left | exact Hst].
Qed.

Lemma has_islands_loop_seen_ok (mag : Q) (gps : list Position) (fuel : nat)
    (st : IslandState) (seen' : list Json) :
  seen_ok gps st ->
  has_islands_loop fuel mag gps st = Some seen' ->
  NoDup seen' /\ incl seen' (map dumps gps).
Proof.
  revert st. induction fuel as [| fuel IH]; intros [q seen] Hst Hrun.
  - destruct q; [| discriminate]. inversion Hrun; subst. exact Hst.
  - destruct q as [| t q]; [inversion Hrun; subst; exact Hst |].
    simpl in Hrun. apply IH in Hrun; [exact Hrun |].
    apply fold_island_visit_seen_ok; [apply incl_refl |].
    destruct Hst as [Hnd Hin]. split; assumption.
Qed.

(** On every non-empty grid [has_islands] returns a Boolean, and it returns
    [True] whenever the grid lists some point twice: the points seen are
    counted as a set and compared with the length of the list. *)
Theorem has_islands_repeated_point (b : BFSController) :
  grid_points b <> [] ->
  exists v,
    has_islands b = Some (Return v)
    /\ (~ NoDup (map dumps (grid_points b)) -> v = true).
Proof.
  intros Hne. unfold has_islands.
  destruct (grid_points b) as [| p0 rest] eqn:E; [congruence |].
  destruct (has_islands_loop_terminates (grid_size b) (p0 :: rest)
              (4 * length (p0 :: rest))
              (enqueue_island_points (grid_size b) ([], []) p0)
              (island_measure_init (grid_size b) (p0 :: rest) p0
                 (or_introl eq_refl))) as (seen & Hloop).
  rewrite Hloop. eexists. split; [reflexivity |].
  intros Hdup. apply not_false_is_true. intros Hv. apply Hdup.
  apply negb_false_iff, Nat.eqb_eq in Hv.
  apply has_islands_loop_seen_ok in Hloop as [Hnd Hin].
  - apply NoDup_incl_NoDup with seen; auto.
    rewrite length_map. lia.
  - apply enqueue_island_points_seen_ok; [now left |].
    split; [constructor | intros x []].
Qed.

Lemma has_islands_repeated_point_witness :
  exists v,
    has_islands (grid_of [origin; mkPos (1 # 4) 0 0; origin]) = Some (Return v)
    /\ (~ NoDup (map dumps [origin; mkPos (1 # 4) 0 0; origin]) -> v = true).
Proof.
  apply (has_islands_repeated_point (grid_of [origin; mkPos (1 # 4) 0 0; origin])).
  discriminate.
Defined.

(** The three points above are within reach of each other, and still the
    answer is [True]. *)
Example has_islands_repeated_origin :
  has_islands (grid_of [origin; mkPos (1 # 4) 0 0; origin]) = Some (Return true).
Proof. reflexivity. Qed.
(** * The edges and nodes of [build_graph] *)

Lemma has_node_get (g : Graph) (k : Key) :
  has_node g k = true <-> exists ns, dict_get Key_eqb g k = Some ns.
Proof.
  induction g as [| [k' ns'] g IH]; simpl.
  - split; [discriminate | intros [ns H]; discriminate].
  - destruct (Key_eqb k' k); simpl; [split; eauto | exact IH].
Qed.

Lemma has_node_get_none (g : Graph) (k : Key) :
  has_node g k = false <-> dict_get Key_eqb g k = None.
Proof.
  induction g as [| [k' ns'] g IH]; simpl.
  - split; reflexivity.
  - destruct (Key_eqb k' k); simpl; [split; discriminate | exact IH].
Qed.

Lemma dict_get_app (g g' : Graph) (k : Key) :
  dict_get Key_eqb (g ++ g') k
  = match dict_get Key_eqb g k with
    | Some ns => Some ns
    | None => dict_get Key_eqb g' k
    end.
Proof.
  induction g as [| [k' ns'] g IH]; simpl; [reflexivity |].
  destruct (Key_eqb k' k); [reflexivity | exact IH].
Qed.

Lemma has_node_app (g g' : Graph) (k : Key) :
  has_node (g ++ g') k = has_node g k || has_node g' k.
Proof. unfold has_node. apply existsb_app. Qed.

Lemma nbrs_add_node (g : Graph) (n k : Key) : nbrs (add_node g n) k = nbrs g k.
Proof.
  unfold add_node. destruct (has_node g n) eqn:E; [reflexivity |].
  unfold nbrs, neighbors. rewrite dict_get_app.
  destruct (dict_get Key_eqb g k); [reflexivity |].
  simpl. destruct (Key_eqb n k); reflexivity.
Qed.

Lemma has_node_add_node (g : Graph) (n k : Key) :
  has_node (add_node g n) k = has_node g k || Key_eqb n k.
Proof.
  unfold add_node. destruct (has_node g n) eqn:E.
  - destruct (Key_eqb n k) eqn:Ek; [| now rewrite orb_false_r].
    apply Key_eqb_eq in Ek. subst. rewrite E. reflexivity.
  - rewrite has_node_app. simpl. now rewrite orb_false_r.
Qed.

Lemma has_node_dict_set (g : Graph) (u k : Key) (ns : list Key) :
  has_node g u = true -> has_node (dict_set Key_eqb g u ns) k = has_node g k.
Proof.
  induction g as [| [k' ns'] g IH]; simpl; [discriminate |].
  destruct (Key_eqb k' u) eqn:E; simpl; [reflexivity |].
  intros H. now rewrite IH.
Qed.

Lemma has_node_add_neighbor (g : Graph) (u v k : Key) :
  has_node (add_neighbor g u v) k = has_node g k.
Proof.
  unfold add_neighbor. destruct (dict_get Key_eqb g u) eqn:E; [| reflexivity].
  apply has_node_dict_set. apply has_node_get. eauto.
Qed.

Lemma nbrs_add_neighbor (g : Graph) (u v k n : Key) :
  has_node g u = true ->
  (In n (nbrs (add_neighbor g u v) k)
   <-> In n (nbrs g k) \/ (k = u /\ n = v)).
Proof.
  intros Hu. apply has_node_get in Hu as [ns Hns].
  unfold add_neighbor, nbrs, neighbors. rewrite Hns.
  rewrite (dict_get_set Key (list Key) Key_eqb Key_eqb_eq).
  destruct (Key_eqb u k) eqn:Ek.
  - apply Key_eqb_eq in Ek. subst k. rewrite Hns.
    destruct (key_in v ns) eqn:Ev.
    + apply key_in_In in Ev. split; [auto |].
      intros [H | [_ ->]]; assumption.
    + rewrite in_app_iff. simpl. split.
      * intros [H | [<- | []]]; auto.
      * intros [H | [_ ->]]; auto.
  - apply Key_eqb_neq in Ek. split; [auto |].
    intros [H | [-> _]]; [assumption | congruence].
Qed.

(** [Graph.add_edge(u, v)] adds [v] to the neighbours of [u] and [u] to
    those of [v], and leaves every other adjacency as it was. *)
Lemma nbrs_add_edge (g : Graph) (u v k n : Key) :
  In n (nbrs (add_edge g u v) k)
  <-> In n (nbrs g k) \/ (k = u /\ n = v) \/ (k = v /\ n = u).
Proof.
  unfold add_edge.
  rewrite nbrs_add_neighbor.
  2:{ rewrite has_node_add_neighbor, has_node_add_node, Key_eqb_refl.
      apply orb_true_r. }
  rewrite nbrs_add_neighbor.
  2:{ rewrite !has_node_add_node, Key_eqb_refl, orb_true_r. reflexivity. }
  rewrite !nbrs_add_node. tauto.
Qed.

Lemma has_node_add_edge (g : Graph) (u v k : Key) :
  has_node (add_edge g u v) k = has_node g k || Key_eqb u k || Key_eqb v k.
Proof.
  unfold add_edge. now rewrite !has_node_add_neighbor, !has_node_add_node.
Qed.

(** The graph after the pairs of [l] have been tried, from [graph]. *)
Definition edge_step (b : BFSController) (point : Position) (graph : Graph)
    (p : Position) : Graph :=
  let d := distance_sq (xz_of point) (xz_of p) in
  if sqrt_leb d (grid_size b + (1 # 100)) && sqrt_posb d
  then add_edge graph (BFS_key_for_point point) (BFS_key_for_point p)
  else graph.

Definition joins (b : BFSController) (point p : Position) (k n : Key) : Prop :=
  one_step_apart b point p = true
  /\ ((k = BFS_key_for_point point /\ n = BFS_key_for_point p)
      \/ (k = BFS_key_for_point p /\ n = BFS_key_for_point point)).

Definition touches (b : BFSController) (point p : Position) (k : Key) : Prop :=
  one_step_apart b point p = true
  /\ (k = BFS_key_for_point point \/ k = BFS_key_for_point p).

Lemma nbrs_edge_steps (b : BFSController) (point : Position)
    (l : list Position) (graph : Graph) (k n : Key) :
  In n (nbrs (fold_left (edge_step b point) l graph) k)
  <-> In n (nbrs graph k) \/ exists p, In p l /\ joins b point p k n.
Proof.
  revert graph. induction l as [| p l IH]; intros graph; simpl.
  - split; [auto | intros [H | (p & [] & _)]; exact H].
  - rewrite IH. unfold edge_step. fold (one_step_apart b point p).
    destruct (one_step_apart b point p) eqn:E.
    + rewrite nbrs_add_edge. split.
      * intros [[H | H] | (q & Hq & Hj)]; eauto.
        right. exists p. split; [now left |]. split; [exact E | tauto].
      * intros [H | (q & [<- | Hq] & Hj)]; eauto.
        left. destruct Hj as [_ Hj]. tauto.
    + split.
      * intros [H | (q & Hq & Hj)]; eauto.
      * intros [H | (q & [<- | Hq] & Hj)]; eauto.
        destruct Hj as [Hj _]. congruence.
Qed.

Lemma has_node_edge_steps (b : BFSController) (point : Position)
    (l : list Position) (graph : Graph) (k : Key) :
  has_node (fold_left (edge_step b point) l graph) k = true
  <-> has_node graph k = true \/ exists p, In p l /\ touches b point p k.
Proof.
  revert graph. induction l as [| p l IH]; intros graph; simpl.
  - split; [auto | intros [H | (p & [] & _)]; exact H].
  - rewrite IH. unfold edge_step. fold (one_step_apart b point p).
    destruct (one_step_apart b point p) eqn:E.
    + rewrite has_node_add_edge, !orb_true_iff, !Key_eqb_eq. split.
      * intros [[[H | H] | H] | (q & Hq & Hj)]; eauto;
          right; exists p; (split; [now left |]); split; auto.
      * intros [H | (q & [<- | Hq] & Hj)]; eauto.
        left. destruct Hj as [_ [-> | ->]]; auto.
    + split.
      * intros [H | (q & Hq & Hj)]; eauto.
      * intros [H | (q & [<- | Hq] & Hj)]; eauto.
        destruct Hj as [Hj _]. congruence.
Qed.

Lemma build_graph_point_steps (b : BFSController) (graph : Graph)
    (point : Position) :
  _build_graph_point b graph point
  = fold_left (edge_step b point) (grid_points b) graph.
Proof. reflexivity. Qed.

Lemma nbrs_build_points (b : BFSController) (l : list Position)
    (graph : Graph) (k n : Key) :
  In n (nbrs (fold_left (_build_graph_point b) l graph) k)
  <-> In n (nbrs graph k)
      \/ exists point p, In point l /\ In p (grid_points b) /\ joins b point p k n.
Proof.
  revert graph. induction l as [| point l IH]; intros graph; simpl.
  - split; [auto | intros [H | (q & p & [] & _)]; exact H].
  - rewrite IH, build_graph_point_steps, nbrs_edge_steps. split.
    + intros [[H | (p & Hp & Hj)] | (q & p & Hq & Hp & Hj)]; eauto 8.
    + intros [H | (q & p & [<- | Hq] & Hp & Hj)]; eauto 8.
Qed.

Lemma has_node_build_points (b : BFSController) (l : list Position)
    (graph : Graph) (k : Key) :
  has_node (fold_left (_build_graph_point b) l graph) k = true
  <-> has_node graph k = true
      \/ exists point p, In point l /\ In p (grid_points b) /\ touches b point p k.
Proof.
  revert graph. induction l as [| point l IH]; intros graph; simpl.
  - split; [auto | intros [H | (q & p & [] & _)]; exact H].
  - rewrite IH, build_graph_point_steps, has_node_edge_steps. split.
    + intros [[H | (p & Hp & Hj)] | (q & p & Hq & Hp & Hj)]; eauto 8.
    + intros [H | (q & p & [<- | Hq] & Hp & Hj)]; eauto 8.
Qed.

Lemma build_graph_nbrs (b : BFSController) (u n : Key) :
  In n (nbrs (build_graph b) u)
  <-> exists p q, In p (grid_points b) /\ In q (grid_points b)
                  /\ BFS_key_for_point p = u /\ BFS_key_for_point q = n
                  /\ one_step_apart b p q = true.
Proof.
  unfold build_graph. rewrite nbrs_build_points. split.
  - intros [[] | (point & p & Hpt & Hp & Hone & [[-> ->] | [-> ->]])].
    + exists point, p. auto.
    + exists p, point. rewrite one_step_apart_sym. auto.
  - intros (p & q & Hp & Hq & <- & <- & Hone).
    right. exists p, q. repeat split; auto.
Qed.

Lemma build_graph_has_node (b : BFSController) (u : Key) :
  has_node (build_graph b) u = true
  <-> exists p q, In p (grid_points b) /\ In q (grid_points b)
                  /\ BFS_key_for_point p = u
                  /\ one_step_apart b p q = true.
Proof.
  unfold build_graph. rewrite has_node_build_points. split.
  - intros [H | (point & p & Hpt & Hp & Hone & [-> | ->])]; [discriminate | |].
    + exists point, p. auto.
    + exists p, point. rewrite one_step_apart_sym. auto.
  - intros (p & q & Hp & Hq & <- & Hone).
    right. exists p, q. repeat split; auto.
Qed.

(** [build_graph] joins exactly the keys of the pairs of grid points that
    are more than zero and at most [grid_size + 0.01] apart: [n] is a
    neighbour of [u] if and only if [u] and [n] are the keys of two such
    points. *)
Theorem build_graph_edges (b : BFSController) (u n : Key) :
  In n (nbrs (build_graph b) u)
  <-> exists p q, In p (grid_points b) /\ In q (grid_points b)
                  /\ BFS_key_for_point p = u /\ BFS_key_for_point q = n
                  /\ sqrt_leb (distance_sq (xz_of p) (xz_of q))
                              (grid_size b + (1 # 100)) = true
                  /\ sqrt_posb (distance_sq (xz_of p) (xz_of q)) = true.
Proof.
  rewrite build_graph_nbrs. unfold one_step_apart.
  split; intros (p & q & Hp & Hq & Hu & Hn & H); exists p, q.
  - apply andb_true_iff in H. tauto.
  - repeat split; try tauto. apply andb_true_iff. tauto.
Qed.

(** The graph is undirected and has no isolated node: adjacency is
    symmetric, every neighbour is a node, and a key is a node exactly when
    it has a neighbour.  A grid point with no other point within
    [grid_size + 0.01] is therefore not in the graph at all. *)
Theorem build_graph_undirected (b : BFSController) (u n : Key) :
  (In n (nbrs (build_graph b) u) <-> In u (nbrs (build_graph b) n))
  /\ (In n (nbrs (build_graph b) u) -> has_node (build_graph b) n = true)
  /\ (has_node (build_graph b) u = true
      <-> exists m, In m (nbrs (build_graph b) u)).
Proof.
  split; [| split].
  - rewrite !build_graph_nbrs.
    split; intros (p & q & Hp & Hq & Hu & Hn & H); exists q, p;
      rewrite one_step_apart_sym; auto.
  - rewrite build_graph_nbrs, build_graph_has_node.
    intros (p & q & Hp & Hq & Hu & Hn & H). exists q, p.
    rewrite one_step_apart_sym. auto.
  - rewrite build_graph_has_node. split.
    + intros (p & q & Hp & Hq & Hu & H). exists (BFS_key_for_point q).
      apply build_graph_nbrs. exists p, q. auto.
    + intros (m & Hm). apply build_graph_nbrs in Hm.
      destruct Hm as (p & q & Hp & Hq & Hu & Hn & H). exists p, q. auto.
Qed.
(** * [shortest_plan] at the edges of the graph *)

Lemma lonely_not_node (b : BFSController) (k : Key) :
  lonely b k -> has_node (build_graph b) k = false.
Proof.
  intros Hl. apply not_true_is_false. intros Hn.
  apply build_graph_has_node in Hn as (p & q & Hp & Hq & Hk & Hone).
  rewrite (Hl p q Hp Hq Hk) in Hone. discriminate.
Qed.

(** A position without a neighbouring grid point is not a node of the graph
    of [build_graph], so a plan from it or to it cannot be asked for:
    [shortest_plan] fails with networkx's NodeNotFound.  This covers the
    empty grid and the grid of a single point, even for a plan from the
    point to itself. *)
Theorem shortest_plan_isolated_point (b : BFSController) (A B : Agent) :
  lonely b (BFS_key_for_point (agent_position A))
  \/ lonely b (BFS_key_for_point (agent_position B)) ->
  shortest_plan b (build_graph b) A B = Some (Raise NodeNotFound).
Proof.
  intros H. unfold shortest_plan, shortest_path.
  destruct (has_node (build_graph b) (BFS_key_for_point (agent_position A))) eqn:EA;
    [| reflexivity].
  destruct H as [H | H]; apply lonely_not_node in H; [congruence |].
  rewrite H. reflexivity.
Qed.

Lemma shortest_plan_isolated_point_witness :
  shortest_plan (grid_of [origin]) (build_graph (grid_of [origin]))
                agent_345_start agent_345_start
  = Some (Raise NodeNotFound).
Proof.
  apply (shortest_plan_isolated_point (grid_of [origin])
           agent_345_start agent_345_start).
  left. intros p q [<- | []] [<- | []] _. reflexivity.
Defined.

(** A plan between two poses at the same node has no translation: it is
    the looks of [plan_horizons] followed by the turns of
    [plan_rotations], on any graph that holds the node. *)
Theorem shortest_plan_same_place (b : BFSController) (graph : Graph)
    (A B : Agent) :
  has_node graph (BFS_key_for_point (agent_position A)) = true ->
  BFS_key_for_point (agent_position A) = BFS_key_for_point (agent_position B) ->
  shortest_plan b graph A B
  = Some (hs <- plan_horizons (agent_cameraHorizon A) (agent_cameraHorizon B) ;;
          Return (hs ++ plan_rotations (agent_rotation_y A) (agent_rotation_y B))).
Proof.
  intros Hn Hk. unfold shortest_plan, shortest_path.
  rewrite <- Hk, Hn. cbn [negb]. unfold bfs_fuel. cbn [bfs_loop].
  rewrite Key_eqb_refl. cbn [rev app tl plan_moves obind]. reflexivity.
Qed.

Lemma shortest_plan_same_place_witness :
  shortest_plan (grid_of grid_L) (build_graph (grid_of grid_L))
                agent_start (mkAgent origin 270 30)
  = Some (hs <- plan_horizons 0 30 ;; Return (hs ++ plan_rotations 90 270)).
Proof.
  apply (shortest_plan_same_place (grid_of grid_L) (build_graph (grid_of grid_L))
           agent_start (mkAgent origin 270 30)); reflexivity.
Defined.

(** * From [has_islands] to [shortest_plan] *)

Lemma has_islands_false_distinct (b : BFSController) :
  has_islands b = Some (Return false) -> NoDup (map dumps (grid_points b)).
Proof.
  unfold has_islands. destruct (grid_points b) as [| p0 rest] eqn:E; [discriminate |].
  destruct (has_islands_loop _ _ _ _) as [seen |] eqn:Hloop; [| discriminate].
  intros H. injection H as H. apply negb_false_iff, Nat.eqb_eq in H.
  apply has_islands_loop_seen_ok in Hloop as [Hnd Hin].
  - apply NoDup_incl_NoDup with seen; auto. rewrite length_map. simpl. lia.
  - apply enqueue_island_points_seen_ok; [now left |].
    split; [constructor | intros x []].
Qed.

Lemma has_islands_false_connected (b : BFSController) :
  has_islands b = Some (Return false) ->
  connected (island_link (grid_size b)) (grid_points b).
Proof.
  intros H. pose proof (has_islands_false_distinct b H) as Hnd.
  assert (Hne : grid_points b <> []).
  { unfold has_islands in H. destruct (grid_points b); [discriminate | discriminate]. }
  destruct (has_islands_flood_fill b Hne Hnd) as (v & Hrun & _ & Hf).
  rewrite H in Hrun. injection Hrun as <-. now apply Hf.
Qed.

Lemma Position_eq_dec (p q : Position) : {p = q} + {p <> q}.
Proof.
  assert (Qd : forall a c : Q, {a = c} + {a <> c}).
  { decide equality; [apply Pos.eq_dec | apply Z.eq_dec]. }
  decide equality.
Qed.

Lemma another_point (l : list Position) (p : Position) :
  NoDup l -> (2 <= length l)%nat -> exists q, In q l /\ q <> p.
Proof.
  intros Hnd Hlen. destruct l as [| a [| c l]]; simpl in Hlen; try lia.
  inversion Hnd as [| ? ? Hna _]; subst.
  destruct (Position_eq_dec a p) as [-> | H].
  - exists c. split; [simpl; auto |]. intros ->. apply Hna. now left.
  - exists a. split; [now left | exact H].
Qed.

(** On the lattice, a link of [has_islands] is an edge of [build_graph]. *)
Lemma island_link_one_step (b : BFSController) (x0 z0 : Q) (p q : Position) :
  grid_size b = 25 # 100 ->
  on_lattice (grid_size b) x0 z0 (xz_of p) ->
  on_lattice (grid_size b) x0 z0 (xz_of q) ->
  island_link (grid_size b) p q -> one_step_apart b p q = true.
Proof.
  intros Hg Hp Hq Hl.
  apply (island_link_lattice (grid_size b) x0 z0) in Hl; auto.
  2:{ rewrite Hg. reflexivity. }
  destruct Hl as [Hup Hlow]. rewrite Hg in Hup, Hlow.
  unfold one_step_apart. rewrite Hg.
  set (d := distance_sq (xz_of p) (xz_of q)) in *.
  apply andb_true_iff. split.
  - apply sqrt_leb_spec. split; [lra |].
    setoid_replace (((25 # 100) + (1 # 100)) * ((25 # 100) + (1 # 100)))
      with (676 # 10000) by reflexivity.
    setoid_replace (((25 # 100) + 0) * ((25 # 100) + 0)) with (625 # 10000) in Hup
      by reflexivity.
    lra.
  - unfold sqrt_posb. apply Qltb_lt.
    destruct Hlow as [Hlow | Hlow]; [lra |].
    setoid_replace (((25 # 100) - 0) * ((25 # 100) - 0)) with (625 # 10000) in Hlow
      by reflexivity.
    lra.
Qed.

Section NoIslands.

Variable b : BFSController.
Variables x0 z0 : Q.
Hypothesis grid_size_quarter : grid_size b = 25 # 100.
Hypothesis grid_on_lattice :
  forall p, In p (grid_points b) -> on_lattice (grid_size b) x0 z0 (xz_of p).
Hypothesis no_islands : has_islands b = Some (Return false).
Hypothesis two_points : (2 <= length (grid_points b))%nat.

Lemma reach_walk (p q : Position) :
  In p (grid_points b) ->
  reach (island_link (grid_size b)) (grid_points b) p q ->
  walk (build_graph b) (BFS_key_for_point p) (BFS_key_for_point q).
Proof.
  intros Hp H. induction H as [| q r Hpq IH Hr Hl]; [apply walk_here |].
  apply walk_on with (BFS_key_for_point q); [exact IH |].
  apply build_graph_nbrs. exists q, r.
  assert (Hq : In q (grid_points b)) by (apply reach_in with (island_link (grid_size b)) p; auto).
  repeat split; auto.
  apply (island_link_one_step b x0 z0); auto.
Qed.

Lemma grid_point_is_node (p : Position) :
  In p (grid_points b) ->
  has_node (build_graph b) (BFS_key_for_point p) = true.
Proof.
  intros Hp.
  pose proof (has_islands_false_connected b no_islands) as Hconn.
  pose proof (has_islands_false_distinct b no_islands) as Hnd.
  apply NoDup_map_inv in Hnd.
  destruct (another_point (grid_points b) p Hnd two_points) as (q & Hq & Hne).
  pose proof (Hconn p q Hp Hq) as Hreach.
  assert (Hlink : exists r, In r (grid_points b) /\ island_link (grid_size b) r q).
  { inversion Hreach as [E | r ? Hpr Hq' Hl]; subst; [congruence |].
    exists r. split; [| exact Hl].
    apply reach_in with (island_link (grid_size b)) p; auto. }
  clear Hreach.
  pose proof (Hconn q p Hq Hp) as Hreach.
  inversion Hreach as [E | r ? Hqr Hp' Hl]; subst; [congruence |].
  assert (Hr : In r (grid_points b))
    by (apply reach_in with (island_link (grid_size b)) q; auto).
  apply build_graph_has_node. exists p, r. repeat split; auto.
  rewrite one_step_apart_sym.
  apply (island_link_one_step b x0 z0); auto.
Qed.

Lemma no_islands_graph_connected (p q : Position) :
  In p (grid_points b) -> In q (grid_points b) ->
  walk (build_graph b) (BFS_key_for_point p) (BFS_key_for_point q).
Proof.
  intros Hp Hq. apply reach_walk; [exact Hp |].
  apply (has_islands_false_connected b no_islands); assumption.
Qed.

(** When [has_islands] answers [False] for a grid of at least two points
    on a lattice of step 0.25, every grid point is a node of the graph of
    [build_graph], and [shortest_plan] between any two poses on grid points
    returns a plan: translations first, then looks and turns, whose
    execution from the first pose ends at the second. *)
Theorem no_islands_plan_exists (A B : Agent) :
  In (agent_position A) (grid_points b) ->
  In (agent_position B) (grid_points b) ->
  In (agent_rotation_y A) headings -> In (agent_rotation_y B) headings ->
  In (agent_cameraHorizon A) tilts -> In (agent_cameraHorizon B) tilts ->
  exists moves turns final,
    shortest_plan b (build_graph b) A B = Some (Return (moves ++ turns))
    /\ Forall (fun a => is_move a = true) moves
    /\ Forall (fun a => is_move a = false) turns
    /\ run_actions (grid_size b) (pose_of A) (moves ++ turns) = Some final
    /\ xz_eq (pose_xz final) (xz_of (agent_position B))
    /\ pose_rotation final = agent_rotation_y B
    /\ pose_horizon final = agent_cameraHorizon B.
Proof.
  intros HA HB RA RB TA TB.
  pose proof (grid_point_is_node _ HA) as NA.
  pose proof (grid_point_is_node _ HB) as NB.
  destruct (shortest_path_finds (build_graph b) _ _ NA NB
              (no_islands_graph_connected _ _ HA HB))
    as (l & Hpath & Hchain & Hlast).
  destruct (plan_moves_ok b x0 z0 grid_size_quarter grid_on_lattice
              (agent_rotation_y A) RA l (agent_position A) HA Hchain)
    as (moves & fin & Hplan & Hmoves & Hfin & Kfin & Heq).
  destruct (plan_horizons_run _ _ TA TB) as (hs & Hhs & Hhs_turn & Hhs_run).
  destruct (plan_rotations_run _ _ RA RB) as (Hrot_turn & Hrot_run).
  set (rots := plan_rotations (agent_rotation_y A) (agent_rotation_y B)) in *.
  exists moves, (hs ++ rots).
  exists (mkPose (moves_dest (grid_size b) (agent_rotation_y A)
                    (xz_of (agent_position A)) moves)
                 (agent_rotation_y B) (agent_cameraHorizon B)).
  split; [| split; [| split; [| split; [| split; [| split]]]]].
  - unfold shortest_plan. rewrite Hpath. cbn [tl].
    fold (all_points_of b). rewrite Hplan. cbn [obind]. rewrite Hhs.
    reflexivity.
  - exact Hmoves.
  - apply Forall_app. split; assumption.
  - unfold pose_of. rewrite run_actions_app, (run_moves _ _ _ Hmoves).
    rewrite run_actions_app, Hhs_run. apply Hrot_run.
  - cbn [pose_xz]. rewrite Hlast in Kfin.
    assert (Hfb : xz_eq (xz_of fin) (xz_of (agent_position B))).
    { apply (lattice_key_xz_eq (grid_size b) x0 z0); auto.
      rewrite grid_size_quarter. reflexivity. }
    destruct Heq as [E1 E2], Hfb as [E3 E4]. split; lra.
  - reflexivity.
  - reflexivity.
Qed.

End NoIslands.

Lemma grid_L_on_lattice (p : Position) :
  In p (grid_points (grid_of grid_L)) ->
  on_lattice (grid_size (grid_of grid_L)) 0 0 (xz_of p).
Proof.
  simpl. intros [<- | [<- | [<- | []]]].
  - exists 0%Z, 0%Z. split; reflexivity.
  - exists 1%Z, 0%Z. split; reflexivity.
  - exists 1%Z, 1%Z. split; reflexivity.
Qed.

Lemma no_islands_plan_exists_witness :
  exists moves turns final,
    shortest_plan (grid_of grid_L) (build_graph (grid_of grid_L))
                  agent_start agent_goal = Some (Return (moves ++ turns))
    /\ Forall (fun a => is_move a = true) moves
    /\ Forall (fun a => is_move a = false) turns
    /\ run_actions (grid_size (grid_of grid_L)) (pose_of agent_start) (moves ++ turns)
       = Some final
    /\ xz_eq (pose_xz final) (xz_of (agent_position agent_goal))
    /\ pose_rotation final = agent_rotation_y agent_goal
    /\ pose_horizon final = agent_cameraHorizon agent_goal.
Proof.
  apply (no_islands_plan_exists (grid_of grid_L) 0 0 eq_refl grid_L_on_lattice
           eq_refl (le_S _ _ (le_n 2)) agent_start agent_goal);
    simpl; auto 6.
Defined.
(** * [plan_horizons] and [plan_rotations] on arbitrary angles *)

Lemma py_int_inject_Z (n : Z) : py_int (inject_Z n) = n.
Proof. unfold py_int. simpl. apply Z.quot_1_r. Qed.

Lemma horizon_step_map_get (n : Z) :
  In n known_horizons <-> exists s, dict_get Z.eqb horizon_step_map n = Some s.
Proof.
  unfold known_horizons, horizon_step_map. split.
  - intros [<- | [<- | [<- | [<- | []]]]]; simpl; eauto.
  - intros [s H]. revert H. cbn [dict_get In].
    destruct (Z.eqb_spec 330 n) as [<- | _]; [tauto |].
    destruct (Z.eqb_spec 0 n) as [<- | _]; [tauto |].
    destruct (Z.eqb_spec 30 n) as [<- | _]; [tauto |].
    destruct (Z.eqb_spec 60 n) as [<- | _]; [tauto |].
    discriminate.
Qed.

(** [plan_horizons] reads both tilts through [int()]: the plan is the one
    between the truncated tilts (30.9 plans as 30).  It fails, with
    KeyError, exactly when a truncated tilt is not one of 330, 0, 30 and
    60; otherwise it returns at most three looks, all of the same kind. *)
Theorem plan_horizons_truncates (agent_horizon target_horizon : Q) :
  plan_horizons agent_horizon target_horizon
  = plan_horizons (inject_Z (py_int agent_horizon))
                  (inject_Z (py_int target_horizon))
  /\ (plan_horizons agent_horizon target_horizon = Raise KeyError
      <-> ~ (In (py_int agent_horizon) known_horizons
             /\ In (py_int target_horizon) known_horizons))
  /\ (In (py_int agent_horizon) known_horizons ->
      In (py_int target_horizon) known_horizons ->
      exists n name,
        plan_horizons agent_horizon target_horizon = Return (repeat (act name) n)
        /\ (n <= 3)%nat
        /\ (name = "LookDown"%string \/ name = "LookUp"%string)).
Proof.
  split; [| split].
  - unfold plan_horizons. now rewrite !py_int_inject_Z.
  - unfold plan_horizons. split.
    + intros H [Ha Ht].
      apply horizon_step_map_get in Ha as [sa Ha].
      apply horizon_step_map_get in Ht as [st Ht].
      rewrite Ha, Ht in H. cbn [lookup_or_KeyError obind] in H.
      destruct (0 <? sa - st)%Z; discriminate.
    + intros H.
      destruct (dict_get Z.eqb horizon_step_map (py_int agent_horizon)) as [sa |] eqn:Ha;
        [| reflexivity].
      destruct (dict_get Z.eqb horizon_step_map (py_int target_horizon)) as [st |] eqn:Ht;
        [| reflexivity].
      exfalso. apply H. split; apply horizon_step_map_get; eauto.
  - unfold plan_horizons, known_horizons.
    intros [<- | [<- | [<- | [<- | []]]]] [<- | [<- | [<- | [<- | []]]]];
      cbn;
      first [ exists 0%nat, "LookUp"%string; split; [reflexivity |]
            | exists 1%nat, "LookUp"%string; split; [reflexivity |]
            | exists 2%nat, "LookUp"%string; split; [reflexivity |]
            | exists 3%nat, "LookUp"%string; split; [reflexivity |]
            | exists 1%nat, "LookDown"%string; split; [reflexivity |]
            | exists 2%nat, "LookDown"%string; split; [reflexivity |]
            | exists 3%nat, "LookDown"%string; split; [reflexivity |] ];
      (split; [lia | auto]).
Qed.




(** * [move_relative_points]: what it returns and how it fails *)

Section DictKeys.
Variables (K V : Type) (eqb : K -> K -> bool).
Hypothesis eqb_eq : forall a b, eqb a b = true <-> a = b.

Lemma dict_set_keys (d : list (K * V)) (k : K) (v : V) :
  map fst (dict_set eqb d k v)
  = if existsb (fun kv => eqb (fst kv) k) d then map fst d else map fst d ++ [k].
Proof.
  induction d as [| [k' v'] d IH]; simpl; [reflexivity |].
  destruct (eqb k' k) eqn:E; simpl; [reflexivity |].
  rewrite IH. destruct (existsb _ d); reflexivity.
Qed.

Lemma dict_set_NoDup (d : list (K * V)) (k : K) (v : V) :
  NoDup (map fst d) -> NoDup (map fst (dict_set eqb d k v)).
Proof.
  intros Hnd. rewrite dict_set_keys.
  destruct (existsb (fun kv => eqb (fst kv) k) d) eqn:E; [exact Hnd |].
  apply NoDup_app; [exact Hnd | constructor; [intros [] | constructor] |].
  intros x Hx [Ex | []]. subst x.
  apply in_map_iff in Hx as ([k' v'] & Hk & Hin). simpl in Hk. subst k'.
  assert (existsb (fun kv => eqb (fst kv) k) d = true).
  { apply existsb_exists. exists (k, v'). split; [exact Hin |].
    simpl. now apply eqb_eq. }
  congruence.
Qed.

End DictKeys.

Lemma orientation_loop_names (rotation : Q) (x_o z_o : Z)
    (items : list (Z * (Z * Z * string))) (name : string) :
  orientation_loop rotation x_o z_o items = Return (Some name) ->
  In name (map (fun it => snd (snd it)) items).
Proof.
  induction items as [| [tr offs] items IH]; cbn [orientation_loop map];
    [discriminate |].
  destruct (dict_get Z.eqb action_orientation _) as [ao |];
    cbn [lookup_or_KeyError obind]; [| discriminate].
  destruct (Z.eqb x_o (fst (fst ao)) && Z.eqb z_o (snd (fst ao))).
  - intros H. injection H as <-. now left.
  - intros H. right. now apply IH.
Qed.

(** One round of the [for n in graph.neighbors(...)] loop. *)
Definition neighbor_round (b : BFSController) (all_points : list (Key * Position))
    (position : Position) (rotation : Q)
    (acc : Outcome (list (string * Position))) (n : Key)
  : Outcome (list (string * Position)) :=
  move_points <- acc ;;
  point <- lookup_or_KeyError (dict_get Key_eqb all_points n) ;;
  if Qeq_bool (grid_size b) 0 then Raise ZeroDivisionError
  else
    let x_o := round_half_even ((pos_x point - pos_x position) / grid_size b) in
    let z_o := round_half_even ((pos_z point - pos_z position) / grid_size b) in
    found <- orientation_loop rotation x_o z_o action_orientation ;;
    match found with
    | Some action_name => Return (dict_set String.eqb move_points action_name point)
    | None => Return move_points
    end.

Lemma move_relative_points_rounds (b : BFSController)
    (all_points : list (Key * Position)) (graph : Graph)
    (position : Position) (rotation : Q) (ns : list Key) :
  neighbors graph (BFS_key_for_point position) = Some ns ->
  move_relative_points b all_points graph position rotation
  = fold_left (neighbor_round b all_points position rotation) ns (Return []).
Proof. intros H. unfold move_relative_points. rewrite H. reflexivity. Qed.

Lemma neighbor_rounds_raise (b : BFSController)
    (all_points : list (Key * Position)) (position : Position) (rotation : Q)
    (ns : list Key) (e : Exn) :
  fold_left (neighbor_round b all_points position rotation) ns (Raise e) = Raise e.
Proof. induction ns as [| n ns IH]; simpl; [reflexivity | exact IH]. Qed.

(** What the loop keeps true of [move_points]. *)
Definition move_points_ok (all_points : list (Key * Position)) (ns : list Key)
    (mp : list (string * Position)) : Prop :=
  NoDup (map fst mp)
  /\ forall name point, In (name, point) mp ->
       In name move_names
       /\ exists n, In n ns /\ dict_get Key_eqb all_points n = Some point.

Lemma neighbor_rounds_ok (b : BFSController)
    (all_points : list (Key * Position)) (position : Position) (rotation : Q)
    (all : list Key) (ns : list Key) (mp mp' : list (string * Position)) :
  incl ns all ->
  move_points_ok all_points all mp ->
  fold_left (neighbor_round b all_points position rotation) ns (Return mp)
    = Return mp' ->
  move_points_ok all_points all mp'.
Proof.
  revert mp. induction ns as [| n ns IH]; intros mp Hin Hok Hrun;
    cbn [fold_left] in Hrun.
  - injection Hrun as <-. exact Hok.
  - assert (Hns : incl ns all) by (intros x Hx; apply Hin; now right).
    unfold neighbor_round at 2 in Hrun. cbn [obind] in Hrun.
    destruct (dict_get Key_eqb all_points n) as [point |] eqn:Hpt;
      cbn [lookup_or_KeyError obind] in Hrun;
      [| rewrite neighbor_rounds_raise in Hrun; discriminate].
    destruct (Qeq_bool (grid_size b) 0);
      [rewrite neighbor_rounds_raise in Hrun; discriminate |].
    destruct (orientation_loop rotation _ _ action_orientation) as [found | e] eqn:Hol;
      cbn [obind] in Hrun;
      [| rewrite neighbor_rounds_raise in Hrun; discriminate].
    destruct found as [name |]; [| now apply IH with mp].
    apply IH with (dict_set String.eqb mp name point); auto.
    destruct Hok as [Hnd Hall]. split.
    + apply dict_set_NoDup; [apply String.eqb_eq | exact Hnd].
    + intros name' point' H'.
      apply (dict_set_In string Position String.eqb String.eqb_eq) in H'
        as [E | H']; [| now apply Hall].
      injection E as -> ->. split.
      * apply orientation_loop_names in Hol. exact Hol.
      * exists n. split; [apply Hin; now left | exact Hpt].
Qed.

Lemma NoDup_incl_four (l : list string) :
  NoDup l -> incl l move_names -> (length l <= 4)%nat.
Proof.
  intros Hnd Hin. apply (NoDup_incl_length Hnd) in Hin. exact Hin.
Qed.

(** Whatever the graph, the points and the heading: when
    [move_relative_points] returns, its dict has at most four entries, the
    keys are distinct names among MoveAhead, MoveRight, MoveBack and
    MoveLeft, and each value is the point that [all_points] gives for some
    neighbour of the position in the graph. *)
Theorem move_relative_points_entries (b : BFSController)
    (all_points : list (Key * Position)) (graph : Graph)
    (position : Position) (rotation : Q) (mp : list (string * Position)) :
  move_relative_points b all_points graph position rotation = Return mp ->
  NoDup (map fst mp)
  /\ (length mp <= 4)%nat
  /\ forall name point, In (name, point) mp ->
       In name move_names
       /\ exists n, In n (nbrs graph (BFS_key_for_point position))
                    /\ dict_get Key_eqb all_points n = Some point.
Proof.
  intros Hrun. unfold nbrs.
  destruct (neighbors graph (BFS_key_for_point position)) as [ns |] eqn:Hns.
  2:{ unfold move_relative_points in Hrun. rewrite Hns in Hrun. discriminate. }
  rewrite (move_relative_points_rounds _ _ _ _ _ ns Hns) in Hrun.
  apply (neighbor_rounds_ok b all_points position rotation ns) in Hrun.
  - destruct Hrun as [Hnd Hall]. split; [exact Hnd | split; [| exact Hall]].
    rewrite <- (length_map fst). apply NoDup_incl_four; [exact Hnd |].
    intros name Hname. apply in_map_iff in Hname as ([name' point] & E & Hin).
    simpl in E. subst name'. now apply (Hall name point).
  - apply incl_refl.
  - split; [constructor | intros ? ? []].
Qed.

Lemma move_relative_points_entries_witness :
  NoDup (map fst [("MoveAhead"%string, mkPos (1 # 4) 0 0)])
  /\ (length [("MoveAhead"%string, mkPos (1 # 4) 0 0)] <= 4)%nat
  /\ forall name point, In (name, point) [("MoveAhead"%string, mkPos (1 # 4) 0 0)] ->
       In name move_names
       /\ exists n, In n (nbrs (build_graph (grid_of grid_L)) (BFS_key_for_point origin))
                    /\ dict_get Key_eqb (all_points_of (grid_of grid_L)) n = Some point.
Proof.
  apply (move_relative_points_entries (grid_of grid_L)
           (all_points_of (grid_of grid_L)) (build_graph (grid_of grid_L))
           origin 90). reflexivity.
Defined.

(** The failures of [move_relative_points].  A position that is not a node
    of the graph makes [graph.neighbors] fail.  For a position with a first
    neighbour [n]: a key missing from [all_points] is a KeyError; a grid
    size of zero is a division by zero; and with a heading whose rounding
    is not 0, 90, 180 or 270 modulo 360 the table of orientations has no
    entry, a KeyError. *)
Theorem move_relative_points_failures (b : BFSController)
    (all_points : list (Key * Position)) (graph : Graph)
    (position : Position) (rotation : Q) :
  (neighbors graph (BFS_key_for_point position) = None ->
   move_relative_points b all_points graph position rotation = Raise NetworkXError)
  /\ (forall n ns,
        neighbors graph (BFS_key_for_point position) = Some (n :: ns) ->
        (dict_get Key_eqb all_points n = None ->
         move_relative_points b all_points graph position rotation = Raise KeyError)
        /\ (forall point,
              dict_get Key_eqb all_points n = Some point ->
              (grid_size b == 0 ->
               move_relative_points b all_points graph position rotation
               = Raise ZeroDivisionError)
              /\ (~ grid_size b == 0 ->
                  ~ In (round_half_even rotation mod 360)%Z [0; 90; 180; 270]%Z ->
                  move_relative_points b all_points graph position rotation
                  = Raise KeyError))).
Proof.
  split.
  - intros H. unfold move_relative_points. now rewrite H.
  - intros n ns Hns.
    rewrite (move_relative_points_rounds _ _ _ _ _ _ Hns). cbn [fold_left].
    set (first := neighbor_round b all_points position rotation (Return []) n).
    assert (Hraise : forall e, first = Raise e ->
              fold_left (neighbor_round b all_points position rotation) ns first
              = Raise e).
    { intros e ->. apply neighbor_rounds_raise. }
    split.
    + intros Hn. apply Hraise. unfold first, neighbor_round. cbn [obind].
      rewrite Hn. reflexivity.
    + intros point Hn. split.
      * intros Hg. apply Hraise. unfold first, neighbor_round. cbn [obind].
        rewrite Hn. cbn [lookup_or_KeyError obind].
        apply Qeq_bool_iff in Hg. rewrite Hg. reflexivity.
      * intros Hg Hrot. apply Hraise. unfold first, neighbor_round. cbn [obind].
        rewrite Hn. cbn [lookup_or_KeyError obind].
        destruct (Qeq_bool (grid_size b) 0) eqn:Eg;
          [apply Qeq_bool_iff in Eg; contradiction |].
        unfold action_orientation at 1. cbn [orientation_loop].
        assert (Er : round_half_even (rotation + inject_Z 0) = round_half_even rotation).
        { apply round_half_even_proper. change (inject_Z 0) with 0. ring. }
        rewrite Er.
        assert (Eget : dict_get Z.eqb action_orientation
                         (round_half_even rotation mod 360)%Z = None).
        { revert Hrot. generalize (round_half_even rotation mod 360)%Z. intros d Hd.
          unfold action_orientation. cbn [dict_get].
          destruct (Z.eqb_spec 0 d) as [<- | _]; [simpl in Hd; tauto |].
          destruct (Z.eqb_spec 90 d) as [<- | _]; [simpl in Hd; tauto |].
          destruct (Z.eqb_spec 180 d) as [<- | _]; [simpl in Hd; tauto |].
          destruct (Z.eqb_spec 270 d) as [<- | _]; [simpl in Hd; tauto |].
          reflexivity. }
        rewrite Eget. reflexivity.
Qed.
(** * The frontier: [enqueue_point] and [enqueue_points] *)

Lemma enqueue_point_unfold (b : BFSController) (sp : BFSSearchPoint) :
  enqueue_point b sp = if covered b (target_point sp) then b else appended b sp.
Proof.
  unfold enqueue_point, covered, appended.
  destruct (existsb _ (seen_points b)); reflexivity.
Qed.

Lemma distance_sq_proper_r (p t t' : XZ) :
  xz_eq t t' -> distance_sq p t == distance_sq p t'.
Proof. intros [Hx Hz]. unfold distance_sq. rewrite Hx, Hz. reflexivity. Qed.

Lemma sqrt_ltb_proper (d d' c : Q) : d == d' -> sqrt_ltb d c = sqrt_ltb d' c.
Proof. intros H. unfold sqrt_ltb. now rewrite H. Qed.

Lemma covered_proper (b : BFSController) (t t' : XZ) :
  xz_eq t t' -> covered b t = covered b t'.
Proof.
  intros H. unfold covered.
  induction (seen_points b) as [| p l IH]; simpl; [reflexivity |].
  rewrite IH. f_equal. apply sqrt_ltb_proper. now apply distance_sq_proper_r.
Qed.

(** With a positive grid size a place is queued once: after
    [enqueue_point] has been given a search point, giving it any search
    point with the same target changes nothing. *)
Theorem enqueue_point_once (b : BFSController) (sp sp' : BFSSearchPoint) :
  0 < grid_size b ->
  xz_eq (target_point sp) (target_point sp') ->
  enqueue_point (enqueue_point b sp) sp' = enqueue_point b sp.
Proof.
  intros Hg Heq. rewrite (enqueue_point_unfold b sp).
  destruct (covered b (target_point sp)) eqn:E.
  - rewrite enqueue_point_unfold, <- (covered_proper b _ _ Heq), E. reflexivity.
  - rewrite enqueue_point_unfold.
    assert (Hc : covered (appended b sp) (target_point sp') = true).
    { unfold covered, appended. simpl. rewrite existsb_app. simpl.
      assert (Hnear : sqrt_ltb (distance_sq (target_point sp) (target_point sp'))
                               (grid_size b / 5) = true).
      { apply sqrt_ltb_spec.
        assert (H5 : 0 < grid_size b / 5).
        { apply Qlt_shift_div_l; [reflexivity | lra]. }
        split; [exact H5 |].
        rewrite <- (distance_sq_proper_r _ _ _ Heq).
        assert (Hz : distance_sq (target_point sp) (target_point sp) == 0)
          by (unfold distance_sq; ring).
        rewrite Hz. apply Qmult_lt_0_compat; exact H5. }
      rewrite Hnear. simpl. apply orb_true_r. }
    rewrite Hc. reflexivity.
Qed.

Lemma enqueue_point_once_witness :
  enqueue_point (enqueue_point BFSController_init (new_search_point origin (1 # 4) 0))
                (new_search_point (mkPos (1 # 2) 0 0) (- (1 # 4)) 0)
  = enqueue_point BFSController_init (new_search_point origin (1 # 4) 0).
Proof.
  apply (enqueue_point_once BFSController_init
           (new_search_point origin (1 # 4) 0)
           (new_search_point (mkPos (1 # 2) 0 0) (- (1 # 4)) 0)).
  - reflexivity.
  - split; reflexivity.
Defined.

(** With a grid size of zero or less the threshold of [enqueue_point] is
    never met: every search point is queued, also one whose target has been
    seen already. *)
Theorem enqueue_point_no_threshold (b : BFSController) (sp : BFSSearchPoint) :
  grid_size b <= 0 ->
  enqueue_point b sp = appended b sp
  /\ queue (enqueue_point b sp) = queue b ++ [sp]
  /\ seen_points (enqueue_point b sp) = seen_points b ++ [target_point sp].
Proof.
  intros Hg. rewrite enqueue_point_unfold.
  assert (Hc : covered b (target_point sp) = false).
  { unfold covered. induction (seen_points b) as [| p l IH]; simpl; [reflexivity |].
    rewrite IH, orb_false_r. unfold sqrt_ltb.
    assert (Hn : Qltb 0 (grid_size b / 5) = false).
    { apply Qltb_ge. apply Qle_shift_div_r; [reflexivity | lra]. }
    now rewrite Hn. }
  rewrite Hc. repeat split.
Qed.

Lemma enqueue_point_no_threshold_witness :
  let b := enqueue_point (mkBFS Controller_init [] [] true [] [] [] 0)
                         (new_search_point origin 0 0) in
  enqueue_point b (new_search_point origin 0 0)
    = appended b (new_search_point origin 0 0)
  /\ queue (enqueue_point b (new_search_point origin 0 0))
     = queue b ++ [new_search_point origin 0 0]
  /\ seen_points (enqueue_point b (new_search_point origin 0 0))
     = seen_points b ++ [target_point (new_search_point origin 0 0)].
Proof.
  apply (enqueue_point_no_threshold
           (enqueue_point (mkBFS Controller_init [] [] true [] [] [] 0)
                          (new_search_point origin 0 0))
           (new_search_point origin 0 0)).
  apply Qle_refl.
Defined.

Lemma enqueue_points_fold (b : BFSController) (pos : Position) :
  enqueue_points b pos
  = if negb (allow_enqueue b) then b
    else fold_left enqueue_point (four_points pos (grid_size b)) b.
Proof.
  unfold enqueue_points. destruct (negb (allow_enqueue b)); [reflexivity |].
  simpl. now rewrite !enqueue_point_grid_size.
Qed.

(** The fields that [enqueue_point] leaves alone. *)
Definition rest_fields (b : BFSController) :=
  (base b, rotations b, horizons b, allow_enqueue b, grid_points b, grid_size b).

Lemma enqueue_point_fold_appends (l : list BFSSearchPoint) (b : BFSController) :
  exists new,
    queue (fold_left enqueue_point l b) = queue b ++ new
    /\ seen_points (fold_left enqueue_point l b)
       = seen_points b ++ map target_point new
    /\ (length new <= length l)%nat
    /\ incl new l
    /\ rest_fields (fold_left enqueue_point l b) = rest_fields b.
Proof.
  revert b. induction l as [| sp l IH]; intros b; simpl.
  - exists []. rewrite !app_nil_r. repeat split; auto using incl_refl.
  - destruct (IH (enqueue_point b sp)) as (new & Hq & Hs & Hlen & Hin & Hr).
    rewrite enqueue_point_unfold in Hq, Hs, Hr.
    rewrite (enqueue_point_unfold b sp).
    destruct (covered b (target_point sp)).
    + exists new. repeat split; auto. intros x Hx. right. now apply Hin.
    + exists (sp :: new). unfold appended in *. simpl in *.
      rewrite Hq, Hs, <- !app_assoc. simpl. repeat split; auto; try lia.
      intros x [<- | Hx]; [now left | right; now apply Hin].
Qed.

(** [enqueue_points] only appends: the queue and the seen points keep what
    they held, in order, and gain the same new entries, at most four, each
    one of the four candidates around the position; no other field changes,
    and nothing at all while [allow_enqueue] is off. *)
Theorem enqueue_points_appends (b : BFSController) (pos : Position) :
  exists new,
    queue (enqueue_points b pos) = queue b ++ new
    /\ seen_points (enqueue_points b pos) = seen_points b ++ map target_point new
    /\ (length new <= 4)%nat
    /\ incl new (four_points pos (grid_size b))
    /\ (allow_enqueue b = false -> new = [])
    /\ base (enqueue_points b pos) = base b
    /\ allow_enqueue (enqueue_points b pos) = allow_enqueue b
    /\ grid_points (enqueue_points b pos) = grid_points b
    /\ grid_size (enqueue_points b pos) = grid_size b.
Proof.
  rewrite enqueue_points_fold. destruct (allow_enqueue b) eqn:Ea; simpl.
  - destruct (enqueue_point_fold_appends (four_points pos (grid_size b)) b)
      as (new & Hq & Hs & Hlen & Hin & Hr).
    exists new. unfold rest_fields in Hr. injection Hr as H1 H2 H3 H4 H5 H6.
    repeat split; auto; try congruence.
  - exists []. rewrite !app_nil_r. repeat split; auto. intros x [].
Qed.

(** * One step of the search *)

Section QueueStepMore.

Variable World : Type.
Variable serve : World -> Action -> World * Event.
Context {cls : ControllerClass}.

Lemma queue_step_growth (b b' : BFSController) (w w' : World)
    (sp : BFSSearchPoint) (rest : list BFSSearchPoint) (o : Outcome Event) :
  queue b = sp :: rest ->
  queue_step serve b w = (b', w', o) ->
  exists new,
    queue b' = rest ++ new
    /\ seen_points b' = seen_points b ++ map target_point new
    /\ (length new <= 4)%nat
    /\ allow_enqueue b' = allow_enqueue b
    /\ grid_size b' = grid_size b
    /\ ((grid_points b' = grid_points b /\ new = []
         /\ forall ev, o = Return ev -> lastActionSuccess (metadata ev) = false)
        \/ exists ev, o = Return ev
                      /\ lastActionSuccess (metadata ev) = true
                      /\ grid_points b'
                         = grid_points b ++ [agent_position (agent (metadata ev))]).
Proof.
  intros Hq Hrun.
  destruct (queue_step_effects World serve b b' w w' sp rest o Hq Hrun)
    as [F Hfail | c w1 w2 ev1 ev H1 Ok1 H2 Ok2 Ho Hb].
  - apply search_fields_inv in F. simpl in F.
    destruct F as (Fa & Fq & Fs & Fg & Fz).
    exists []. rewrite !app_nil_r. repeat split; auto; left; auto.
  - subst b'. cbn zeta.
    set (pos := agent_position (agent (metadata ev))).
    destruct (enqueue_points_appends (with_base (with_queue b rest) c) pos)
      as (new & Eq & Es & Hlen & _ & _ & _ & Ea & Eg & Ez).
    exists new. simpl in *. rewrite Eq, Es, Ea, Eg, Ez.
    repeat split; auto. right. exists ev. auto.
Qed.

(** [queue_step] always consumes the head of the queue, also when it
    raises or the move fails.  The queue and the seen points gain the same
    new entries, at most four; the grid either stays as it is, and then
    nothing was queued, or gains exactly the position of the event
    returned, which is then a success.  A raise never changes the grid. *)
Theorem queue_step_consumes_head (b b' : BFSController) (w w' : World)
    (sp : BFSSearchPoint) (rest : list BFSSearchPoint) (o : Outcome Event) :
  queue b = sp :: rest ->
  queue_step serve b w = (b', w', o) ->
  exists new,
    queue b' = rest ++ new
    /\ seen_points b' = seen_points b ++ map target_point new
    /\ (length new <= 4)%nat
    /\ ((grid_points b' = grid_points b /\ new = [])
        \/ exists ev, o = Return ev
                      /\ lastActionSuccess (metadata ev) = true
                      /\ grid_points b'
                         = grid_points b ++ [agent_position (agent (metadata ev))])
    /\ (forall e, o = Raise e -> grid_points b' = grid_points b /\ new = []).
Proof.
  intros Hq Hrun.
  destruct (queue_step_growth b b' w w' sp rest o Hq Hrun)
    as (new & Eq & Es & Hlen & _ & _ & Hgrid).
  exists new. repeat split; auto.
  - destruct Hgrid as [(Hg & Hn & _) | Hacc]; [left; auto | right; exact Hacc].
  - destruct Hgrid as [(Hg & Hn & _) | (ev & Ho & _)]; [tauto | congruence].
  - destruct Hgrid as [(Hg & Hn & _) | (ev & Ho & _)]; [tauto | congruence].
Qed.

(** ** Invariants of the two searches *)

Section Preserved.

Variable P : BFSController -> Prop.
Hypothesis P_fields :
  forall b b', search_fields b' = search_fields b -> P b -> P b'.
Hypothesis P_step :
  forall b b' w w' o, P b -> queue_step serve b w = (b', w', o) -> P b'.

Lemma queue_loop_preserves (fuel : nat) (b b' : BFSController) (w w' : World)
    (o : Outcome unit) :
  P b -> queue_loop serve fuel b w = Some (b', w', o) -> P b'.
Proof.
  revert b w. induction fuel as [| fuel IH]; intros b w Hb; simpl.
  - destruct (queue b); [| discriminate]. intros H. inversion H; subst. exact Hb.
  - destruct (queue b); [intros H; inversion H; subst; exact Hb |].
    destruct (queue_step serve b w) as [[b1 w1] o1] eqn:E1.
    pose proof (P_step _ _ _ _ _ Hb E1) as Hb1.
    destruct o1 as [ev | e].
    + apply IH. exact Hb1.
    + intros H. inversion H; subst. exact Hb1.
Qed.

Hypothesis P_enqueue : forall b pos, P b -> P (enqueue_points b pos).

Lemma search_all_closed_preserves (fuel : nat) (scene_name : string)
    (b b' : BFSController) (w w' : World) (o : Outcome unit) :
  P (clear_search (with_allow_enqueue b true)) ->
  search_all_closed serve fuel scene_name b w = Some (b', w', o) -> P b'.
Proof.
  intros H0. unfold search_all_closed.
  set (b0 := clear_search (with_allow_enqueue b true)) in *.
  destruct (BFS_reset serve scene_name b0 w) as [[b1 w1] o1] eqn:E1.
  pose proof (BFS_reset_fields _ _ _ _ _ _ _ _ E1) as F1.
  destruct o1 as [ev1 | e1].
  2:{ intros H. inversion H; subst. now apply (P_fields b0). }
  match goal with |- context [BFS_step serve ?a false b1 w1] =>
    destruct (BFS_step serve a false b1 w1) as [[b2 w2] o2] eqn:E2 end.
  pose proof (BFS_step_fields _ _ _ _ _ _ _ _ _ E2) as F2.
  destruct o2 as [ev2 | e2].
  2:{ intros H. inversion H; subst. apply (P_fields b1); auto.
      now apply (P_fields b0). }
  apply queue_loop_preserves. apply P_enqueue.
  apply (P_fields b1); auto. now apply (P_fields b0).
Qed.

Variable receptacles_to_open : Event -> list string.
Hypothesis P_prune : forall b, P b -> P (prune_points b).

Lemma start_search_preserves (scene_name : string) (random_seed : Q)
    (full_grid : list Position) (randomize : bool)
    (b b' : BFSController) (w w' : World) (o : Outcome unit) :
  P (start_search_seed b full_grid) ->
  start_search serve receptacles_to_open scene_name random_seed full_grid
               randomize b w = Some (b', w', o) ->
  P b'.
Proof.
  intros H0. unfold start_search.
  set (b0 := start_search_seed b full_grid) in *.
  destruct (BFS_reset serve scene_name b0 w) as [[b1 w1] o1] eqn:E1.
  pose proof (BFS_reset_fields _ _ _ _ _ _ _ _ E1) as F1.
  pose proof (P_fields _ _ F1 H0) as H1.
  destruct o1 as [ev1 | e1].
  2:{ intros H. inversion H; subst. exact H1. }
  assert (Hri : forall b2 w2 o2,
            (if randomize then random_initialize World serve random_seed b1 w1
             else (b1, w1, Return ev1)) = (b2, w2, o2) -> P b2).
  { intros b2 w2 o2. destruct randomize.
    - unfold random_initialize. intros E.
      apply (P_fields b1); [| exact H1].
      apply (BFS_step_fields _ _ _ _ _ _ _ _ _ E).
    - intros E. inversion E; subst. exact H1. }
  destruct (if randomize then random_initialize World serve random_seed b1 w1
            else (b1, w1, Return ev1)) as [[b2 w2] o2] eqn:E2.
  pose proof (Hri _ _ _ eq_refl) as H2.
  destruct o2 as [ev2 | e2].
  2:{ intros H. inversion H; subst. exact H2. }
  destruct (initialize_scene World serve receptacles_to_open b2 w2)
    as [[b3 w3] o3] eqn:E3.
  pose proof (initialize_scene_fields _ _ _ _ _ _ _ _ E3) as F3.
  pose proof (P_fields _ _ F3 H2) as H3.
  destruct o3 as [u | e3].
  2:{ intros H. inversion H; subst. exact H3. }
  destruct (queue_loop serve (length (queue b3)) b3 w3) as [[[b4 w4] o4] |] eqn:E4;
    [| discriminate].
  pose proof (queue_loop_preserves _ _ _ _ _ _ H3 E4) as H4.
  destruct o4 as [u4 | e4]; intros H; inversion H; subst; auto.
Qed.

End Preserved.

(** ** No grid point above 1.3 *)

Definition low (p : Position) : Prop := pos_y p <= 13 # 10.

Lemma queue_step_low (b b' : BFSController) (w w' : World) (o : Outcome Event) :
  Forall low (grid_points b) ->
  queue_step serve b w = (b', w', o) ->
  Forall low (grid_points b').
Proof.
  intros Hlow. unfold queue_step.
  destruct (queue b) as [| sp rest] eqn:Hq.
  { intros H. inversion H; subst. exact Hlow. }
  destruct (BFS_step serve (teleport_action (start_position sp)) false
              (with_queue b rest) w) as [[b1 w1] o1] eqn:E1.
  pose proof (BFS_step_fields _ _ _ _ _ _ _ _ _ E1) as F1.
  apply search_fields_inv in F1. simpl in F1. destruct F1 as (_ & _ & _ & G1 & _).
  destruct o1 as [ev1 | e1].
  2:{ intros H. inversion H; subst. now rewrite G1. }
  destruct (lastActionSuccess (metadata ev1)); simpl.
  2:{ intros H. inversion H; subst. now rewrite G1. }
  destruct (BFS_step serve (move_action (move_vector sp) (grid_size b1)) false b1 w1)
    as [[b2 w2] o2] eqn:E2.
  pose proof (BFS_step_fields _ _ _ _ _ _ _ _ _ E2) as F2.
  apply search_fields_inv in F2. destruct F2 as (_ & _ & _ & G2 & _).
  destruct o2 as [ev2 | e2].
  2:{ intros H. inversion H; subst. now rewrite G2, G1. }
  destruct (lastActionSuccess (metadata ev2)).
  2:{ intros H. inversion H; subst. now rewrite G2, G1. }
  destruct (Qltb (13 # 10) (pos_y (agent_position (agent (metadata ev2))))) eqn:Ey.
  { intros H. inversion H; subst. now rewrite G2, G1. }
  intros H. inversion H; subst. simpl.
  rewrite enqueue_points_grid_points, G2, G1.
  apply Forall_app. split; [exact Hlow |].
  constructor; [| constructor]. apply Qltb_ge in Ey. exact Ey.
Qed.

Lemma prune_points_low (b : BFSController) :
  Forall low (grid_points b) -> Forall low (grid_points (prune_points b)).
Proof.
  intros H. unfold prune_points. simpl.
  apply Forall_forall. intros p Hp. apply filter_In in Hp as [Hp _].
  revert p Hp. now apply Forall_forall.
Qed.

Variable receptacles_to_open : Event -> list string.

(** Neither search ever records a grid point whose height is above 1.3:
    this holds of the grid that [search_all_closed] or [start_search] leaves
    behind, however it ends, for every engine. *)
Theorem searches_record_no_high_point :
  (forall (fuel : nat) (scene_name : string) (b b' : BFSController)
          (w w' : World) (o : Outcome unit),
     search_all_closed serve fuel scene_name b w = Some (b', w', o) ->
     Forall (fun p => pos_y p <= 13 # 10) (grid_points b'))
  /\ (forall (scene_name : string) (random_seed : Q) (full_grid : list Position)
             (randomize : bool) (b b' : BFSController) (w w' : World)
             (o : Outcome unit),
        start_search serve receptacles_to_open scene_name random_seed full_grid
                     randomize b w = Some (b', w', o) ->
        Forall (fun p => pos_y p <= 13 # 10) (grid_points b')).
Proof.
  assert (Pf : forall b b', search_fields b' = search_fields b ->
                            Forall low (grid_points b) -> Forall low (grid_points b')).
  { intros b b' F H. apply search_fields_inv in F.
    destruct F as (_ & _ & _ & G & _). now rewrite G. }
  assert (Pe : forall b pos, Forall low (grid_points b) ->
                             Forall low (grid_points (enqueue_points b pos))).
  { intros b pos H. now rewrite enqueue_points_grid_points. }
  split.
  - intros fuel scene_name b b' w w' o Hrun.
    apply (search_all_closed_preserves (fun b => Forall low (grid_points b))
             Pf queue_step_low Pe fuel scene_name b b' w w' o); [| exact Hrun].
    constructor.
  - intros scene_name random_seed full_grid randomize b b' w w' o Hrun.
    apply (start_search_preserves (fun b => Forall low (grid_points b))
             Pf queue_step_low receptacles_to_open prune_points_low
             scene_name random_seed full_grid randomize b b' w w' o);
      [| exact Hrun].
    unfold start_search_seed. simpl.
    assert (Hfold : forall l b0, grid_points (fold_left enqueue_points l b0)
                                 = grid_points b0).
    { induction l as [| p l IH]; intros b0; simpl; [reflexivity |].
      now rewrite IH, enqueue_points_grid_points. }
    rewrite Hfold. constructor.
Qed.

(** ** The size of the seeded grid *)

Definition seeded_budget (n : nat) (b : BFSController) : Prop :=
  allow_enqueue b = false
  /\ (length (grid_points b) + length (queue b) <= n)%nat.

Lemma seeded_budget_step (n : nat) (b b' : BFSController) (w w' : World)
    (o : Outcome Event) :
  seeded_budget n b -> queue_step serve b w = (b', w', o) -> seeded_budget n b'.
Proof.
  intros [Ha Hn] Hrun. destruct (queue b) as [| sp rest] eqn:Hq.
  - unfold queue_step in Hrun. rewrite Hq in Hrun. inversion Hrun; subst.
    split; [exact Ha | now rewrite Hq].
  - destruct (queue_step_closed World serve b b' w w' sp rest o Ha Hq Hrun)
      as (Ha' & Hq' & _ & _ & _).
    destruct (queue_step_growth b b' w w' sp rest o Hq Hrun)
      as (new & _ & _ & _ & _ & _ & Hgrid).
    split; [exact Ha' |]. rewrite Hq'. simpl in Hn.
    destruct Hgrid as [(Hg & _) | (ev & _ & _ & Hg)]; rewrite Hg.
    + lia.
    + rewrite length_app. simpl. lia.
Qed.

Lemma seed_queue_length (l : list Position) (b : BFSController) :
  (length (queue (fold_left enqueue_points l b))
   <= length (queue b) + 4 * length l)%nat
  /\ grid_points (fold_left enqueue_points l b) = grid_points b.
Proof.
  revert b. induction l as [| p l IH]; intros b; simpl; [split; [lia | reflexivity] |].
  destruct (IH (enqueue_points b p)) as [Hl Hg].
  destruct (enqueue_points_appends b p) as (new & Eq & _ & Hlen & _ & _ & _ & _ & Eg & _).
  rewrite Eq, length_app in Hl. split; [lia | congruence].
Qed.

(** The seeded search visits each queued candidate once and queues no
    other: the grid that [start_search] leaves has at most four points for
    each point of the supplied grid. *)
Theorem start_search_grid_bound (scene_name : string) (random_seed : Q)
    (full_grid : list Position) (randomize : bool)
    (b b' : BFSController) (w w' : World) (o : Outcome unit) :
  start_search serve receptacles_to_open scene_name random_seed full_grid
               randomize b w = Some (b', w', o) ->
  (length (grid_points b') <= 4 * length full_grid)%nat.
Proof.
  intros Hrun.
  assert (H : seeded_budget (4 * length full_grid) b').
  { apply (start_search_preserves (seeded_budget (4 * length full_grid)))
      with (receptacles_to_open := receptacles_to_open) (scene_name := scene_name)
           (random_seed := random_seed) (full_grid := full_grid)
           (randomize := randomize) (b := b) (w := w) (w' := w') (o := o);
      auto.
    - intros b1 b2 F [Ha Hn]. apply search_fields_inv in F.
      destruct F as (Fa & Fq & _ & Fg & _). split; congruence.
    - apply seeded_budget_step.
    - intros b1 [Ha Hn]. split; [exact Ha |].
      unfold prune_points. simpl.
      pose proof (filter_length_le
                    (prune_found (grid_size b1)
                       (map (fun gp => key_for_point (pos_x gp) (pos_z gp))
                            (grid_points b1)))
                    (grid_points b1)). lia.
    - unfold start_search_seed. split; [reflexivity |]. simpl.
      destruct (seed_queue_length full_grid
                  (with_allow_enqueue (clear_search b) true)) as [Hl Hg].
      rewrite Hg. simpl in *. lia. }
  destruct H as [_ H]. lia.
Qed.

End QueueStepMore.

Lemma queue_step_consumes_head_witness :
  exists b' w' o new,
    queue_step (cls := Controller_class) serve_plane
               (start_search_seed bfs_started [origin]) origin = (b', w', o)
    /\ queue b' = tl (queue (start_search_seed bfs_started [origin])) ++ new
    /\ seen_points b'
       = seen_points (start_search_seed bfs_started [origin])
         ++ map target_point new
    /\ (length new <= 4)%nat
    /\ ((grid_points b' = grid_points (start_search_seed bfs_started [origin])
         /\ new = [])
        \/ exists ev, o = Return ev
                      /\ lastActionSuccess (metadata ev) = true
                      /\ grid_points b'
                         = grid_points (start_search_seed bfs_started [origin])
                           ++ [agent_position (agent (metadata ev))])
    /\ (forall e, o = Raise e ->
        grid_points b' = grid_points (start_search_seed bfs_started [origin])
        /\ new = []).
Proof.
  destruct (queue_step (cls := Controller_class) serve_plane
              (start_search_seed bfs_started [origin]) origin)
    as [[b' w'] o] eqn:E.
  destruct (queue_step_consumes_head Position serve_plane (cls := Controller_class)
              (start_search_seed bfs_started [origin]) b' origin w'
              (hd (new_search_point origin 0 0)
                  (queue (start_search_seed bfs_started [origin])))
              (tl (queue (start_search_seed bfs_started [origin])))
              o eq_refl E) as (new & H).
  exists b', w', o, new. split; [reflexivity | exact H].
Defined.

Lemma start_search_grid_bound_witness :
  exists b' w' o,
    start_search (cls := Controller_class) serve_plane no_receptacles
                 "FloorPlan1" 0 grid_two_lattices false bfs_started origin
    = Some (b', w', o)
    /\ (length (grid_points b') <= 4 * length grid_two_lattices)%nat.
Proof.
  destruct (start_search (cls := Controller_class) serve_plane no_receptacles
              "FloorPlan1" 0 grid_two_lattices false bfs_started origin)
    as [[[b' w'] o] |] eqn:E.
  - exists b', w', o. split; [reflexivity |].
    exact (start_search_grid_bound Position serve_plane (cls := Controller_class)
             no_receptacles "FloorPlan1" 0 grid_two_lattices false bfs_started b'
             origin w' o E).
  - vm_compute in E. discriminate E.
Defined.
(** * The objects that [random_initialize] excludes *)

Definition pot_or_pan (obj : SimObject) : bool :=
  str_in (objectType obj) ["Pot"; "Pan"]%string.

(** One round of the loop over the objects. *)
Definition exclude_round (pivot_points : list (string * list string))
    (acc : Outcome (list string)) (obj : SimObject) : Outcome (list string) :=
  exclude_object_ids <- acc ;;
  has_pivots <-
    (match pivot_points with
     | [] => Return false
     | _ :: _ =>
         if receptacle obj then
           keys <- lookup_or_KeyError
                     (dict_get String.eqb pivot_points (objectId obj)) ;;
           Return (match keys with [] => false | _ :: _ => true end)
         else Return false
     end) ;;
  if has_pivots || str_in (objectType obj) ["Pot"; "Pan"]%string
  then Return (exclude_object_ids ++ [objectId obj])
  else Return exclude_object_ids.

Lemma exclude_object_ids_rounds (pivot_points : list (string * list string))
    (objects : list SimObject) :
  exclude_object_ids pivot_points objects
  = fold_left (exclude_round pivot_points) objects (Return []).
Proof. reflexivity. Qed.

Lemma exclude_rounds_raise (pivot_points : list (string * list string))
    (objects : list SimObject) (e : Exn) :
  fold_left (exclude_round pivot_points) objects (Raise e) = Raise e.
Proof. induction objects as [| obj l IH]; simpl; [reflexivity | exact IH]. Qed.

Lemma exclude_rounds_default (objects : list SimObject) (acc : list string) :
  fold_left (exclude_round []) objects (Return acc)
  = Return (acc ++ map objectId (filter pot_or_pan objects)).
Proof.
  revert acc. induction objects as [| obj l IH]; intros acc; cbn [fold_left].
  - simpl. now rewrite app_nil_r.
  - unfold exclude_round at 2. cbn [obind orb]. fold (pot_or_pan obj).
    cbn [filter]. destruct (pot_or_pan obj).
    + rewrite IH. cbn [map]. now rewrite <- app_assoc.
    + apply IH.
Qed.

Lemma exclude_rounds_missing (p0 : string * list string)
    (pivot_points : list (string * list string))
    (objects : list SimObject) (acc : list string) :
  (exists obj, In obj objects /\ receptacle obj = true
               /\ dict_get String.eqb (p0 :: pivot_points) (objectId obj) = None) ->
  fold_left (exclude_round (p0 :: pivot_points)) objects (Return acc)
  = Raise KeyError.
Proof.
  revert acc. induction objects as [| obj l IH]; intros acc (bad & Hin & Hr & Hget);
    [destruct Hin |].
  cbn [fold_left]. unfold exclude_round at 2. cbn [obind].
  destruct (receptacle obj) eqn:Er.
  - destruct (dict_get String.eqb (p0 :: pivot_points) (objectId obj))
      as [keys |] eqn:Eg; cbn [lookup_or_KeyError obind].
    + destruct Hin as [-> | Hin]; [congruence |].
      destruct (_ || _); apply IH; exists bad; auto.
    + apply exclude_rounds_raise.
  - cbn [obind]. destruct Hin as [-> | Hin]; [congruence |].
    destruct (_ || _); apply IH; exists bad; auto.
Qed.

(** With [receptacle_nearest_pivot_points] empty, as [__init__] leaves it,
    [random_initialize] excludes exactly the objects of type Pot or Pan, in
    the order of the object list.  With a table that is not empty, a
    receptacle whose id the table lacks makes the loop fail with
    KeyError. *)
Theorem random_initialize_excludes_pots_and_pans (objects : list SimObject) :
  exclude_object_ids [] objects
  = Return (map objectId
              (filter (fun obj => str_in (objectType obj) ["Pot"; "Pan"]%string)
                      objects))
  /\ (forall p0 pivot_points,
        (exists obj, In obj objects /\ receptacle obj = true
                     /\ dict_get String.eqb (p0 :: pivot_points) (objectId obj)
                        = None) ->
        exclude_object_ids (p0 :: pivot_points) objects = Raise KeyError).
Proof.
  split.
  - rewrite exclude_object_ids_rounds, exclude_rounds_default. reflexivity.
  - intros p0 pivot_points H. rewrite exclude_object_ids_rounds.
    now apply exclude_rounds_missing.
Qed.

(** * The circles of [visualize_points] *)







Section Circles.

Variables min_x max_x min_z max_z : Q.





End Circles.

(** * The receptacles that [initialize_scene] opens *)

Lemma dict_get_keys {A : Type} (d : list (string * A)) (k : string) :
  In k (map fst d) -> exists v, dict_get String.eqb d k = Some v.
Proof.
  induction d as [| [k' v'] d IH]; simpl; [intros [] |].
  destruct (String.eqb k' k) eqn:E; [eauto |].
  intros [H | H]; [| now apply IH].
  apply String.eqb_neq in E. congruence.
Qed.

Lemma dict_get_in_keys {A : Type} (d : list (string * A)) (k : string) (v : A) :
  dict_get String.eqb d k = Some v -> In k (map fst d).
Proof.
  intros H. apply (dict_get_In string A String.eqb String.eqb_eq) in H.
  now apply (in_map fst d (k, v)).
Qed.

(** The pairs (contained object, receptacle) in the order of the loops. *)
Definition contents (objects : list SimObject) : list (string * SimObject) :=
  flat_map (fun obj => map (fun oid => (oid, obj)) (receptacleObjectIds obj))
           (filter receptacle objects).

Lemma contents_In (objects : list SimObject) (oid : string) (obj : SimObject) :
  In (oid, obj) (contents objects)
  <-> In obj objects /\ receptacle obj = true /\ In oid (receptacleObjectIds obj).
Proof.
  unfold contents. rewrite in_flat_map. split.
  - intros (o & Ho & Hin). apply filter_In in Ho as [Ho Hr].
    apply in_map_iff in Hin as (k & E & Hk). injection E as <- <-. auto.
  - intros (Ho & Hr & Hk). exists obj. split; [now apply filter_In |].
    apply in_map_iff. eauto.
Qed.

Lemma nested_fold_pairs {A V : Type} (ids : A -> list string) (val : A -> V)
    (keep : A -> bool) (objs : list A) (d0 : list (string * V)) :
  fold_left
    (fun d obj =>
       fold_left (fun d oid => if keep obj then dict_set String.eqb d oid (val obj)
                               else d)
                 (ids obj) d)
    objs d0
  = dict_of string V String.eqb
      (flat_map (fun obj => map (fun oid => (oid, val obj)) (ids obj))
                (filter keep objs))
      d0.
Proof.
  unfold dict_of. revert d0. induction objs as [| obj objs IH]; intros d0; simpl;
    [reflexivity |].
  rewrite IH. destruct (keep obj); simpl.
  - rewrite fold_left_app. f_equal. rewrite fold_left_map. reflexivity.
  - f_equal. induction (ids obj) as [| oid l IHl]; simpl; auto.
Qed.

Lemma filter_all {A : Type} (l : list A) : filter (fun _ => true) l = l.
Proof. induction l; simpl; congruence. Qed.

Lemma object_receptacle_pairs (objects : list SimObject) :
  object_receptacle_of objects
  = dict_of string SimObject String.eqb (contents objects) [].
Proof.
  unfold contents.
  pose proof (nested_fold_pairs receptacleObjectIds (fun obj : SimObject => obj)
                (fun _ => true) (filter receptacle objects) []) as H.
  rewrite filter_all in H. rewrite <- H. reflexivity.
Qed.

Lemma open_pickupable_pairs (objects : list SimObject)
    (orec : list (string * SimObject)) :
  open_pickupable_of objects orec
  = dict_of string string String.eqb
      (flat_map (fun obj => map (fun oid => (oid, objectId obj))
                                (receptacleObjectIds obj))
                (filter (opens orec) (filter receptacle objects)))
      [].
Proof.
  unfold open_pickupable_of.
  apply (nested_fold_pairs receptacleObjectIds objectId (opens orec)).
Qed.

(** What an entry of [open_pickupable] says. *)
Lemma open_pickupable_entry (objects : list SimObject) (oid roid : string) :
  In (oid, roid)
     (open_pickupable_of objects (object_receptacle_of objects)) ->
  exists obj, In obj objects /\ receptacle obj = true /\ objectId obj = roid
              /\ In oid (receptacleObjectIds obj)
              /\ opens (object_receptacle_of objects) obj = true.
Proof.
  rewrite open_pickupable_pairs. intros H.
  apply (dict_of_In string string String.eqb String.eqb_eq) in H as [H | []].
  apply in_flat_map in H as (obj & Ho & Hin).
  apply filter_In in Ho as [Ho Hop]. apply filter_In in Ho as [Ho Hr].
  apply in_map_iff in Hin as (k & E & Hk). injection E as <- <-.
  exists obj. auto.
Qed.

Lemma open_pickupable_key_contained (objects : list SimObject) (oid : string) :
  In oid (map fst (open_pickupable_of objects (object_receptacle_of objects))) ->
  exists obj, dict_get String.eqb (object_receptacle_of objects) oid = Some obj.
Proof.
  intros H. apply in_map_iff in H as ([k roid] & E & Hin). simpl in E. subst k.
  apply open_pickupable_entry in Hin as (obj & Ho & Hr & _ & Hk & _).
  rewrite object_receptacle_pairs.
  apply (dict_of_get_exists string SimObject String.eqb String.eqb_eq)
    with (v := obj).
  apply contents_In. auto.
Qed.

Lemma second_target_returns (orec : list (string * SimObject)) (target : string)
    (keys : list string) :
  (exists t, dict_get String.eqb orec target = Some t) ->
  (forall oid, In oid keys -> exists c, dict_get String.eqb orec oid = Some c) ->
  exists r, second_target orec target keys = Return r
            /\ forall oid, r = Some oid -> In oid keys.
Proof.
  intros [t Ht] Hkeys. induction keys as [| oid rest IH]; simpl.
  - exists None. split; [reflexivity | discriminate].
  - rewrite Ht. destruct (Hkeys oid (or_introl eq_refl)) as [c Hc]. rewrite Hc.
    cbn [lookup_or_KeyError obind].
    destruct (far_receptacles (position t) (position c)).
    + exists (Some oid). split; [reflexivity |]. intros ? E. injection E as <-. now left.
    + destruct IH as (r & Hr & Hin); [intros; apply Hkeys; now right |].
      exists r. split; [exact Hr |]. intros x Hx. right. now apply Hin.
Qed.

Lemma lookup_all_returns {A : Type} (d : list (string * A)) (keys : list string) :
  (forall k, In k keys -> In k (map fst d)) ->
  exists vs, lookup_all d keys = Return vs
             /\ length vs = length keys
             /\ forall v, In v vs -> exists k, In (k, v) d.
Proof.
  induction keys as [| k keys IH]; intros H; simpl.
  - exists []. repeat split. intros v [].
  - destruct (dict_get_keys d k (H k (or_introl eq_refl))) as [v Hv].
    destruct IH as (vs & Hvs & Hlen & Hin); [intros; apply H; now right |].
    rewrite Hv, Hvs. cbn [lookup_or_KeyError obind].
    exists (v :: vs). repeat split; [simpl; congruence |].
    intros x [<- | Hx]; [| now apply Hin].
    exists k. now apply (dict_get_In string A String.eqb String.eqb_eq).
Qed.

Lemma py_set_incl (l : list string) : incl (py_set l) l.
Proof.
  induction l as [| x l IH]; simpl; [apply incl_refl |].
  intros y [<- | Hy]; [now left |].
  right. apply filter_In in Hy as [Hy _]. now apply IH.
Qed.

Lemma py_set_length (l : list string) : (length (py_set l) <= length l)%nat.
Proof.
  induction l as [| x l IH]; simpl; [lia |].
  pose proof (filter_length_le (fun y => negb (String.eqb x y)) (py_set l)). lia.
Qed.

Lemma py_set_NoDup (l : list string) : NoDup (py_set l).
Proof.
  induction l as [| x l IH]; simpl; constructor.
  - intros H. apply filter_In in H as [_ H]. now rewrite String.eqb_refl in H.
  - now apply NoDup_filter.
Qed.

Lemma receptacles_to_open_spec (sample : list string -> string)
    (shuffle : list string -> list string) (objects : list SimObject) :
  fair_random sample shuffle ->
  exists roids,
    receptacles_to_open_of sample shuffle objects = Return roids
    /\ (length roids <= 2)%nat
    /\ NoDup roids
    /\ forall roid, In roid roids ->
         exists obj oid,
           In obj objects /\ receptacle obj = true /\ objectId obj = roid
           /\ In oid (receptacleObjectIds obj)
           /\ opens (object_receptacle_of objects) obj = true.
Proof.
  intros [Hsample Hshuffle]. unfold receptacles_to_open_of.
  set (orec := object_receptacle_of objects).
  set (op := open_pickupable_of objects orec).
  assert (Htargets : exists targets,
            (match map fst op with
             | [] => Return []
             | _ :: _ =>
                 second <- second_target orec (sample (map fst op))
                             (shuffle (map fst op)) ;;
                 Return (sample (map fst op)
                         :: match second with Some oid => [oid] | None => [] end)
             end) = Return targets
            /\ (length targets <= 2)%nat
            /\ forall k, In k targets -> In k (map fst op)).
  { destruct (map fst op) as [| k0 ks] eqn:Ek.
    - exists []. repeat split; [simpl; lia | intros k []].
    - rewrite <- Ek.
      assert (Hfirst : In (sample (map fst op)) (map fst op)).
      { apply Hsample. rewrite Ek. discriminate. }
      destruct (second_target_returns orec (sample (map fst op)) (shuffle (map fst op)))
        as (r & Hr & Hin).
      + now apply open_pickupable_key_contained.
      + intros oid Hoid. apply open_pickupable_key_contained. now apply Hshuffle.
      + rewrite Hr. cbn [obind]. eexists. split; [reflexivity |].
        destruct r as [oid |]; simpl; (split; [lia |]).
        * intros k [<- | [<- | []]]; [exact Hfirst |].
          apply Hshuffle. now apply Hin.
        * intros k [<- | []]. exact Hfirst. }
  destruct Htargets as (targets & Ht & Hlen & Hkeys).
  destruct (map fst op) as [| k0 ks] eqn:Ek.
  - rewrite Ht. cbn [obind].
    destruct (lookup_all_returns op targets) as (vs & Hvs & Hl & Hin).
    { intros k Hk. apply Hkeys in Hk. destruct Hk. }
    rewrite Hvs. cbn [obind]. exists (py_set vs).
    split; [reflexivity | split; [| split]].
    + pose proof (py_set_length vs). lia.
    + apply py_set_NoDup.
    + intros roid Hroid. apply py_set_incl in Hroid.
      destruct (Hin roid Hroid) as (k & Hk).
      destruct (open_pickupable_entry objects k roid Hk) as (obj & H).
      exists obj, k. tauto.
  - rewrite Ht. cbn [obind].
    destruct (lookup_all_returns op targets) as (vs & Hvs & Hl & Hin).
    { intros k Hk. rewrite Ek. now apply Hkeys. }
    rewrite Hvs. cbn [obind]. exists (py_set vs).
    split; [reflexivity | split; [| split]].
    + pose proof (py_set_length vs). lia.
    + apply py_set_NoDup.
    + intros roid Hroid. apply py_set_incl in Hroid.
      destruct (Hin roid Hroid) as (k & Hk).
      destruct (open_pickupable_entry objects k roid Hk) as (obj & H).
      exists obj, k. tauto.
Qed.

(** Whatever [random] picks, [initialize_scene] chooses at most two
    receptacles to open, each once; every one is a receptacle of the object
    list that holds some object and that opens, or that lies itself in a
    receptacle that opens.  No lookup fails on the way. *)
Theorem initialize_scene_opens_at_most_two (sample : list string -> string)
    (shuffle : list string -> list string) (objects : list SimObject) :
  fair_random sample shuffle ->
  exists roids,
    receptacles_to_open_of sample shuffle objects = Return roids
    /\ (length roids <= 2)%nat
    /\ NoDup roids
    /\ forall roid, In roid roids ->
         exists obj oid,
           In obj objects /\ receptacle obj = true /\ objectId obj = roid
           /\ In oid (receptacleObjectIds obj)
           /\ (openable obj = true
               \/ exists container,
                    dict_get String.eqb (object_receptacle_of objects) (objectId obj)
                    = Some container
                    /\ openable container = true).
Proof.
  intros Hfair.
  destruct (receptacles_to_open_spec sample shuffle objects Hfair)
    as (roids & Hrun & Hlen & Hnd & Hall).
  exists roids. repeat split; auto.
  intros roid Hroid. destruct (Hall roid Hroid) as (obj & oid & Ho & Hr & Hid & Hk & Hop).
  exists obj, oid. repeat split; auto.
  unfold opens in Hop. apply orb_true_iff in Hop as [Hop | Hop]; [now left |].
  right. destruct (dict_get String.eqb _ (objectId obj)) as [container |];
    [| discriminate].
  exists container. auto.
Qed.

Lemma first_of_fair : fair_random first_of as_it_is.
Proof.
  split.
  - intros [| x l] H; [congruence | now left].
  - intros l. apply incl_refl.
Qed.

Lemma initialize_scene_opens_at_most_two_witness :
  exists roids,
    receptacles_to_open_of first_of as_it_is kitchen = Return roids
    /\ (length roids <= 2)%nat
    /\ NoDup roids
    /\ forall roid, In roid roids ->
         exists obj oid,
           In obj kitchen /\ receptacle obj = true /\ objectId obj = roid
           /\ In oid (receptacleObjectIds obj)
           /\ (openable obj = true
               \/ exists container,
                    dict_get String.eqb (object_receptacle_of kitchen) (objectId obj)
                    = Some container
                    /\ openable container = true).
Proof.
  exact (initialize_scene_opens_at_most_two first_of as_it_is kitchen first_of_fair).
Defined.

Example kitchen_receptacles :
  receptacles_to_open_of first_of as_it_is kitchen
  = Return ["Fridge|1"; "Cabinet|1"]%string
  /\ exclude_object_ids [] kitchen = Return ["Pan|1"]%string.
Proof. split; reflexivity. Qed.
(** * What [initialize_scene] asks of the engine *)

(** The action of one [OpenObject] step. *)
Definition open_action (roid : string) : Action :=
  mkAction "OpenObject"
    [("objectId"%string, VStr roid); ("forceVisible"%string, VBool true)].

Section Traffic.

Variable World : Type.
Variable serve : World -> Action -> World * Event.
Context {cls : ControllerClass}.

Lemma step_log (c : Controller) (w : World) (log : list Action) (a : Action)
    (r : bool) :
  exists c' w' o sent,
    step (serve_log serve) c (w, log) a r = (c', (w', log ++ sent), o)
    /\ (sent = [] \/ sent = [action_filtered a]).
Proof.
  unfold step.
  destruct (negb (_check_action a)).
  - destruct (last_event c);
      do 3 eexists; exists []; rewrite app_nil_r; (split; [reflexivity | now left]).
  - destruct (request_queue c).
    + do 3 eexists. exists []. rewrite app_nil_r. split; [reflexivity | now left].
    + destruct (response_queue c).
      * do 3 eexists. exists []. rewrite app_nil_r. split; [reflexivity | now left].
      * unfold serve_log at 1. cbn [fst snd].
        destruct (serve w (action_filtered a)) as [w' ev].
        destruct (r && negb (lastActionSuccess (metadata ev)));
          do 3 eexists; exists [action_filtered a];
          (split; [reflexivity | now right]).
Qed.

Lemma open_receptacles_log (roids : list string) (b : BFSController)
    (w : World) (log : list Action) :
  exists b' w' o sent,
    open_receptacles (World * list Action) (serve_log serve) roids b (w, log)
      = (b', (w', log ++ sent), o)
    /\ (length sent <= length roids)%nat
    /\ Forall (fun a => exists roid, In roid roids /\ a = open_action roid) sent.
Proof.
  revert b w log. induction roids as [| roid roids IH]; intros b w log.
  - exists b, w, (Return tt), []. simpl. rewrite app_nil_r. auto.
  - cbn [open_receptacles]. unfold BFS_step at 1.
    destruct (step_log (base b) w log (open_action roid) true)
      as (c1 & w1 & o1 & sent1 & Hstep & Hsent).
    fold (open_action roid). rewrite Hstep.
    assert (H1 : (length sent1 <= 1)%nat
                 /\ Forall (fun a => exists r, In r (roid :: roids) /\ a = open_action r)
                           sent1).
    { destruct Hsent as [-> | ->]; simpl; split; try lia; constructor.
      - exists roid. split; [now left | reflexivity].
      - constructor. }
    destruct H1 as [L1 F1].
    destruct o1 as [ev | e].
    + destruct (IH (with_base b c1) w1 (log ++ sent1))
        as (b' & w' & o & sent & Hrun & Hlen & Hall).
      rewrite Hrun. exists b', w', o, (sent1 ++ sent).
      rewrite app_assoc. split; [reflexivity |]. split.
      * rewrite length_app. simpl. lia.
      * apply Forall_app. split; [exact F1 |].
        apply Forall_forall. intros a Ha.
        rewrite Forall_forall in Hall. destruct (Hall a Ha) as (r & Hr & Ea).
        exists r. split; [now right | exact Ea].
    + exists (with_base b c1), w1, (Raise e), sent1.
      split; [reflexivity |]. split; [simpl; lia | exact F1].
Qed.

Variable objects_of : Event -> list SimObject.
Variable sample : list string -> string.
Variable shuffle : list string -> list string.
Hypothesis random_fair : fair_random sample shuffle.

(** Whatever [random] picks and whatever the engine answers,
    [initialize_scene] hands the engine at most two actions, each an
    [OpenObject] with [forceVisible] on one of the receptacles chosen from
    the objects of the last event; it changes nothing of the search. *)
Theorem initialize_scene_traffic (b : BFSController) (w : World)
    (log : list Action) :
  exists b' w' o sent,
    initialize_scene (World * list Action) (serve_log serve)
                     (chosen_receptacles objects_of sample shuffle) b (w, log)
      = (b', (w', log ++ sent), o)
    /\ (length sent <= 2)%nat
    /\ Forall (fun a => action_name a = "OpenObject"%string
                        /\ dict_get String.eqb (action_params a) "forceVisible"%string
                           = Some (VBool true))
              sent
    /\ search_fields b' = search_fields b.
Proof.
  unfold initialize_scene.
  destruct (last_event (base b)) as [ev |] eqn:El.
  - destruct (open_receptacles_log
                (chosen_receptacles objects_of sample shuffle ev) b w log)
      as (b' & w' & o & sent & Hrun & Hlen & Hall).
    exists b', w', o, sent. split; [exact Hrun |].
    split; [| split].
    + unfold chosen_receptacles in Hlen.
      destruct (receptacles_to_open_spec sample shuffle (objects_of ev) random_fair)
        as (roids & Er & Hr & _).
      rewrite Er in Hlen. lia.
    + apply Forall_forall. intros a Ha. rewrite Forall_forall in Hall.
      destruct (Hall a Ha) as (r & _ & ->). split; reflexivity.
    + apply (open_receptacles_fields _ _ _ _ _ _ _ _ Hrun).
  - exists b, w, (Raise AttributeError), []. rewrite app_nil_r.
    repeat split; auto.
Qed.

End Traffic.

Lemma initialize_scene_traffic_witness :
  exists b' w' o sent,
    initialize_scene (unit * list Action) (serve_log serve_blocked)
                     (cls := Controller_class)
                     (chosen_receptacles (fun _ => kitchen) first_of as_it_is)
                     bfs_started (tt, [])
      = (b', (w', [] ++ sent), o)
    /\ (length sent <= 2)%nat
    /\ Forall (fun a => action_name a = "OpenObject"%string
                        /\ dict_get String.eqb (action_params a) "forceVisible"%string
                           = Some (VBool true))
              sent
    /\ search_fields b' = search_fields bfs_started.
Proof.
  exact (initialize_scene_traffic unit serve_blocked (cls := Controller_class)
           (fun _ => kitchen) first_of as_it_is first_of_fair bfs_started tt []).
Defined.
(** * The search of a bounded room ends *)

Lemma Qfloor_unique (q : Q) (n : Z) :
  inject_Z n <= q -> q < inject_Z n + 1 -> Qfloor q = n.
Proof.
  intros Hlo Hhi.
  pose proof (Qfloor_le q) as F1. pose proof (Qlt_floor q) as F2.
  rewrite inject_Z_plus in F2. change (inject_Z 1) with 1 in F2.
  apply inject_Z_lt_1; lra.
Qed.

Lemma Qfloor_shift (q : Q) (k : Z) : Qfloor (q + inject_Z k) = (Qfloor q + k)%Z.
Proof.
  pose proof (Qfloor_le q) as F1. pose proof (Qlt_floor q) as F2.
  rewrite inject_Z_plus in F2. change (inject_Z 1) with 1 in F2.
  apply Qfloor_unique; rewrite inject_Z_plus; lra.
Qed.

Lemma FOP_NoDup_map {A B : Type} (Rel : A -> A -> Prop) (f : A -> B)
    (l : list A) :
  ForallOrdPairs Rel l ->
  (forall a c, In a l -> In c l -> Rel a c -> f a <> f c) ->
  NoDup (map f l).
Proof.
  intros H. induction H as [| a l Ha Hl IH]; intros Hf; simpl; constructor.
  - intros Hin. apply in_map_iff in Hin as (c & Ec & Hc).
    rewrite Forall_forall in Ha.
    apply (Hf a c); [now left | now right | now apply Ha | congruence].
  - apply IH. intros x y Hx Hy. apply Hf; now right.
Qed.

Section Room.

(** The room: the square of half-width [R] around the origin; [g] is the
    grid size. *)
Variables R g : Q.
Hypothesis g_pos : 0 < g.

(** The room widened by one step on each side. *)
Definition in_frame (t : XZ) : bool :=
  Qle_bool (- R - g) (xz_x t) && Qle_bool (xz_x t) (R + g)
  && Qle_bool (- R - g) (xz_z t) && Qle_bool (xz_z t) (R + g).

(** The square of side [g] of the frame that holds a place. *)
Definition cell (t : XZ) : Z * Z :=
  (Qfloor ((xz_x t + R + g) / g), Qfloor ((xz_z t + R + g) / g)).

Definition cells : list (Z * Z) :=
  list_prod (map Z.of_nat (seq 0 (side R g))) (map Z.of_nat (seq 0 (side R g))).

Lemma in_side (c : Z) :
  (0 <= c <= Qfloor ((2 * R + 2 * g) / g))%Z -> In c (map Z.of_nat (seq 0 (side R g))).
Proof.
  intros [H0 H1]. apply in_map_iff. exists (Z.to_nat c).
  split; [lia |]. apply in_seq. unfold side. lia.
Qed.

Lemma coordinate_cell (x : Q) :
  - R - g <= x -> x <= R + g ->
  (0 <= Qfloor ((x + R + g) / g) <= Qfloor ((2 * R + 2 * g) / g))%Z.
Proof.
  intros H1 H2. split.
  - change 0%Z with (Qfloor 0). apply Qfloor_resp_le.
    apply Qle_shift_div_l; [exact g_pos | lra].
  - apply Qfloor_resp_le. unfold Qdiv. apply Qmult_le_compat_r; [lra |].
    apply Qinv_le_0_compat. lra.
Qed.

Lemma cell_in_cells (t : XZ) : in_frame t = true -> In (cell t) cells.
Proof.
  unfold in_frame. rewrite !andb_true_iff, !Qle_bool_iff.
  intros [[[X1 X2] Z1] Z2]. unfold cell, cells.
  apply in_prod; apply in_side; now apply coordinate_cell.
Qed.

Lemma coordinate_cell_inj (x x' : Q) (a : Z) :
  x' - x == inject_Z a * g ->
  Qfloor ((x + R + g) / g) = Qfloor ((x' + R + g) / g) -> a = 0%Z.
Proof.
  intros Hd Hc.
  assert (E : (x' + R + g) / g == (x + R + g) / g + inject_Z a).
  { setoid_replace x' with (x + inject_Z a * g) by lra. field. lra. }
  rewrite E, Qfloor_shift in Hc. lia.
Qed.

Lemma cell_inj (x0 z0 : Q) (t t' : XZ) :
  on_lattice g x0 z0 t -> on_lattice g x0 z0 t' ->
  cell t = cell t' -> xz_eq t t'.
Proof.
  intros Ht Ht' Hc.
  destruct (lattice_difference g x0 z0 t t' Ht Ht') as (a & c & Hx & Hz & _).
  unfold cell in Hc. injection Hc as Hcx Hcz.
  apply (coordinate_cell_inj _ _ a Hx) in Hcx.
  apply (coordinate_cell_inj _ _ c Hz) in Hcz.
  subst a c. change (inject_Z 0) with 0 in Hx, Hz. split; lra.
Qed.

Lemma far_not_eq (t t' : XZ) : far g t t' -> ~ xz_eq t t'.
Proof.
  unfold far. intros Hfar Heq.
  assert (H : sqrt_ltb (distance_sq t t') (g / 5) = true).
  { apply sqrt_ltb_spec.
    assert (H5 : 0 < g / 5) by (apply Qlt_shift_div_l; [reflexivity | lra]).
    split; [exact H5 |].
    rewrite <- (distance_sq_proper_r t t t' Heq).
    assert (Hz : distance_sq t t == 0) by (unfold distance_sq; ring).
    rewrite Hz. apply Qmult_lt_0_compat; exact H5. }
  congruence.
Qed.

Section Lattice.

Variables x0 z0 : Q.
Variable first4 : list XZ.
Hypothesis first4_length : (length first4 <= 4)%nat.

(** A place that the search may have seen: a place of the lattice that
    lies in the frame or is one of the first four candidates. *)
Definition candidate (t : XZ) : Prop :=
  on_lattice g x0 z0 t /\ (in_frame t = true \/ In t first4).

Lemma seen_bound (seen : list XZ) :
  ForallOrdPairs (far g) seen -> Forall candidate seen ->
  (length seen <= side R g * side R g + 4)%nat.
Proof.
  intros Hfar Hcand. rewrite Forall_forall in Hcand.
  rewrite <- (filter_length in_frame seen).
  assert (H1 : (length (filter in_frame seen) <= side R g * side R g)%nat).
  { rewrite <- (length_map cell).
    replace (side R g * side R g)%nat with (length cells)
      by (unfold cells; now rewrite length_prod, !length_map, !length_seq).
    apply NoDup_incl_length.
    - apply (FOP_NoDup_map (far g)); [now apply FOP_filter |].
      intros a c Ha Hc Hac Hcell.
      apply filter_In in Ha as [Ha _]. apply filter_In in Hc as [Hc _].
      apply (far_not_eq a c Hac).
      apply (cell_inj x0 z0); auto; now apply Hcand.
    - intros c Hc. apply in_map_iff in Hc as (t & <- & Ht).
      apply filter_In in Ht as [_ Ht]. now apply cell_in_cells. }
  assert (H2 : (length (filter (fun t => negb (in_frame t)) seen) <= 4)%nat).
  { apply Nat.le_trans with (length first4); [| exact first4_length].
    apply NoDup_incl_length.
    - rewrite <- (map_id (filter _ seen)).
      apply (FOP_NoDup_map (far g)); [now apply FOP_filter |].
      intros a c _ _ Hac E. subst c.
      apply (far_not_eq a a Hac). split; reflexivity.
    - intros t Ht. apply filter_In in Ht as [Ht Hout].
      destruct (Hcand t Ht) as [_ [Hin | Hin]]; [| exact Hin].
      rewrite Hin in Hout. discriminate. }
  lia.
Qed.

(** What the search keeps true of its frontier. *)
Definition room_inv (b : BFSController) : Prop :=
  grid_size b = g
  /\ ForallOrdPairs (far g) (seen_points b)
  /\ Forall candidate (seen_points b)
  /\ Forall (fun sp => In (target_point sp) (seen_points b)) (queue b).

Lemma enqueue_point_room (b : BFSController) (sp : BFSSearchPoint) :
  room_inv b -> candidate (target_point sp) -> room_inv (enqueue_point b sp).
Proof.
  intros (Hg & Hfar & Hcand & Hq) Ht. rewrite enqueue_point_unfold.
  destruct (covered b (target_point sp)) eqn:E; [repeat split; assumption |].
  unfold appended. split; [exact Hg | split; [| split]]; simpl.
  - apply FOP_snoc; [exact Hfar |].
    apply Forall_forall. intros p Hp. unfold far. rewrite <- Hg.
    apply not_true_is_false. intros Hnear.
    assert (Hc : covered b (target_point sp) = true).
    { unfold covered. apply existsb_exists. exists p. auto. }
    congruence.
  - apply Forall_app. split; [exact Hcand | constructor; [exact Ht | constructor]].
  - apply Forall_app. split.
    + apply Forall_forall. intros q Hin. rewrite Forall_forall in Hq.
      apply in_or_app. left. now apply Hq.
    + constructor; [| constructor]. apply in_or_app. right. now left.
Qed.

Lemma enqueue_point_fold_room (l : list BFSSearchPoint) (b : BFSController) :
  room_inv b -> Forall (fun sp => candidate (target_point sp)) l ->
  room_inv (fold_left enqueue_point l b).
Proof.
  revert b. induction l as [| sp l IH]; intros b Hb Hl; simpl; [exact Hb |].
  inversion Hl; subst. apply IH; [| assumption].
  now apply enqueue_point_room.
Qed.

Lemma enqueue_points_room (b : BFSController) (pos : Position) :
  room_inv b ->
  Forall (fun sp => candidate (target_point sp)) (four_points pos g) ->
  room_inv (enqueue_points b pos).
Proof.
  intros Hb Hl. rewrite enqueue_points_fold.
  destruct (negb (allow_enqueue b)); [exact Hb |].
  apply enqueue_point_fold_room; [exact Hb |].
  destruct Hb as [Hg _]. now rewrite Hg.
Qed.

Lemma room_inv_fields (b b' : BFSController) :
  search_fields b' = search_fields b -> room_inv b -> room_inv b'.
Proof.
  intros F (Hg & Hfar & Hcand & Hq). apply search_fields_inv in F.
  destruct F as (_ & Fq & Fs & _ & Fg). unfold room_inv.
  rewrite Fq, Fs, Fg. auto.
Qed.

Lemma neighbours_on_lattice (pos : Position) :
  on_lattice g x0 z0 (xz_of pos) ->
  Forall (fun sp => on_lattice g x0 z0 (target_point sp)) (four_points pos g).
Proof.
  intros H. destruct (on_lattice_steps g x0 z0 pos H) as (H1 & H2 & H3 & H4).
  unfold four_points. repeat constructor; assumption.
Qed.

Lemma neighbours_in_frame (pos : Position) :
  Qabs (pos_x pos) <= R -> Qabs (pos_z pos) <= R ->
  Forall (fun sp => in_frame (target_point sp) = true) (four_points pos g).
Proof.
  intros Hx Hz. apply Qabs_Qle_condition in Hx, Hz.
  destruct Hx as [X1 X2], Hz as [Z1 Z2].
  unfold four_points, in_frame.
  repeat constructor; simpl; rewrite !andb_true_iff, !Qle_bool_iff;
    repeat split; lra.
Qed.

Section Run.

Variable World : Type.
Variable serve : World -> Action -> World * Event.
Context {cls : ControllerClass}.

Hypothesis serve_lands : lands_on_target serve.

(** The engine lets no move end outside the room. *)
Hypothesis serve_bounded :
  forall (w w' : World) (mv : XZ) (m : Q) (ev : Event),
    serve w (move_action mv m) = (w', ev) ->
    lastActionSuccess (metadata ev) = true ->
    Qabs (pos_x (agent_position (agent (metadata ev)))) <= R
    /\ Qabs (pos_z (agent_position (agent (metadata ev)))) <= R.

Lemma queue_step_room (b b' : BFSController) (w w' : World) (o : Outcome Event) :
  room_inv b -> queue_step serve b w = (b', w', o) -> room_inv b'.
Proof.
  intros Hb Hrun. destruct (queue b) as [| sp rest] eqn:Hq.
  { unfold queue_step in Hrun. rewrite Hq in Hrun. inversion Hrun; subst. exact Hb. }
  assert (Hrest : room_inv (with_queue b rest)).
  { destruct Hb as (Hg & Hfar & Hcand & Hqs). unfold room_inv. simpl.
    rewrite Hq in Hqs. inversion Hqs; subst. auto. }
  destruct (queue_step_effects World serve b b' w w' sp rest o Hq Hrun)
    as [F Hfail | c w1 w2 ev1 ev H1 Ok1 H2 Ok2 Ho Hb'].
  - now apply (room_inv_fields (with_queue b rest)).
  - subst b'. cbn zeta.
    set (pos := agent_position (agent (metadata ev))).
    assert (Hland : xz_of pos = target_point sp).
    { apply (serve_lands w w1 w2 (start_position sp) (move_vector sp)
               (grid_size b) ev1 ev); assumption. }
    assert (Hlat : on_lattice g x0 z0 (xz_of pos)).
    { rewrite Hland. destruct Hb as (_ & _ & Hcand & Hqs).
      rewrite Hq in Hqs. inversion Hqs as [| ? ? Hin _]; subst.
      rewrite Forall_forall in Hcand. now apply (Hcand _ Hin). }
    destruct (serve_bounded w1 w2 (move_vector sp) (grid_size b) ev H2 Ok2)
      as [Bx Bz].
    assert (Hnew : room_inv (enqueue_points (with_base (with_queue b rest) c) pos)).
    { apply enqueue_points_room.
      - apply (room_inv_fields (with_queue b rest)); [| exact Hrest]. reflexivity.
      - pose proof (neighbours_on_lattice pos Hlat) as L.
        pose proof (neighbours_in_frame pos Bx Bz) as Fr.
        rewrite Forall_forall in L, Fr. apply Forall_forall.
        intros q Hin. split; [now apply L | left; now apply Fr]. }
    destruct Hnew as (Hg & Hfar & Hcand & Hqs). unfold room_inv. simpl. auto.
Qed.

(** The work left: the entries of the queue and the places not yet seen. *)
Definition work_left (b : BFSController) : nat :=
  (length (queue b) + (side R g * side R g + 4 - length (seen_points b)))%nat.

Lemma queue_loop_room_ends (fuel : nat) (b : BFSController) (w : World) :
  room_inv b -> (work_left b <= fuel)%nat ->
  exists r, queue_loop serve fuel b w = Some r.
Proof.
  revert b w. induction fuel as [| fuel IH]; intros b w Hb Hwork.
  - destruct (queue b) as [| sp rest] eqn:Hq.
    + simpl. rewrite Hq. eauto.
    + unfold work_left in Hwork. rewrite Hq in Hwork. simpl in Hwork. lia.
  - simpl. destruct (queue b) as [| sp rest] eqn:Hq; [eauto |].
    destruct (queue_step serve b w) as [[b1 w1] o1] eqn:E1.
    destruct o1 as [ev | e]; [| eauto].
    apply IH; [now apply (queue_step_room b b1 w w1 (Return ev)) |].
    pose proof (queue_step_room b b1 w w1 (Return ev) Hb E1) as Hb1.
    destruct (queue_step_growth World serve b b1 w w1 sp rest (Return ev) Hq E1)
      as (new & Eq & Es & _).
    destruct Hb1 as (_ & Hfar1 & Hcand1 & _).
    pose proof (seen_bound (seen_points b1) Hfar1 Hcand1) as Hbound.
    unfold work_left in *. rewrite Hq in Hwork. cbn [length] in Hwork.
    rewrite Es in Hbound. rewrite Eq, Es.
    rewrite !length_app, length_map in *. lia.
Qed.

End Run.
End Lattice.
End Room.

(** If the engine puts the agent where a move aims and lets no move end
    outside the square of half-width [R], then [search_all_closed] with a
    positive grid size comes to an end: every candidate is a place of one
    lattice inside the square widened by a step, or one of the first four,
    so the loop takes no more than [room_budget] rounds. *)
Theorem search_all_closed_terminates (World : Type)
    (serve : World -> Action -> World * Event) (cls : ControllerClass)
    (R : Q) (fuel : nat) (scene_name : string) (b : BFSController) (w : World) :
  lands_on_target serve ->
  (forall (w w' : World) (mv : XZ) (m : Q) (ev : Event),
     serve w (move_action mv m) = (w', ev) ->
     lastActionSuccess (metadata ev) = true ->
     Qabs (pos_x (agent_position (agent (metadata ev)))) <= R
     /\ Qabs (pos_z (agent_position (agent (metadata ev)))) <= R) ->
  0 < grid_size b ->
  (room_budget R (grid_size b) <= fuel)%nat ->
  exists b' w' o, search_all_closed serve fuel scene_name b w = Some (b', w', o).
Proof.
  intros Hlands Hbound Hg Hfuel. unfold search_all_closed.
  set (b0 := clear_search (with_allow_enqueue b true)).
  destruct (BFS_reset serve scene_name b0 w) as [[b1 w1] o1] eqn:E1.
  pose proof (BFS_reset_fields _ _ _ _ _ _ _ _ E1) as F1.
  destruct o1 as [ev1 | e1]; [| eauto].
  match goal with |- context [BFS_step serve ?a false b1 w1] =>
    destruct (BFS_step serve a false b1 w1) as [[b2 w2] o2] eqn:E2 end.
  pose proof (BFS_step_fields _ _ _ _ _ _ _ _ _ E2) as F2.
  destruct o2 as [ev2 | e2]; [| eauto].
  set (pos := agent_position (agent (metadata ev2))).
  set (g := grid_size b).
  set (first4 := map target_point (four_points pos g)).
  assert (F02 : search_fields b2 = search_fields b0) by congruence.
  assert (Hinv2 : room_inv R g (pos_x pos) (pos_z pos) first4 b2).
  { apply (room_inv_fields R g (pos_x pos) (pos_z pos) first4 b0); [exact F02 |].
    unfold room_inv. simpl. repeat split; constructor. }
  assert (Hlat : on_lattice g (pos_x pos) (pos_z pos) (xz_of pos)).
  { exists 0%Z, 0%Z. simpl. change (inject_Z 0) with 0. split; ring. }
  assert (Hinv3 : room_inv R g (pos_x pos) (pos_z pos) first4 (enqueue_points b2 pos)).
  { apply enqueue_points_room; [exact Hinv2 |].
    pose proof (neighbours_on_lattice g (pos_x pos) (pos_z pos) pos Hlat) as L.
    rewrite Forall_forall in L. apply Forall_forall. intros sp Hsp.
    split; [now apply L |]. right. unfold first4. now apply in_map. }
  destruct (queue_loop_room_ends R g Hg (pos_x pos) (pos_z pos) first4
              (le_n 4) World serve Hlands Hbound fuel (enqueue_points b2 pos) w2 Hinv3)
    as [[[b' w'] o] Hrun].
  - destruct (enqueue_points_appends b2 pos)
      as (new & Eq & Es & Hlen & _).
    apply search_fields_inv in F02. destruct F02 as (_ & Fq & Fs & _).
    unfold work_left. rewrite Eq, Es, Fq, Fs. cbn [clear_search b0 app].
    change (queue b0) with (@nil BFSSearchPoint).
    change (seen_points b0) with (@nil XZ). cbn [app].
    rewrite length_map. unfold room_budget in Hfuel. fold g in Hfuel. lia.
  - rewrite Hrun. eauto.
Qed.

Lemma serve_room_bounded (w w' : Position) (mv : XZ) (m : Q) (ev : Event) :
  serve_room inside_room w (move_action mv m) = (w', ev) ->
  lastActionSuccess (metadata ev) = true ->
  Qabs (pos_x (agent_position (agent (metadata ev)))) <= 1 # 2
  /\ Qabs (pos_z (agent_position (agent (metadata ev)))) <= 1 # 2.
Proof.
  unfold serve_room. cbn [action_name move_action String.eqb Ascii.eqb Bool.eqb].
  destruct (inside_room _) eqn:E; intros H; inversion H; subst; simpl;
    [| discriminate].
  intros _. unfold inside_room in E. simpl in E.
  apply andb_true_iff in E as [Ex Ez].
  apply Qle_bool_iff in Ex, Ez. split; assumption.
Qed.

Lemma search_all_closed_terminates_witness :
  exists b' w' o,
    search_all_closed (cls := Controller_class) (serve_room inside_room)
                      53 "FloorPlan1" bfs_started origin
    = Some (b', w', o).
Proof.
  apply (search_all_closed_terminates Position (serve_room inside_room)
           Controller_class (1 # 2) 53 "FloorPlan1" bfs_started origin).
  - apply serve_room_lands.
  - apply serve_room_bounded.
  - reflexivity.
  - vm_compute. apply le_n.
Defined.
(** * [has_islands] and the order of the grid *)

Lemma reach_incl (link : Position -> Position -> Prop) (l l' : list Position)
    (p q : Position) :
  incl l l' -> reach link l p q -> reach link l' p q.
Proof.
  intros Hin H. induction H as [| q r Hpq IH Hr Hl]; [apply reach_refl |].
  apply reach_step with q; auto.
Qed.

Lemma connected_permutation (link : Position -> Position -> Prop)
    (l l' : list Position) :
  Permutation l l' -> connected link l -> connected link l'.
Proof.
  intros HP Hc p q Hp Hq.
  apply (reach_incl link l l').
  - intros x Hx. now apply (Permutation_in x HP).
  - apply Hc; apply (Permutation_in _ (Permutation_sym HP)); assumption.
Qed.

(** For pairwise distinct points the answer of [has_islands] does not
    depend on the order of [grid_points], nor therefore on the point the
    flood fill starts from. *)
Theorem has_islands_any_order (b b' : BFSController) :
  Permutation (grid_points b) (grid_points b') ->
  grid_size b = grid_size b' ->
  grid_points b <> [] ->
  NoDup (map dumps (grid_points b)) ->
  has_islands b = has_islands b'
  /\ exists v, has_islands b = Some (Return v).
Proof.
  intros HP Hg Hne Hnd.
  assert (Hne' : grid_points b' <> []).
  { intros E. rewrite E in HP. apply Permutation_sym, Permutation_nil in HP.
    contradiction. }
  assert (Hnd' : NoDup (map dumps (grid_points b'))).
  { apply (Permutation_NoDup (Permutation_map dumps HP) Hnd). }
  destruct (has_islands_flood_fill b Hne Hnd) as (v & Hrun & Ht & Hf).
  destruct (has_islands_flood_fill b' Hne' Hnd') as (v' & Hrun' & Ht' & Hf').
  rewrite <- Hg in Ht', Hf'.
  split; [| eauto]. rewrite Hrun, Hrun'. do 2 f_equal.
  destruct v, v'; try reflexivity; exfalso.
  - assert (Hc : connected (island_link (grid_size b)) (grid_points b'))
      by now apply Hf'.
    apply (proj1 Ht eq_refl).
    now apply (connected_permutation _ _ _ (Permutation_sym HP)).
  - assert (Hc : connected (island_link (grid_size b)) (grid_points b))
      by now apply Hf.
    apply (proj1 Ht' eq_refl).
    now apply (connected_permutation _ _ _ HP).
Qed.

Lemma has_islands_any_order_witness :
  has_islands (grid_of grid_pair_and_stray)
  = has_islands (grid_of [mkPos 1 0 1; mkPos (1 # 4) 0 0; origin])
  /\ exists v, has_islands (grid_of grid_pair_and_stray) = Some (Return v).
Proof.
  apply (has_islands_any_order (grid_of grid_pair_and_stray)
           (grid_of [mkPos 1 0 1; mkPos (1 # 4) 0 0; origin])).
  - simpl. unfold grid_pair_and_stray.
    apply Permutation_trans with [mkPos (1 # 4) 0 0; mkPos 1 0 1; origin].
    + apply (Permutation_cons_append [mkPos (1 # 4) 0 0; mkPos 1 0 1] origin).
    + apply perm_swap.
  - reflexivity.
  - discriminate.
  - vm_compute. repeat constructor; simpl; intuition discriminate.
Defined.

(** * Pruning twice *)





(** * The search covers the room *)

Lemma queue_step_base (World : Type) (serve : World -> Action -> World * Event)
    (b b' : BFSController) (w w' : World) (sp : BFSSearchPoint)
    (rest : list BFSSearchPoint) (ev : Event) :
  queues_empty b -> queue b = sp :: rest ->
  queue_step (cls := Controller_class) serve b w = (b', w', Return ev) ->
  exists (w1 : World) (ev1 : Event),
    serve w (teleport_action (start_position sp)) = (w1, ev1)
    /\ lastActionSuccess (metadata ev1) = true
    /\ serve w1 (move_action (move_vector sp) (grid_size b)) = (w', ev)
    /\ exists b1,
         search_fields b1 = search_fields (with_queue b rest)
         /\ queues_empty b1
         /\ b' = if lastActionSuccess (metadata ev)
                 then let pos := agent_position (agent (metadata ev)) in
                      with_grid_points (enqueue_points b1 pos)
                        (grid_points (enqueue_points b1 pos) ++ [pos])
                 else b1.
Proof.
  intros [Q1 Q2] Hq Hrun. unfold queue_step in Hrun. rewrite Hq in Hrun.
  unfold BFS_step at 1 in Hrun. unfold step in Hrun.
  cbn [_check_action Controller_class negb base with_queue] in Hrun.
  rewrite Q1, Q2 in Hrun.
  change (action_filtered (teleport_action (start_position sp)))
    with (teleport_action (start_position sp)) in Hrun.
  destruct (serve w (teleport_action (start_position sp))) as [w1 ev1] eqn:E1.
  cbn [andb] in Hrun.
  destruct (lastActionSuccess (metadata ev1)) eqn:Ok1; [| discriminate].
  cbn [negb] in Hrun.
  unfold BFS_step in Hrun. unfold step in Hrun.
  cbn [_check_action Controller_class negb base with_base set_last_event
       request_queue response_queue] in Hrun.
  rewrite Q1, Q2 in Hrun.
  match type of Hrun with
  | context [serve w1 ?a] =>
      change a with (move_action (move_vector sp) (grid_size b)) in Hrun
  end.
  destruct (serve w1 (move_action (move_vector sp) (grid_size b)))
    as [w2 ev2] eqn:E2.
  cbn [andb] in Hrun.
  exists w1, ev1.
  destruct (lastActionSuccess (metadata ev2)) eqn:Ok2.
  - destruct (Qltb (13 # 10) (pos_y (agent_position (agent (metadata ev2)))));
      [discriminate |].
    injection Hrun as <- <- <-. rewrite Ok2.
    repeat split; auto.
    eexists. split; [| split; [| reflexivity]]; [reflexivity |].
    split; assumption.
  - injection Hrun as <- <- <-. rewrite Ok2.
    repeat split; auto.
    eexists. split; [| split; [| reflexivity]]; [reflexivity |].
    split; assumption.
Qed.

Lemma fifth_below_step (g d : Q) :
  0 < g -> d < g / 5 * (g / 5) -> 1 * (g * g) <= d -> False.
Proof.
  intros g_pos Hd H3.
  assert (H6 : 0 < g * g) by (apply Qmult_lt_0_compat; exact g_pos).
  assert (H4 : g / 5 * (g / 5) == (1 # 25) * (g * g)) by (field).
  rewrite H4 in Hd. generalize dependent (g * g). intros Y. intros. lra.
Qed.

Section Cover.

Variable inside : XZ -> bool.
Variable g : Q.
Variable start : XZ.
Hypothesis g_pos : 0 < g.
Hypothesis inside_proper : forall t t', xz_eq t t' -> inside t = inside t'.

Definition on_grid (t : XZ) : Prop := on_lattice g (xz_x start) (xz_z start) t.

Lemma close_on_grid (s t : XZ) :
  on_grid s -> on_grid t -> sqrt_ltb (distance_sq s t) (g / 5) = true ->
  xz_eq s t.
Proof.
  intros Hs Ht Hnear. apply sqrt_ltb_spec in Hnear as [H5 Hd].
  destruct (lattice_difference g _ _ s t Hs Ht) as (a & c & Hx & Hz & Hdist).
  destruct (Z.eq_dec a 0) as [Ea | Ea].
  - destruct (Z.eq_dec c 0) as [Ec | Ec].
    + subst a c. change (inject_Z 0) with 0 in Hx, Hz. split; lra.
    + exfalso.
      pose proof (inject_Z_square_sum a c (or_intror Ec)) as H1.
      pose proof (Qsquare_nonneg g) as H2.
      apply (fifth_below_step g (distance_sq s t) g_pos Hd).
      rewrite Hdist. apply Qmult_le_compat_r; assumption.
  - exfalso.
    pose proof (inject_Z_square_sum a c (or_introl Ea)) as H1.
    pose proof (Qsquare_nonneg g) as H2.
    apply (fifth_below_step g (distance_sq s t) g_pos Hd).
    rewrite Hdist. apply Qmult_le_compat_r; assumption.
Qed.

Lemma close_to_itself (t : XZ) : sqrt_ltb (distance_sq t t) (g / 5) = true.
Proof.
  apply sqrt_ltb_spec.
  assert (H5 : 0 < g / 5) by (apply Qlt_shift_div_l; [reflexivity | lra]).
  split; [exact H5 |].
  assert (Hz : distance_sq t t == 0) by (unfold distance_sq; ring).
  rewrite Hz. apply Qmult_lt_0_compat; exact H5.
Qed.

Lemma steps_from_on_grid (o t : XZ) :
  on_grid o -> In t (steps_from g o) -> on_grid t.
Proof.
  intros Ho Ht.
  destruct (on_lattice_steps g (xz_x start) (xz_z start)
              (mkPos (xz_x o) 0 (xz_z o))) as (H1 & H2 & H3 & H4).
  { destruct o; exact Ho. }
  simpl in Ht. destruct Ht as [<- | [<- | [<- | [<- | []]]]]; assumption.
Qed.

Lemma steps_from_proper (s s' t : XZ) :
  xz_eq s s' -> In t (steps_from g s) ->
  exists t', In t' (steps_from g s') /\ xz_eq t t'.
Proof.
  intros [Ex Ez] Ht. simpl in Ht.
  destruct Ht as [<- | [<- | [<- | [<- | []]]]].
  - exists (mkXZ (xz_x s' + -1 * g) (xz_z s' + 0)).
    split; [simpl; auto | split; simpl; lra].
  - exists (mkXZ (xz_x s' + g) (xz_z s' + 0)).
    split; [simpl; auto | split; simpl; lra].
  - exists (mkXZ (xz_x s' + 0) (xz_z s' + -1 * g)).
    split; [simpl; auto | split; simpl; lra].
  - exists (mkXZ (xz_x s' + 0) (xz_z s' + 1 * g)).
    split; [simpl; auto 6 | split; simpl; lra].
Qed.

Lemma steps_from_four_points (pos : Position) :
  map target_point (four_points pos g) = steps_from g (xz_of pos).
Proof. reflexivity. Qed.

Lemma start_on_grid : on_grid start.
Proof.
  exists 0%Z, 0%Z. change (inject_Z 0) with 0. split; ring.
Qed.

(** The state of a seen place: still queued, found outside the room, or
    recorded among the grid points [G]. *)
Definition settled (G : list Position) (qu : list BFSSearchPoint) (s : XZ)
  : Prop :=
  (exists sp, In sp qu /\ target_point sp = s)
  \/ inside s = false
  \/ (exists p, In p G /\ xz_of p = s).

(** The places the candidates were taken around. *)
Definition origins (G : list Position) : list XZ := start :: map xz_of G.

(** What the search keeps true of its frontier, for the grid points [G]. *)
Definition front_inv (G : list Position) (b : BFSController) : Prop :=
  grid_size b = g /\ allow_enqueue b = true /\ queues_empty b
  /\ Forall on_grid (seen_points b)
  /\ Forall (settled G (queue b)) (seen_points b)
  /\ Forall (fun sp => (exists o, In o (origins G)
                                  /\ In (target_point sp) (steps_from g o))
                       /\ In (target_point sp) (seen_points b)) (queue b)
  /\ Forall (fun p => walkable inside g start (xz_of p) /\ on_grid (xz_of p)) G.

(** Every candidate around an origin is seen. *)
Definition closed_inv (G : list Position) (b : BFSController) : Prop :=
  forall o t, In o (origins G) -> In t (steps_from g o) -> covered b t = true.

Definition cover_inv (b : BFSController) : Prop :=
  front_inv (grid_points b) b /\ closed_inv (grid_points b) b.

Lemma covered_grows (b b' : BFSController) (t : XZ) :
  grid_size b' = grid_size b -> incl (seen_points b) (seen_points b') ->
  covered b t = true -> covered b' t = true.
Proof.
  unfold covered. intros Eg Hincl H. apply existsb_exists in H as (s & Hs & Hn).
  apply existsb_exists. exists s. rewrite Eg. auto.
Qed.

Lemma enqueue_point_front (G : list Position) (b : BFSController)
    (sp : BFSSearchPoint) :
  front_inv G b ->
  (exists o, In o (origins G) /\ In (target_point sp) (steps_from g o)) ->
  on_grid (target_point sp) ->
  front_inv G (enqueue_point b sp)
  /\ covered (enqueue_point b sp) (target_point sp) = true
  /\ incl (seen_points b) (seen_points (enqueue_point b sp))
  /\ grid_size (enqueue_point b sp) = grid_size b.
Proof.
  intros Hb Ho Ht. pose proof Hb as (Hg & Ha & Hqe & Hlat & Hset & Hqu & HG).
  rewrite enqueue_point_unfold.
  destruct (covered b (target_point sp)) eqn:E.
  - split; [exact Hb |]. split; [exact E |]. split; [apply incl_refl | reflexivity].
  - split; [| split; [| split]].
    + unfold front_inv, appended. simpl.
      split; [exact Hg |]. split; [exact Ha |]. split; [exact Hqe |].
      split; [| split; [| split]].
      * apply Forall_app. split; [exact Hlat | constructor; [exact Ht | constructor]].
      * apply Forall_app. split.
        -- apply Forall_forall. intros s Hs. rewrite Forall_forall in Hset.
           destruct (Hset s Hs) as [(q & Hq & Eq) | [Hout | Hin]].
           ++ left. exists q. split; [apply in_or_app; now left | exact Eq].
           ++ right. now left.
           ++ right. now right.
        -- constructor; [| constructor]. left. exists sp.
           split; [apply in_or_app; right; now left | reflexivity].
      * apply Forall_app. split.
        -- apply Forall_forall. intros q Hq. rewrite Forall_forall in Hqu.
           destruct (Hqu q Hq) as [H1 H2]. split; [exact H1 |].
           apply in_or_app. now left.
        -- constructor; [| constructor]. split; [exact Ho |].
           apply in_or_app. right. now left.
      * exact HG.
    + unfold covered, appended. simpl. apply existsb_exists.
      exists (target_point sp). split; [apply in_or_app; right; now left |].
      rewrite Hg. apply close_to_itself.
    + unfold appended. simpl. apply incl_appl, incl_refl.
    + reflexivity.
Qed.

Lemma enqueue_point_fold_front (G : list Position) (l : list BFSSearchPoint)
    (b : BFSController) :
  front_inv G b ->
  Forall (fun sp => (exists o, In o (origins G)
                               /\ In (target_point sp) (steps_from g o))
                    /\ on_grid (target_point sp)) l ->
  front_inv G (fold_left enqueue_point l b)
  /\ Forall (fun sp => covered (fold_left enqueue_point l b) (target_point sp) = true) l
  /\ incl (seen_points b) (seen_points (fold_left enqueue_point l b))
  /\ grid_size (fold_left enqueue_point l b) = grid_size b.
Proof.
  revert b. induction l as [| sp l IH]; intros b Hb Hl.
  - simpl. split; [exact Hb |]. split; [constructor |].
    split; [apply incl_refl | reflexivity].
  - inversion Hl as [| ? ? [Ho Ht] Hl']; subst. cbn [fold_left].
    destruct (enqueue_point_front G b sp Hb Ho Ht) as (H1 & H2 & H3 & H4).
    destruct (IH (enqueue_point b sp) H1 Hl') as (I1 & I2 & I3 & I4).
    split; [exact I1 |]. split; [| split].
    + constructor; [| exact I2].
      apply (covered_grows (enqueue_point b sp)); assumption.
    + eapply incl_tran; eassumption.
    + congruence.
Qed.

(** Queueing the candidates around a recorded place, or around the start. *)
Lemma enqueue_points_front (G : list Position) (b : BFSController)
    (pos : Position) :
  front_inv G b -> In (xz_of pos) (origins G) -> on_grid (xz_of pos) ->
  front_inv G (enqueue_points b pos)
  /\ (forall t, In t (steps_from g (xz_of pos)) ->
                covered (enqueue_points b pos) t = true)
  /\ incl (seen_points b) (seen_points (enqueue_points b pos))
  /\ grid_size (enqueue_points b pos) = grid_size b.
Proof.
  intros Hb Ho Hlat. rewrite enqueue_points_fold.
  destruct Hb as (Hg & Ha & Hrest). rewrite Ha, Hg. cbn [negb].
  assert (Hb : front_inv G b) by (split; [exact Hg | split; [exact Ha | exact Hrest]]).
  destruct (enqueue_point_fold_front G (four_points pos g) b Hb)
    as (I1 & I2 & I3 & I4).
  { apply Forall_forall. intros sp Hsp.
    assert (Hin : In (target_point sp) (steps_from g (xz_of pos))).
    { rewrite <- steps_from_four_points. now apply in_map. }
    split; [exists (xz_of pos); auto |].
    now apply (steps_from_on_grid (xz_of pos)). }
  split; [exact I1 |]. split; [| split; [exact I3 | congruence]].
  intros t Ht. rewrite <- steps_from_four_points in Ht.
  apply in_map_iff in Ht as (sp & <- & Hsp).
  rewrite Forall_forall in I2. now apply I2.
Qed.

Lemma front_inv_fields (G : list Position) (b b' : BFSController) :
  search_fields b' = search_fields b -> queues_empty b' ->
  front_inv G b -> front_inv G b'.
Proof.
  intros F Hqe (Hg & Ha & _ & Hrest). apply search_fields_inv in F.
  destruct F as (Fa & Fq & Fs & _ & Fg). unfold front_inv.
  rewrite Fa, Fq, Fs, Fg. auto.
Qed.

Section Run.

Variable World : Type.
Variable serve : World -> Action -> World * Event.
Hypothesis serve_lands : lands_on_target serve.
Hypothesis serve_room_decides : room_decides serve inside.

Lemma queue_step_cover (b b' : BFSController) (w w' : World) (ev : Event) :
  cover_inv b ->
  queue_step (cls := Controller_class) serve b w = (b', w', Return ev) ->
  cover_inv b'.
Proof.
  intros [Hb Hc] Hrun. destruct (queue b) as [| sp rest] eqn:Hq.
  { unfold queue_step in Hrun. rewrite Hq in Hrun. discriminate. }
  pose proof Hb as (Hg & Ha & Hqe & Hlat & Hset & Hqu & HG).
  destruct (queue_step_base World serve b b' w w' sp rest ev Hqe Hq Hrun)
    as (w1 & ev1 & E1 & Ok1 & E2 & b1 & F1 & Hqe1 & Eb').
  pose proof (serve_room_decides w w1 w' (start_position sp) (move_vector sp)
                (grid_size b) ev1 ev E1 Ok1 E2) as Hroom.
  fold (target_point sp) in Hroom.
  rewrite Hq in Hqu, Hset. inversion Hqu as [| ? ? [Hsp_o Hsp_seen] Hqu']; subst.
  assert (Hsp_lat : on_grid (target_point sp)).
  { rewrite Forall_forall in Hlat. now apply Hlat. }
  pose proof (search_fields_inv _ _ F1) as (Fa & Fq & Fs & Fgp & Fg).
  cbn [with_queue allow_enqueue queue seen_points grid_points grid_size] in *.
  set (G := grid_points b) in *.
  destruct (lastActionSuccess (metadata ev)) eqn:Ok2.
  - (* the move succeeded: a new grid point *)
    set (pos := agent_position (agent (metadata ev))) in *.
    assert (Hland : xz_of pos = target_point sp).
    { apply (serve_lands w w1 w' (start_position sp) (move_vector sp)
               (grid_size b) ev1 ev); assumption. }
    set (G' := G ++ [pos]).
    assert (Hfront : front_inv G' b1).
    { unfold front_inv. rewrite Fa, Fq, Fs, Fg.
      split; [exact Hg |]. split; [exact Ha |]. split; [exact Hqe1 |].
      split; [exact Hlat |]. split; [| split].
      - apply Forall_forall. intros s Hs. rewrite Forall_forall in Hset.
        destruct (Hset s Hs) as [(q & Hin & Eq) | [Hout | (p & Hp & Ep)]].
        + destruct Hin as [<- | Hin].
          * right. right. exists pos. split; [| congruence].
            apply in_or_app. right. now left.
          * left. eauto.
        + right. now left.
        + right. right. exists p. split; [apply in_or_app; now left | exact Ep].
      - apply Forall_forall. intros q Hin. rewrite Forall_forall in Hqu'.
        destruct (Hqu' q Hin) as [(o & Ho & Hto) Hseen]. split; [| exact Hseen].
        exists o. split; [| exact Hto]. unfold origins, G' in *.
        destruct Ho as [<- | Ho]; [now left | right].
        rewrite map_app. apply in_or_app. now left.
      - apply Forall_app. split; [exact HG |]. constructor; [| constructor].
        rewrite Hland. split; [| exact Hsp_lat].
        destruct Hsp_o as (o & Ho & Hto). destruct Ho as [<- | Ho].
        + apply walkable_first; [exact Hto | now symmetry].
        + apply in_map_iff in Ho as (p & <- & Hp).
          rewrite Forall_forall in HG. destruct (HG p Hp) as [Hw _].
          apply (walkable_next inside g start (xz_of p)); [exact Hw | exact Hto |].
          now symmetry. }
    assert (Hpos_o : In (xz_of pos) (origins G')).
    { right. unfold G'. rewrite map_app. apply in_or_app. right. now left. }
    assert (Hpos_lat : on_grid (xz_of pos)) by (now rewrite Hland).
    destruct (enqueue_points_front G' b1 pos Hfront Hpos_o Hpos_lat)
      as (I1 & I2 & I3 & I4).
    unfold cover_inv. cbn [with_grid_points grid_points].
    assert (Egp : grid_points (enqueue_points b1 pos) = G).
    { rewrite enqueue_points_grid_points. exact Fgp. }
    rewrite Egp. fold G'. split.
    + destruct I1 as (J1 & J2 & J3 & J4 & J5 & J6 & J7).
      unfold front_inv. simpl.
      split; [exact J1 |]. split; [exact J2 |]. split; [exact J3 |].
      split; [exact J4 |]. split; [exact J5 |]. split; [exact J6 | exact J7].
    + intros o t Ho Ht. unfold covered. simpl.
      change (covered (enqueue_points b1 pos) t = true).
      destruct Ho as [<- | Ho].
      * apply (covered_grows b); [congruence | now rewrite <- Fs |].
        apply (Hc start t); [now left | exact Ht].
      * unfold G' in Ho. rewrite map_app in Ho. apply in_app_or in Ho.
        destruct Ho as [Ho | [<- | []]].
        -- apply (covered_grows b); [congruence | now rewrite <- Fs |].
           apply (Hc o t); [now right | exact Ht].
        -- now apply I2.
  - (* the move failed: the place is outside *)
    unfold cover_inv. rewrite Fgp. fold G. split.
    + unfold front_inv. rewrite Fa, Fq, Fs, Fg.
      split; [exact Hg |]. split; [exact Ha |]. split; [exact Hqe1 |].
      split; [exact Hlat |]. split; [| split; [exact Hqu' | exact HG]].
      apply Forall_forall. intros s Hs. rewrite Forall_forall in Hset.
      destruct (Hset s Hs) as [(q & Hin & Eq) | [Hout | Hin]].
      * destruct Hin as [<- | Hin].
        -- right. left. congruence.
        -- left. eauto.
      * right. now left.
      * right. now right.
    + intros o t Ho Ht. apply (covered_grows b); [exact Fg | now rewrite Fs |].
      exact (Hc o t Ho Ht).
Qed.

Lemma queue_loop_cover (fuel : nat) (b b' : BFSController) (w w' : World) :
  cover_inv b ->
  queue_loop (cls := Controller_class) serve fuel b w = Some (b', w', Return tt) ->
  cover_inv b' /\ queue b' = [].
Proof.
  revert b w. induction fuel as [| fuel IH]; intros b w Hb Hrun.
  - simpl in Hrun. destruct (queue b) eqn:Hq; [| discriminate].
    injection Hrun as <- <-. auto.
  - simpl in Hrun. destruct (queue b) eqn:Hq.
    + injection Hrun as <- <-. auto.
    + destruct (queue_step serve b w) as [[b1 w1] o1] eqn:E1.
      destruct o1 as [ev | e]; [| discriminate].
      apply (IH b1 w1); [| exact Hrun].
      now apply (queue_step_cover b b1 w w1 ev).
Qed.

(** At the end every place of the room one step from an origin is a grid
    point. *)
Lemma cover_step (b : BFSController) (o t : XZ) :
  cover_inv b -> queue b = [] ->
  In o (origins (grid_points b)) -> on_grid o ->
  In t (steps_from g o) -> inside t = true ->
  exists p, In p (grid_points b) /\ xz_eq (xz_of p) t.
Proof.
  intros [(Hg & Ha & Hqe & Hlat & Hset & Hqu & HG) Hc] Hq Ho Holat Ht Hin.
  pose proof (Hc o t Ho Ht) as Hcov. unfold covered in Hcov.
  apply existsb_exists in Hcov as (s & Hs & Hnear). rewrite Hg in Hnear.
  rewrite Forall_forall in Hlat, Hset.
  assert (Est : xz_eq s t).
  { apply close_on_grid; [now apply Hlat | | exact Hnear].
    now apply (steps_from_on_grid o). }
  destruct (Hset s Hs) as [(q & Hqin & _) | [Hout | (p & Hp & Ep)]].
  - rewrite Hq in Hqin. destruct Hqin.
  - rewrite (inside_proper s t Est) in Hout. congruence.
  - exists p. split; [exact Hp | now rewrite Ep].
Qed.

Lemma cover_all (b : BFSController) (t : XZ) :
  cover_inv b -> queue b = [] -> walkable inside g start t ->
  exists p, In p (grid_points b) /\ xz_eq (xz_of p) t.
Proof.
  intros Hb Hq Hw. induction Hw as [t Ht Hin | s t Hw IH Ht Hin].
  - apply (cover_step b start t); auto; [now left | apply start_on_grid].
  - destruct IH as (p & Hp & Eps).
    assert (Eps' : xz_eq s (xz_of p)) by (destruct Eps; split; now symmetry).
    destruct (steps_from_proper s (xz_of p) t Eps' Ht) as (t' & Ht' & Ett').
    destruct (cover_step b (xz_of p) t' Hb Hq) as (p' & Hp' & Ep'); auto.
    + right. now apply in_map.
    + destruct Hb as [(_ & _ & _ & _ & _ & _ & HG) _].
      rewrite Forall_forall in HG. now apply HG.
    + now rewrite <- (inside_proper t t' Ett').
    + exists p'. split; [exact Hp' |].
      destruct Ep' as [X1 Z1], Ett' as [X2 Z2]. split; lra.
Qed.

End Run.
End Cover.

(** With the class [Controller] itself and both queues empty, against an
    engine that puts the agent where a move aims and lets a move succeed
    exactly when its target lies inside a room, a [search_all_closed] that
    returns has recorded the room: every grid point is a place that steps of
    the grid size reach from the first position without leaving the room, and
    every such place is a grid point. *)
Theorem search_all_closed_covers_room (World : Type)
    (serve : World -> Action -> World * Event) (inside : XZ -> bool)
    (fuel : nat) (scene_name : string) (b b' : BFSController)
    (w w1 w2 w' : World) (ev1 ev2 : Event) :
  lands_on_target serve ->
  room_decides serve inside ->
  (forall t t', xz_eq t t' -> inside t = inside t') ->
  queues_empty b ->
  0 < grid_size b ->
  serve w (mkAction "Reset" [("sceneName"%string, VStr scene_name);
                               ("sequenceId"%string, VNum 0)]) = (w1, ev1) ->
  serve w1 (mkAction "Initialize" [("gridSize"%string, VNum (25 # 100))])
    = (w2, ev2) ->
  search_all_closed (cls := Controller_class) serve fuel scene_name b w
    = Some (b', w', Return tt) ->
  let start := xz_of (agent_position (agent (metadata ev2))) in
  (forall p, In p (grid_points b') ->
             walkable inside (grid_size b) start (xz_of p))
  /\ (forall t, walkable inside (grid_size b) start t ->
                exists p, In p (grid_points b') /\ xz_eq (xz_of p) t).
Proof.
  intros Hlands Hroom Hproper [Q1 Q2] Hg Hreset Hinit Hrun start.
  unfold search_all_closed in Hrun.
  unfold BFS_reset, reset in Hrun.
  cbn [base clear_search with_allow_enqueue with_queue with_seen_points
       with_grid_points] in Hrun.
  rewrite Q2, Hreset in Hrun.
  unfold BFS_step at 1 in Hrun. unfold step in Hrun.
  cbn [_check_action Controller_class negb base with_base set_last_event
       request_queue response_queue andb] in Hrun.
  rewrite Q1, Q2 in Hrun.
  change (action_filtered (mkAction "Initialize" [("gridSize"%string, VNum (25 # 100))]))
    with (mkAction "Initialize" [("gridSize"%string, VNum (25 # 100))]) in Hrun.
  rewrite Hinit in Hrun.
  set (pos := agent_position (agent (metadata ev2))) in *.
  match type of Hrun with
  | queue_loop _ _ (enqueue_points ?b0 pos) _ = _ => set (b2 := b0) in *
  end.
  set (g := grid_size b) in *.
  assert (Hfront : front_inv inside g start [] b2).
  { unfold front_inv, b2, queues_empty. simpl.
    split; [reflexivity |]. split; [reflexivity |]. split; [split; assumption |].
    repeat split; constructor. }
  destruct (enqueue_points_front inside g start Hg [] b2 pos Hfront)
    as (I1 & I2 & I3 & I4).
  { now left. }
  { apply start_on_grid. }
  assert (Hinv : cover_inv inside g start (enqueue_points b2 pos)).
  { unfold cover_inv. rewrite enqueue_points_grid_points.
    change (grid_points b2) with (@nil Position). split; [exact I1 |].
    intros o t [<- | []] Ht. now apply I2. }
  destruct (queue_loop_cover inside g start Hg World serve Hlands Hroom
              fuel _ b' w2 w' Hinv Hrun) as [Hend Hq].
  split.
  - intros p Hp. destruct Hend as [(_ & _ & _ & _ & _ & _ & HG) _].
    rewrite Forall_forall in HG. now apply HG.
  - intros t Ht. now apply (cover_all inside g start Hg Hproper b').
Qed.

Lemma serve_room_decides :
  room_decides (serve_room inside_room) inside_room_xz.
Proof.
  intros w w1 w2 start mv m ev1 ev2 Ht _ Hm.
  unfold serve_room in Ht. simpl in Ht. injection Ht as <- <-.
  unfold serve_room in Hm. simpl in Hm. unfold param_num in Hm. simpl in Hm.
  unfold inside_room_xz.
  match type of Hm with
  | (if inside_room ?p then _ else _) = _ =>
      change (inside_room (mkPos (pos_x start + xz_x mv) 0 (pos_z start + xz_z mv)))
        with (inside_room p)
  end.
  destruct (inside_room _); injection Hm as <- <-; reflexivity.
Qed.

Lemma inside_room_xz_proper (t t' : XZ) :
  xz_eq t t' -> inside_room_xz t = inside_room_xz t'.
Proof.
  intros [Ex Ez]. unfold inside_room_xz, inside_room. simpl.
  apply eq_true_iff_eq. rewrite !andb_true_iff, !Qle_bool_iff.
  now rewrite Ex, Ez.
Qed.

Lemma search_all_closed_covers_room_witness :
  exists b' w',
    search_all_closed (cls := Controller_class) (serve_room inside_room)
                      53 "FloorPlan1" bfs_started origin
    = Some (b', w', Return tt)
    /\ (forall p, In p (grid_points b') ->
                  walkable inside_room_xz (grid_size bfs_started) (xz_of origin)
                           (xz_of p))
    /\ (forall t, walkable inside_room_xz (grid_size bfs_started) (xz_of origin) t ->
                  exists p, In p (grid_points b') /\ xz_eq (xz_of p) t).
Proof.
  eexists. eexists. split; [vm_compute; reflexivity |].
  eapply (search_all_closed_covers_room Position (serve_room inside_room)
            inside_room_xz 53 "FloorPlan1" bfs_started _ origin origin origin _
            (event_at true origin) (event_at true origin)).
  - apply serve_room_lands.
  - apply serve_room_decides.
  - apply inside_room_xz_proper.
  - split; reflexivity.
  - reflexivity.
  - reflexivity.
  - reflexivity.
  - vm_compute. reflexivity.
Defined.
